(** * Key pool rotation service: health checker, env watcher and key routes

    A shallow embedding of [src/keyHealthChecker.js] (the health checker and
    the [.env] watcher that reconciles the pool) and of [routes/keys.js].

    Conventions of the embedding.
    - A JavaScript string is a [string]: a sequence of code units below 256.
      White space is the part of the ECMAScript [WhiteSpace] and
      [LineTerminator] classes in that range.
    - A JavaScript number is a [float], an IEEE 754 double.
    - [JSON.parse], [JSON.stringify], the printing of a number,
      [path.resolve], [fs.readFileSync] and [process.cwd] belong to the
      runtime; they are the fields of the class [Runtime].
    - An [await]ed call either resolves or rejects ([outcome]); effects are
      threaded through a [World] that also records the trace of calls made.
    - [keyManager.js] is not among the sources.  Its callers are written
      against the interface [KeyManager]; [Pool] is an instance modelled from
      the specification. *)

From Stdlib Require Import ZArith Lia Ascii PrimFloat.
From stdpp Require Import base list strings.

Local Open Scope Z_scope.

(** ** JavaScript strings *)

Module Js.

Definition code (c : ascii) : nat := nat_of_ascii c.

(** [\s], and the characters [String.prototype.trim] strips: TAB, LF, VT, FF,
    CR, SPACE and NBSP. *)
Definition is_space (c : ascii) : bool :=
  let n := code c in
  ((9 <=? n)%nat && (n <=? 13)%nat) || (n =? 32)%nat || (n =? 160)%nat.

(** Characters the regular expression atom [.] does not match. *)
Definition is_line_terminator (c : ascii) : bool :=
  let n := code c in (n =? 10)%nat || (n =? 13)%nat.

(** [[A-Za-z0-9_]] *)
Definition is_name_char (c : ascii) : bool :=
  let n := code c in
  ((65 <=? n)%nat && (n <=? 90)%nat) || ((97 <=? n)%nat && (n <=? 122)%nat)
  || ((48 <=? n)%nat && (n <=? 57)%nat) || (n =? 95)%nat.

Fixpoint trimStart (s : string) : string :=
  match s with
  | EmptyString => EmptyString
  | String c s' => if is_space c then trimStart s' else s
  end.

Fixpoint trimEnd (s : string) : string :=
  match s with
  | EmptyString => EmptyString
  | String c s' =>
      match trimEnd s' with
      | EmptyString => if is_space c then EmptyString else String c EmptyString
      | r => String c r
      end
  end.

(** [s.trim()] *)
Definition trim (s : string) : string := trimEnd (trimStart s).

(** [s.split(sep)] for a one-character separator: never the empty list. *)
Fixpoint split (sep : ascii) (s : string) : list string :=
  match s with
  | EmptyString => [EmptyString]
  | String c s' =>
      if Ascii.eqb c sep then EmptyString :: split sep s'
      else match split sep s' with
           | h :: t => String c h :: t
           | [] => [String c EmptyString]
           end
  end.

(** [parts.join(sep)] *)
Fixpoint join (sep : string) (parts : list string) : string :=
  match parts with
  | [] => ""
  | [p] => p
  | p :: rest => p +:+ sep +:+ join sep rest
  end.

(** [c.toLowerCase()] on one code unit: A-Z, and the upper-case letters of
    Latin-1 (U+00C0 to U+00DE without U+00D7). *)
Definition lower_char (c : ascii) : ascii :=
  let n := code c in
  if ((65 <=? n)%nat && (n <=? 90)%nat)
     || ((192 <=? n)%nat && (n <=? 222)%nat && negb (n =? 215)%nat)
  then ascii_of_nat (n + 32) else c.

(** [s.toLowerCase()] *)
Fixpoint toLowerCase (s : string) : string :=
  match s with
  | EmptyString => EmptyString
  | String c s' => String (lower_char c) (toLowerCase s')
  end.

(** Truthiness of a string: [Boolean(s)], [!s], [s || d]. *)
Definition truthy (s : string) : bool :=
  match s with EmptyString => false | _ => true end.

(** [s || d] on strings. *)
Definition or_else (s d : string) : string := if truthy s then s else d.

(** [o || d] where [o] is a string or [undefined]. *)
Definition opt_or (o : option string) (d : string) : string :=
  match o with Some s => or_else s d | None => d end.

End Js.

(** ** JSON values and the runtime *)

#[warnings="-register-all"]
Inductive JSON : Type :=
| JNull
| JBool (b : bool)
| JNumber (n : float)
| JString (s : string)
| JArray (items : list JSON)
| JObject (fields : list (string * JSON)).

(** Insertion-ordered maps with string keys, as JavaScript's [Map]: [set] on
    a key that is present replaces its value where it stands. *)
Module JsMap.

Definition t (V : Type) : Type := list (string * V).

Fixpoint get {V} (k : string) (m : t V) : option V :=
  match m with
  | [] => None
  | (k', v) :: rest => if String.eqb k' k then Some v else get k rest
  end.

Fixpoint set {V} (k : string) (v : V) (m : t V) : t V :=
  match m with
  | [] => [(k, v)]
  | (k', v') :: rest =>
      if String.eqb k' k then (k', v) :: rest else (k', v') :: set k v rest
  end.

Definition has {V} (k : string) (m : t V) : bool :=
  match get k m with Some _ => true | None => false end.

Definition keys {V} (m : t V) : list string := map fst m.

(** [new Map(pairs)] *)
Definition of_pairs {V} (pairs : list (string * V)) : t V :=
  fold_left (fun m kv => set kv.1 kv.2 m) pairs [].

End JsMap.

(** What the program takes from Node and its standard objects.  [None] stands
    for a thrown exception.  [Number_toString] is [String(n)] for a number
    [n]. *)
Class Runtime : Type := {
  JSON_parse : string -> option JSON;
  JSON_stringify : JSON -> string;
  Number_toString : float -> string;
  path_resolve : string -> string -> string;
  process_cwd : string;
  fs_readFileSync : string -> option string
}.

Module Json.

(** [Boolean(v)] *)
Definition truthy (v : JSON) : bool :=
  match v with
  | JNull => false
  | JBool b => b
  | JNumber n => negb (is_zero n || is_nan n)
  | JString s => Js.truthy s
  | JArray _ | JObject _ => true
  end.

(** [v?.name] for the names read in this program ([id], [plan], [code]):
    only an object has such a property; [None] is [undefined]. *)
Definition prop (name : string) (v : JSON) : option JSON :=
  match v with
  | JObject fields => JsMap.get name fields
  | _ => None
  end.

Section Printing.
Context `{Runtime}.

(** [String(v)]; [None] when it throws a [TypeError].  An array prints its
    elements separated by commas, with [null] printed as the empty string.
    An object is printed by the [toString] it inherits, unless it has a
    property [toString] of its own: a parsed value is never a function, so
    that property cannot be called, the inherited [valueOf] gives no
    primitive either, and the conversion throws. *)
Fixpoint to_String (v : JSON) : option string :=
  match v with
  | JNull => Some "null"
  | JBool true => Some "true"
  | JBool false => Some "false"
  | JNumber n => Some (Number_toString n)
  | JString s => Some s
  | JArray items =>
      match
        (fix elements (l : list JSON) : option (list string) :=
           match l with
           | [] => Some []
           | x :: rest =>
               match match x with JNull => Some "" | _ => to_String x end,
                     elements rest with
               | Some text, Some texts => Some (text :: texts)
               | _, _ => None
               end
           end) items
      with
      | Some texts => Some (Js.join "," texts)
      | None => None
      end
  | JObject fields =>
      if JsMap.has "toString" fields then None else Some "[object Object]"
  end.

End Printing.

(** [o || d] where [o] may be [undefined]. *)
Definition or_else (o : option JSON) (d : JSON) : JSON :=
  match o with
  | Some v => if truthy v then v else d
  | None => d
  end.

(** [v === s] for a string [s]. *)
Definition is_string (s : string) (o : option JSON) : bool :=
  match o with
  | Some (JString s') => String.eqb s' s
  | _ => false
  end.

End Json.

(** ** Editing the env file (health checker) *)

Record EnvEntry : Type := { value : string; index : nat }.

(** The object [{ lines, map }] of [parseEnvLines]; its [map] is [vars]
    here. *)
Record ParsedEnv : Type := {
  lines : list string;
  vars : JsMap.t EnvEntry
}.

Record RemoveResult : Type := { content : string; modified : bool }.

Definition LF : ascii := "010"%char.
Definition CR : ascii := "013"%char.

Section EnvFile.
Context `{Runtime}.

(** Drops one trailing CR. *)
Fixpoint strip_cr (s : string) : string :=
  match s with
  | EmptyString => EmptyString
  | String c EmptyString => if Ascii.eqb c CR then EmptyString else s
  | String c s' => String c (strip_cr s')
  end.

(** Applies [f] to every element but the last. *)
Fixpoint map_init {A} (f : A -> A) (l : list A) : list A :=
  match l with
  | [] => []
  | [x] => [x]
  | x :: rest => f x :: map_init f rest
  end.

(** [content.split(/\r?\n/)]: a piece that a line feed ends loses the
    carriage return before that line feed. *)
Definition splitLines (content : string) : list string :=
  map_init strip_cr (Js.split LF content).

(** The longest prefix of name characters, and the rest. *)
Fixpoint span_name (s : string) : string * string :=
  match s with
  | EmptyString => (EmptyString, EmptyString)
  | String c s' =>
      if Js.is_name_char c
      then let '(n, r) := span_name s' in (String c n, r)
      else (EmptyString, s)
  end.

Fixpoint has_line_terminator (s : string) : bool :=
  match s with
  | EmptyString => false
  | String c s' => Js.is_line_terminator c || has_line_terminator s'
  end.

(** [line.match(re)] for the pattern of [parseEnvLines]: from the start of
    the line, white space, a name (one or more of A-Z, a-z, 0-9 and _,
    captured), white space, an equals sign, white space, and the rest of the
    line (captured), which ends the string and holds no line terminator.
    White space, name characters and the equals sign are disjoint classes, so
    every greedy quantifier takes its longest run and backtracking finds no
    other match. *)
Definition matchEnvLine (line : string) : option (string * string) :=
  let '(name, rest) := span_name (Js.trimStart line) in
  if Js.truthy name then
    match Js.trimStart rest with
    | String "="%char rest' =>
        let v := Js.trimStart rest' in
        if has_line_terminator v then None else Some (name, v)
    | _ => None
    end
  else None.

Fixpoint scanLines (ls : list string) (idx : nat) (m : JsMap.t EnvEntry)
  : JsMap.t EnvEntry :=
  match ls with
  | [] => m
  | line :: rest =>
      scanLines rest (S idx)
        match matchEnvLine line with
        | Some (name, v) => JsMap.set name {| value := v; index := idx |} m
        | None => m
        end
  end.

Definition parseEnvLines (content : string) : ParsedEnv :=
  let ls := splitLines content in
  {| lines := ls; vars := scanLines ls 0 [] |}.

Definition stringifyEnv (parsed : ParsedEnv) : string :=
  Js.join (String LF EmptyString) (lines parsed).

Definition sanitizeValue (v : string) : string :=
  if negb (Js.truthy v) then "" else Js.trim v.

(** [(item) => item?.id !== id] *)
Definition keeps_item (id : string) (item : JSON) : bool :=
  negb (Json.is_string id (Json.prop "id" item)).

Definition removeIdFromJson (v id : string) : string :=
  match JSON_parse v with
  | Some (JArray arr) =>
      let filtered := List.filter (keeps_item id) arr in
      if negb (length filtered =? length arr)%nat
      then JSON_stringify (JArray filtered)
      else v
  | _ => v
  end.

(** [value.split(',').map((part) => part.trim()).filter(Boolean)] *)
Definition csvParts (v : string) : list string :=
  List.filter Js.truthy (map Js.trim (Js.split ","%char v)).

(** [[0]] of a list that [split] produced. *)
Definition first_part (parts : list string) : string :=
  match parts with p :: _ => p | [] => "" end.

Definition removeIdFromCsv (v id : string) : string :=
  Js.join ","
    (List.filter
       (fun entry =>
          negb (String.eqb (Js.trim (first_part (Js.split ":"%char entry))) id))
       (csvParts v)).

Definition removeIdFromList (v id : string) : string :=
  Js.join "," (List.filter (fun entry => negb (String.eqb entry id)) (csvParts v)).

(** Writes past the end do not occur: [entry.index] was read off [lines]
    (lemma [scanLines_index]). *)
Definition updateEnvVariable (parsed : ParsedEnv) (key newValue : string)
  : ParsedEnv :=
  match JsMap.get key (vars parsed) with
  | None => parsed
  | Some entry =>
      {| lines := <[index entry := key +:+ "=" +:+ newValue]> (lines parsed);
         vars := JsMap.set key {| value := newValue; index := index entry |}
                   (vars parsed) |}
  end.

Definition priorityKeys : list string :=
  ["MAILTESTER_KEYS_JSON"; "MAILTESTER_KEYS_WITH_PLAN"; "MAILTESTER_KEYS"].

(** The value a variable gets once [id] is removed from it. *)
Definition removeIdFor (envKey originalValue id : string) : string :=
  if String.eqb envKey "MAILTESTER_KEYS_JSON"
  then removeIdFromJson originalValue id
  else if String.eqb envKey "MAILTESTER_KEYS_WITH_PLAN"
  then removeIdFromCsv originalValue id
  else if String.eqb envKey "MAILTESTER_KEYS"
  then removeIdFromList originalValue id
  else originalValue.

(** The [for (const envKey of priorityKeys)] loop, with its [continue]s and
    its [break]. *)
Fixpoint removeLoop (envKeys : list string) (parsed : ParsedEnv) (id : string)
  : ParsedEnv * bool :=
  match envKeys with
  | [] => (parsed, false)
  | envKey :: rest =>
      match JsMap.get envKey (vars parsed) with
      | None => removeLoop rest parsed id
      | Some entry =>
          let originalValue := sanitizeValue (value entry) in
          if negb (Js.truthy originalValue) then removeLoop rest parsed id
          else
            let updatedValue := removeIdFor envKey originalValue id in
            if negb (String.eqb updatedValue originalValue)
            then (updateEnvVariable parsed envKey updatedValue, true)
            else removeLoop rest parsed id
      end
  end.

Definition removeSubscriptionFromEnv (envContent id : string) : RemoveResult :=
  let '(parsed, modified) := removeLoop priorityKeys (parseEnvLines envContent) id in
  {| content := stringifyEnv parsed; modified := modified |}.

End EnvFile.

(** ** Effects: awaited calls, the world and the trace *)

(** A thrown error: [err.message], and [err.response.status] when the error
    carries a response. *)
Record JsError : Type := { message : string; response : option Z }.

Inductive outcome (A : Type) : Type :=
| Resolved (a : A)
| Rejected (err : JsError).
Arguments Resolved {A} a.
Arguments Rejected {A} err.

Definition is_resolved {A} (r : outcome A) : bool :=
  match r with Resolved _ => true | Rejected _ => false end.

(** An entry of [getAllKeysStatus] or of [getAvailableKeysSnapshot].
    [nextRequestAllowedAt] is [None] when the field is missing or null. *)
Record KeyStatus : Type := {
  subscriptionId : string;
  plan : string;
  windowCount : Z;
  nextRequestAllowedAt : option Z
}.

(** The interface of [keyManager.js] that the sources call.  Every call
    may reject and may change the store. *)
Class KeyManager (S : Type) : Type := {
  getAllKeysStatus : S -> outcome (list KeyStatus) * S;
  getAvailableKeysSnapshot : S -> outcome (list KeyStatus) * S;
  registerKey : string -> string -> S -> outcome unit * S;
  deleteKey : string -> S -> outcome unit * S
}.

(** The response of [axios.get]. *)
Record AxiosResponse : Type := { status : Z; data : JSON }.

Inductive Level : Type := Debug | Info | Warn | Error.

Inductive Event : Type :=
| Call_getAllKeysStatus
| Call_getAvailableKeysSnapshot
| Call_registerKey (id p : string) (ok : bool)
| Call_deleteKey (id : string) (ok : bool)
| HttpGet (id : string)
| Delay (ms : Z)
| WriteFile (text : string)
| Log (lvl : Level) (msg : string) (id : option string).

(** The state a run starts from: the key store, what the upstream service
    answers to a probe of each key, and the env file ([None]: it cannot be
    read). *)
Record World (S : Type) : Type := {
  store : S;
  network : string -> outcome AxiosResponse;
  envFile : option string;
  envWritable : bool
}.
Arguments store {S} _.
Arguments network {S} _.
Arguments envFile {S} _.
Arguments envWritable {S} _.

Record Run (S A : Type) : Type := {
  result : outcome A;
  final : World S;
  events : list Event
}.
Arguments result {S A} _.
Arguments final {S A} _.
Arguments events {S A} _.

Definition Eff (S A : Type) : Type := World S -> Run S A.

Definition eff_ret {S A} (a : A) : Eff S A :=
  fun w => {| result := Resolved a; final := w; events := [] |}.

Definition eff_bind {S A B} (f : A -> Eff S B) (m : Eff S A) : Eff S B :=
  fun w =>
    let r := m w in
    match result r with
    | Resolved a =>
        let r' := f a (final r) in
        {| result := result r'; final := final r';
           events := events r ++ events r' |}
    | Rejected err =>
        {| result := Rejected err; final := final r; events := events r |}
    end.

#[export] Instance eff_mret {S} : MRet (Eff S) := @eff_ret S.
#[export] Instance eff_mbind {S} : MBind (Eff S) := @eff_bind S.

(** [try { m } catch (err) { h err }] *)
Definition try_catch {S A} (m : Eff S A) (h : JsError -> Eff S A) : Eff S A :=
  fun w =>
    let r := m w in
    match result r with
    | Resolved _ => r
    | Rejected err =>
        let r' := h err (final r) in
        {| result := result r'; final := final r';
           events := events r ++ events r' |}
    end.

Definition emit {S} (e : Event) : Eff S unit :=
  fun w => {| result := Resolved tt; final := w; events := [e] |}.

(** [logger.debug], [.info], [.warn], [.error]: the message and the
    [subscriptionId] field when there is one. *)
Definition log {S} (lvl : Level) (msg : string) (id : option string)
  : Eff S unit := emit (Log lvl msg id).

Definition with_store {S} (w : World S) (s : S) : World S :=
  {| store := s; network := network w; envFile := envFile w;
     envWritable := envWritable w |}.

(** A call of [keyManager], recorded with whether it resolved. *)
Definition call {S A} (op : S -> outcome A * S) (ev : bool -> Event)
  : Eff S A :=
  fun w =>
    let '(r, s) := op (store w) in
    {| result := r; final := with_store w s; events := [ev (is_resolved r)] |}.

Section Service.
Context `{Runtime} {S : Type} `{KeyManager S}.

Definition km_getAllKeysStatus : Eff S (list KeyStatus) :=
  call getAllKeysStatus (fun _ => Call_getAllKeysStatus).

Definition km_getAvailableKeysSnapshot : Eff S (list KeyStatus) :=
  call getAvailableKeysSnapshot (fun _ => Call_getAvailableKeysSnapshot).

Definition km_registerKey (id p : string) : Eff S unit :=
  call (registerKey id p) (Call_registerKey id p).

Definition km_deleteKey (id : string) : Eff S unit :=
  call (deleteKey id) (Call_deleteKey id).

(** *** The health checker *)

Definition DEFAULT_DELAY_MS : Z := 200.

(** [readEnv]: the content, or [null] after logging the failure. *)
Definition readEnv : Eff S (option string) :=
  fun w =>
    match envFile w with
    | Some text => eff_ret (Some text) w
    | None =>
        (log Error "HealthChecker: failed to read .env" None;; mret None) w
    end.

(** [writeEnv]: a failure to write is logged and swallowed. *)
Definition writeEnv (text : string) : Eff S unit :=
  fun w =>
    if envWritable w then
      {| result := Resolved tt;
         final := {| store := store w; network := network w;
                     envFile := Some text; envWritable := envWritable w |};
         events := [WriteFile text] |}
    else
      {| result := Resolved tt; final := w;
         events := [WriteFile text;
                    Log Error "HealthChecker: failed to write .env" None] |}.

(** [axios.get(url, { timeout: 10000 })] with the key in the query. *)
Definition axios_get (subscriptionId : string) : Eff S AxiosResponse :=
  fun w =>
    {| result := network w subscriptionId; final := w;
       events := [HttpGet subscriptionId] |}.

(** [err.response && (err.response.status === 401 ||
    err.response.status === 403)] *)
Definition is_auth_rejection (err : JsError) : bool :=
  match response err with
  | Some st => (st =? 401) || (st =? 403)
  | None => false
  end.

Definition validateKey (subscriptionId : string) : Eff S bool :=
  try_catch
    (resp ← axios_get subscriptionId;
     if (status resp =? 200) && Json.truthy (data resp)
     then mret (Json.is_string "ok" (Json.prop "code" (data resp)))
     else mret false)
    (fun err =>
       if is_auth_rejection err then mret false
       else
         log Warn "HealthChecker: API request error" (Some subscriptionId);;
         mret false).

(** The body of [for (const key of keys)], threading the two variables the
    loop updates: [envContent] and [cleanedIds]. *)
Fixpoint healthLoop (keys : list KeyStatus) (envContent : string)
    (cleanedIds : list string) : Eff S (string * list string) :=
  match keys with
  | [] => mret (envContent, cleanedIds)
  | key :: rest =>
      let id := subscriptionId key in
      isValid ← validateKey id;
      st ← (if negb isValid then
              try_catch
                (km_deleteKey id;;
                 let cleanedIds' := cleanedIds ++ [id] in
                 let r := removeSubscriptionFromEnv envContent id in
                 let envContent' :=
                   if modified r then content r else envContent in
                 log Warn "HealthChecker: removed inactive key" (Some id);;
                 mret (envContent', cleanedIds'))
                (fun err =>
                   log Error "HealthChecker: failed to delete key" (Some id);;
                   mret (envContent, cleanedIds))
            else mret (envContent, cleanedIds));
      emit (Delay DEFAULT_DELAY_MS);;
      healthLoop rest st.1 st.2
  end.

Definition performHealthCheck : Eff S unit :=
  keys ← km_getAllKeysStatus;
  if (length keys =? 0)%nat then mret tt
  else
    read ← readEnv;
    let envContent := match read with Some text => text | None => "" end in
    st ← healthLoop keys envContent [];
    if negb (length st.2 =? 0)%nat then writeEnv st.1 else mret tt.

End Service.

(** ** The env watcher: desired state and reconciliation *)

(** The variables of the parsed env file that the watcher reads; [None] is
    a variable the file does not set. *)
Record EnvVars : Type := {
  MAILTESTER_DEFAULT_PLAN : option string;
  MAILTESTER_KEYS_JSON : option string;
  MAILTESTER_KEYS_JSON_PATH : option string;
  MAILTESTER_KEYS_WITH_PLAN : option string;
  MAILTESTER_KEYS : option string
}.

(** An entry [{ id, plan }] of the desired state, as the pair of its
    fields. *)
Definition DesiredKey : Type := (string * string)%type.

Section Watcher.
Context `{Runtime}.

(** [(plan) => (String(plan || '').toLowerCase() === 'pro' ? 'pro' :
    'ultimate')]; [None] when [String] throws. *)
Definition normalizePlan (p : JSON) : option string :=
  match Json.to_String (Json.or_else (Some p) (JString "")) with
  | Some text =>
      Some (if String.eqb (Js.toLowerCase text) "pro" then "pro" else "ultimate")
  | None => None
  end.

(** [normalizePlan] called with a string, which [String] leaves as it
    is. *)
Definition normalizePlanStr (plan : string) : string :=
  if String.eqb (Js.toLowerCase (Js.or_else plan "")) "pro"
  then "pro" else "ultimate".

(** [String(envVars.MAILTESTER_DEFAULT_PLAN || 'ultimate').toLowerCase()] *)
Definition defaultPlanOf (envVars : EnvVars) : string :=
  Js.toLowerCase (Js.opt_or (MAILTESTER_DEFAULT_PLAN envVars) "ultimate").

Definition path_read_error : Event :=
  Log Error "Failed to read MAILTESTER_KEYS_JSON_PATH for watcher" None.

Definition json_parse_error : Event :=
  Log Error "Failed to parse MAILTESTER_KEYS_JSON while watching" None.

(** The first lines of [parseKeysFromEnv]: [rawJson] once the file named
    by [MAILTESTER_KEYS_JSON_PATH] was tried, and what was logged. *)
Definition readRawJson (envVars : EnvVars) (envDir : string)
  : string * list Event :=
  let rawJson := Js.opt_or (MAILTESTER_KEYS_JSON envVars) "" in
  match MAILTESTER_KEYS_JSON_PATH envVars with
  | Some jsonPath =>
      if negb (Js.truthy rawJson) && Js.truthy jsonPath then
        match fs_readFileSync
                (path_resolve (Js.or_else envDir process_cwd) jsonPath) with
        | Some text => (text, [])
        | None => (rawJson, [path_read_error])
        end
      else (rawJson, [])
  | None => (rawJson, [])
  end.

(** [rawJson] as it stands after these lines. *)
Definition rawJsonOf (envVars : EnvVars) (envDir : string) : string :=
  (readRawJson envVars envDir).1.

(** The loop over the parsed array: the entries it pushed to [jsonKeys],
    and whether it was left by a throw of [String], at the [id] or at the
    plan of an entry.  What was pushed before the throw stays in
    [jsonKeys]. *)
Fixpoint jsonEntries (parsed : list JSON) (defaultPlan : string)
  : list DesiredKey * bool :=
  match parsed with
  | [] => ([], false)
  | entry :: rest =>
      match Json.to_String (Json.or_else (Json.prop "id" entry) (JString "")) with
      | None => ([], true)
      | Some text =>
          let id := Js.trim text in
          if negb (Js.truthy id) then jsonEntries rest defaultPlan
          else
            match normalizePlan
                    (Json.or_else (Json.prop "plan" entry) (JString defaultPlan))
            with
            | None => ([], true)
            | Some p =>
                let '(pushed, thrown) := jsonEntries rest defaultPlan in
                ((id, p) :: pushed, thrown)
            end
      end
  end.

(** The block that reads the first format: [jsonKeys] as it stands after
    it, and what was logged.  The [catch] takes the throw of [JSON.parse]
    and the throw of [String] in the loop alike. *)
Definition readJsonKeys (rawJson defaultPlan : string)
  : list DesiredKey * list Event :=
  if Js.truthy (Js.trim rawJson) then
    match JSON_parse rawJson with
    | Some (JArray parsed) =>
        let '(pushed, thrown) := jsonEntries parsed defaultPlan in
        (pushed, if thrown then [json_parse_error] else [])
    | Some _ => ([], [])
    | None => ([], [json_parse_error])
    end
  else ([], []).

(** [jsonKeys] as it stands when the first format has been read. *)
Definition jsonKeysOf (rawJson defaultPlan : string) : list DesiredKey :=
  (readJsonKeys rawJson defaultPlan).1.

(** [const [idPart, planPart] = entry.split(':')] and the push. *)
Fixpoint csvEntries (entries : list string) (defaultPlan : string)
  : list DesiredKey :=
  match entries with
  | [] => []
  | entry :: rest =>
      let parts := Js.split ":"%char entry in
      let idPart := parts !! 0%nat in
      let planPart := parts !! 1%nat in
      let id := Js.trim (Js.opt_or idPart "") in
      if negb (Js.truthy id) then csvEntries rest defaultPlan
      else
        (id, normalizePlanStr (Js.opt_or planPart defaultPlan))
        :: csvEntries rest defaultPlan
  end.

(** [csvKeys] for the second format. *)
Definition csvKeysOf (csvRaw defaultPlan : string) : list DesiredKey :=
  csvEntries (csvParts csvRaw) defaultPlan.

(** [listKeys] for the third format. *)
Definition listKeysOf (listRaw defaultPlan : string) : list DesiredKey :=
  map (fun id => (id, normalizePlanStr defaultPlan)) (csvParts listRaw).

(** [parseKeysFromEnv] with what it logs: the list it returns, and the
    errors logged on the way. *)
Definition parseKeysFromEnv_run (envVars : option EnvVars) (envDir : string)
  : list DesiredKey * list Event :=
  match envVars with
  | None => ([], [])
  | Some env =>
      let defaultPlan := defaultPlanOf env in
      let '(rawJson, read_log) := readRawJson env envDir in
      let '(jsonKeys, parse_log) := readJsonKeys rawJson defaultPlan in
      (if negb (length jsonKeys =? 0)%nat then jsonKeys
       else
         let csvRaw := Js.opt_or (MAILTESTER_KEYS_WITH_PLAN env) "" in
         let returned :=
           if Js.truthy (Js.trim csvRaw) then
             let csvKeys := csvKeysOf csvRaw defaultPlan in
             if negb (length csvKeys =? 0)%nat then Some csvKeys else None
           else None in
         match returned with
         | Some csvKeys => csvKeys
         | None =>
             let listRaw := Js.opt_or (MAILTESTER_KEYS env) "" in
             if Js.truthy (Js.trim listRaw) then listKeysOf listRaw defaultPlan
             else []
         end,
       read_log ++ parse_log)
  end.

(** The list that [parseKeysFromEnv] returns. *)
Definition parseKeysFromEnv (envVars : option EnvVars) (envDir : string)
  : list DesiredKey :=
  (parseKeysFromEnv_run envVars envDir).1.

(** The three formats in the words of the specification: the first of the
    lists that is not empty, and the empty list when there is none. *)
Fixpoint first_non_empty {A} (candidates : list (list A)) : list A :=
  match candidates with
  | [] => []
  | [] :: rest => first_non_empty rest
  | l :: _ => l
  end.

Definition desired_state_by_precedence (env : EnvVars) (envDir : string)
  : list DesiredKey :=
  let defaultPlan := defaultPlanOf env in
  first_non_empty
    [ jsonKeysOf (rawJsonOf env envDir) defaultPlan;
      csvKeysOf (Js.opt_or (MAILTESTER_KEYS_WITH_PLAN env) "") defaultPlan;
      listKeysOf (Js.opt_or (MAILTESTER_KEYS env) "") defaultPlan ].

End Watcher.

Section Sync.
Context `{Runtime} {S : Type} `{KeyManager S}.

(** [desiredMap]: a [Map] filled by [set] in the order of the list. *)
Definition desiredMapOf (desiredKeys : list DesiredKey) : JsMap.t string :=
  fold_left (fun m key => JsMap.set key.1 key.2 m) desiredKeys [].

(** [existingMap] *)
Definition existingMapOf (existing : list KeyStatus) : JsMap.t string :=
  JsMap.of_pairs (map (fun entry => (subscriptionId entry, plan entry)) existing).

(** [currentPlan && currentPlan === plan] *)
Definition in_desired_state (currentPlan : option string) (p : string) : bool :=
  match currentPlan with
  | Some cur => Js.truthy cur && String.eqb cur p
  | None => false
  end.

(** The loop over [desiredMap.entries()]. *)
Fixpoint registerLoop (existingMap : JsMap.t string)
    (entries : list (string * string)) : Eff S unit :=
  match entries with
  | [] => mret tt
  | (id, p) :: rest =>
      try_catch
        (if in_desired_state (JsMap.get id existingMap) p then
           log Debug "Watcher: key already in desired state" (Some id)
         else
           km_registerKey id p;;
           log Info "Watcher: applied key from .env" (Some id))
        (fun err => log Error "Watcher: failed to register key" (Some id));;
      registerLoop existingMap rest
  end.

(** The loop over [existingMap.keys()]. *)
Fixpoint deleteLoop (desiredMap : JsMap.t string) (ids : list string)
  : Eff S unit :=
  match ids with
  | [] => mret tt
  | id :: rest =>
      (if JsMap.has id desiredMap then mret tt
       else
         try_catch
           (km_deleteKey id;;
            log Info "Watcher: deleted key no longer in .env" (Some id))
           (fun err =>
              log Error "Watcher: failed to delete stale key" (Some id)));;
      deleteLoop desiredMap rest
  end.

(** [performSync] from the point where [desiredKeys] is known. *)
Definition applyDesiredKeys (desiredKeys : list DesiredKey) : Eff S unit :=
  let desiredMap := desiredMapOf desiredKeys in
  existing ← km_getAllKeysStatus;
  let existingMap := existingMapOf existing in
  registerLoop existingMap desiredMap;;
  deleteLoop desiredMap (JsMap.keys existingMap).

(** [parseEnvFile]: [parsed] is what [dotenv.parse] made of the file that
    was read, [None] when the reading or the parsing threw; the failure is
    logged and [null] returned. *)
Definition parseEnvFile (parsed : option EnvVars) : Eff S (option EnvVars) :=
  match parsed with
  | Some envVars => mret (Some envVars)
  | None => log Error "Failed to read .env file for watcher" None;; mret None
  end.

(** A step that only logs, as a part of a run. *)
Definition logged {A} (r : A * list Event) : Eff S A :=
  fun w => {| result := Resolved r.1; final := w; events := r.2 |}.

(** [performSync]: [parsed] is what [dotenv.parse] makes of the env file
    ([None] when the file cannot be read) and [envDir] is
    [path.dirname(envPath)]. *)
Definition performSync (parsed : option EnvVars) (envDir : string)
  : Eff S unit :=
  envVars ← parseEnvFile parsed;
  desiredKeys ← logged (parseKeysFromEnv_run envVars envDir);
  applyDesiredKeys desiredKeys.

End Sync.

(** ** The routes of [routes/keys.js] *)

(** An entry of the payload: [{ ...key, nextRequestInMs }]. *)
Record AvailableKey : Type := { key : KeyStatus; nextRequestInMs : Z }.

Inductive Body : Type :=
| KeysBody (st : string) (ks : list AvailableKey)
| MessageBody (msg : string)
| ErrorBody (msg : string).

Record HttpResponse : Type := { statusCode : Z; body : Body }.

Section Routes.
Context {S : Type} `{KeyManager S}.

(** [res.json(b)] and [res.status(c).json(b)] *)
Definition json (c : Z) (b : Body) : HttpResponse :=
  {| statusCode := c; body := b |}.

(** [(key) => ({ ...key, nextRequestInMs:
    Math.max((key.nextRequestAllowedAt || 0) - now, 0) })] *)
Definition annotate (now : Z) (k : KeyStatus) : AvailableKey :=
  {| key := k;
     nextRequestInMs :=
       Z.max (match nextRequestAllowedAt k with Some t => t | None => 0 end - now) 0 |}.

(** [router.get('/key/available')]; [now] is [Date.now()]. *)
Definition get_key_available (now : Z) : Eff S HttpResponse :=
  try_catch
    (keys ← km_getAvailableKeysSnapshot;
     let payload := map (annotate now) keys in
     if (length payload =? 0)%nat then mret (json 200 (KeysBody "wait" []))
     else mret (json 200 (KeysBody "ok" payload)))
    (fun err =>
       log Error "Error in /key/available" None;;
       mret (json 500 (ErrorBody "Internal server error"))).

(** [router.delete('/keys/:id')]; [id] is [req.params.id]. *)
Definition delete_keys_id (id : string) : Eff S HttpResponse :=
  if negb (Js.truthy id) then
    mret (json 400 (ErrorBody "id parameter is required"))
  else
    try_catch
      (km_deleteKey id;;
       mret (json 200 (MessageBody ("Key " +:+ id +:+ " deleted"))))
      (fun err =>
         log Error "Error in DELETE /keys/:id" None;;
         mret (json 500 (ErrorBody "Internal server error"))).

End Routes.

(** ** The key manager of the specification *)

(** Modelled from the spec: the persisted record of a key
    ([keyManager.js] is not among the sources).  A removed key is deleted
    outright, so the [state] field has the single value [active] and is left
    out. *)
Record KeyRecord : Type := {
  rec_id : string;
  rec_plan : string;
  rec_windowCount : Z;
  rec_windowStart : Z;
  rec_nextAllowedAt : Z;
  rec_lastValidatedAt : option Z;
  rec_createdAt : Z
}.

(** Modelled from the spec: the pool that [keyManager.js] holds, with the
    time at which its operations run. *)
Record Pool : Type := { records : list KeyRecord; clock : Z }.

Module SpecPool.

(** Modelled from the spec: the plans [registerKey] recognises. *)
Definition valid_plan (p : string) : bool :=
  String.eqb p "pro" || String.eqb p "ultimate".

(** Modelled from the spec: the view of a record that the read operations
    return. *)
Definition status_of (r : KeyRecord) : KeyStatus :=
  {| subscriptionId := rec_id r; plan := rec_plan r;
     windowCount := rec_windowCount r;
     nextRequestAllowedAt := Some (rec_nextAllowedAt r) |}.

(** Modelled from the spec: [getAllKeysStatus], the full list of active
    keys with their counters. *)
Definition getAllKeysStatus (p : Pool) : outcome (list KeyStatus) * Pool :=
  (Resolved (map status_of (records p)), p).

(** Modelled from the spec: [getAvailableSnapshot], every active key
    annotated with [nextAllowedAt]; it never mutates the state. *)
Definition getAvailableKeysSnapshot (p : Pool)
  : outcome (list KeyStatus) * Pool :=
  (Resolved (map status_of (records p)), p).

(** Modelled from the spec: the record is the one of key [id]. *)
Definition has_id (id : string) (r : KeyRecord) : bool := String.eqb (rec_id r) id.

(** Modelled from the spec: the plan of an existing key is updated in
    place and its counters are kept. *)
Definition set_plan (id pl : string) (r : KeyRecord) : KeyRecord :=
  if has_id id r then
    {| rec_id := rec_id r; rec_plan := pl;
       rec_windowCount := rec_windowCount r;
       rec_windowStart := rec_windowStart r;
       rec_nextAllowedAt := rec_nextAllowedAt r;
       rec_lastValidatedAt := rec_lastValidatedAt r;
       rec_createdAt := rec_createdAt r |}
  else r.

(** Modelled from the spec: a record created with zeroed counters. *)
Definition fresh (id pl : string) (now : Z) : KeyRecord :=
  {| rec_id := id; rec_plan := pl; rec_windowCount := 0;
     rec_windowStart := now; rec_nextAllowedAt := now;
     rec_lastValidatedAt := None; rec_createdAt := now |}.

(** Modelled from the spec: [registerKey] fails with [InvalidPlan] on an
    unrecognised plan, creates an unknown id with zeroed counters, and
    updates the plan of a known id in place, keeping its counters. *)
Definition registerKey (id pl : string) (p : Pool) : outcome unit * Pool :=
  if negb (valid_plan pl) then
    (Rejected {| message := "InvalidPlan"; response := None |}, p)
  else if existsb (has_id id) (records p) then
    (Resolved tt, {| records := map (set_plan id pl) (records p); clock := clock p |})
  else
    (Resolved tt, {| records := records p ++ [fresh id pl (clock p)]; clock := clock p |}).

(** Modelled from the spec: [deleteKey] deletes the key; it succeeds and
    is a no-op when the id is unknown. *)
Definition deleteKey (id : string) (p : Pool) : outcome unit * Pool :=
  (Resolved tt,
   {| records := List.filter (fun r => negb (has_id id r)) (records p);
      clock := clock p |}).

End SpecPool.

(** Modelled from the spec: the operations of [keyManager.js] on [Pool]. *)
#[export] Instance pool_manager : KeyManager Pool := {
  getAllKeysStatus := SpecPool.getAllKeysStatus;
  getAvailableKeysSnapshot := SpecPool.getAvailableKeysSnapshot;
  registerKey := SpecPool.registerKey;
  deleteKey := SpecPool.deleteKey
}.

(** ** The rest of the routes, and the callers of the two jobs *)

(** The answer of [GET /status]: the list of [getAllKeysStatus], or the
    error object. *)
Inductive StatusAnswer : Type :=
| StatusList (ks : list KeyStatus)
| StatusError (msg : string).

Definition DQUOTE : ascii := "034"%char.

(** [s] between double quotes. *)
Definition quoted (s : string) : string :=
  String DQUOTE s +:+ String DQUOTE EmptyString.

Definition type_error : JsError :=
  {| message := "TypeError: trim is not a function"; response := None |}.

(** The [TypeError] of [String(v)] on a value it cannot convert. *)
Definition convert_error : JsError :=
  {| message := "Cannot convert object to primitive value"; response := None |}.

(** [v.trim()]: a string has the method, any other value that reaches the
    call (a number, [true], an array, an object) throws a [TypeError]. *)
Definition trim_method (v : JSON) : outcome string :=
  match v with
  | JString s => Resolved (Js.trim s)
  | _ => Rejected type_error
  end.

(** [throw err] *)
Definition throw {S A} (err : JsError) : Eff S A :=
  fun w => {| result := Rejected err; final := w; events := [] |}.

Section MoreRoutes.
Context `{Runtime} {S : Type} `{KeyManager S}.

(** [router.get('/status')] *)
Definition get_status : Eff S (Z * StatusAnswer) :=
  try_catch
    (st ← km_getAllKeysStatus; mret (200, StatusList st))
    (fun err =>
       log Error "Error in /status" None;;
       mret (500, StatusError "Internal server error")).

(** [['pro', 'ultimate'].includes(normalizedPlan)] *)
Definition plan_accepted (normalizedPlan : string) : bool :=
  String.eqb normalizedPlan "pro" || String.eqb normalizedPlan "ultimate".

(** [String(plan || '').toLowerCase()] of the request body's [plan];
    [None] when [String] throws. *)
Definition normalizedPlanOf (b : JSON) : option string :=
  Js.toLowerCase
    <$> Json.to_String (Json.or_else (Json.prop "plan" b) (JString "")).

(** [(subscriptionId || id || '')] of the request body. *)
Definition subIdValue (b : JSON) : JSON :=
  Json.or_else (Json.prop "subscriptionId" b)
    (Json.or_else (Json.prop "id" b) (JString "")).

(** [router.post('/keys')]; [body] is [req.body] ([None]: undefined).  The
    calls of [trim] and of [String] stand before the [try]: when one of
    them throws, the handler rejects and sends no answer. *)
Definition post_keys (body : option JSON) : Eff S HttpResponse :=
  let b := Json.or_else body (JObject []) in
  match trim_method (subIdValue b) with
  | Rejected err => throw err
  | Resolved subId =>
      if negb (Js.truthy subId) then
        mret (json 400 (ErrorBody "subscriptionId or id is required"))
      else
        match normalizedPlanOf b with
        | None => throw convert_error
        | Some normalizedPlan =>
            if negb (plan_accepted normalizedPlan) then
              mret (json 400
                      (ErrorBody ("plan must be " +:+ quoted "pro" +:+ " or "
                                  +:+ quoted "ultimate")))
            else
              try_catch
                (km_registerKey subId normalizedPlan;;
                 mret (json 201
                         (MessageBody ("Key " +:+ subId +:+ " registered"))))
                (fun err =>
                   log Error "Error in POST /keys" None;;
                   mret (json 500 (ErrorBody "Internal server error")))
        end
  end.

End MoreRoutes.

Section Callers.
Context `{Runtime} {S : Type} `{KeyManager S}.

(** [runCheck] of [startScheduler]: what runs at start and at every firing
    of the schedule. *)
Definition runCheck : Eff S unit :=
  try_catch performHealthCheck
    (fun err => log Error "HealthChecker: unexpected error" None).

(** [runSync] of [startWatching]: what runs at start and after every
    debounced change of the env file. *)
Definition runSync (envVars : option EnvVars) (envDir : string) : Eff S unit :=
  try_catch (performSync envVars envDir)
    (fun err => log Error "Watcher sync error" None).

End Callers.

(** ** The debounce helper of the watcher *)

(** The closure of [createDebounced] together with the timers it has set:
    [timer] is the closure's variable, [pending] are the timeouts that the
    runtime holds (set, not yet fired and not cleared), [next_timer] is the
    next fresh handle, and [runs] counts the calls of [fn]. *)
Record Debouncer : Type := {
  timer : option nat;
  pending : list nat;
  next_timer : nat;
  runs : nat
}.

Definition debouncer_init : Debouncer :=
  {| timer := None; pending := []; next_timer := 0; runs := 0 |}.

(** [clearTimeout(t)] *)
Definition clearTimeout (t : nat) (ts : list nat) : list nat :=
  List.filter (fun t' => negb (t' =? t)%nat) ts.

(** The function that [createDebounced] returns. *)
Definition debounced (d : Debouncer) : Debouncer :=
  let cleared :=
    match timer d with
    | Some t => clearTimeout t (pending d)
    | None => pending d
    end in
  {| timer := Some (next_timer d);
     pending := cleared ++ [next_timer d];
     next_timer := Datatypes.S (next_timer d);
     runs := runs d |}.

(** The runtime fires the timeout [t] once its delay has passed: the
    callback sets [timer = null] and calls [fn].  A handle that is not
    pending fires nothing. *)
Definition fire (t : nat) (d : Debouncer) : Debouncer :=
  if existsb (Nat.eqb t) (pending d) then
    {| timer := None;
       pending := clearTimeout t (pending d);
       next_timer := next_timer d;
       runs := Datatypes.S (runs d) |}
  else d.

Inductive DebounceStep : Type :=
| Invoke
| Fire (t : nat).

Definition debounce_step (d : Debouncer) (st : DebounceStep) : Debouncer :=
  match st with
  | Invoke => debounced d
  | Fire t => fire t d
  end.

Definition debounce_run (steps : list DebounceStep) (d : Debouncer) : Debouncer :=
  fold_left debounce_step steps d.

(** ** The MongoDB connection module *)

(** [process.env] as the module reads it when it is loaded. *)
Record MongoEnv : Type := {
  MONGODB_URI : option string;
  MONGODB_DB_NAME : option string
}.

(** A handle [client.db(dbName)]: the client it belongs to and its name. *)
Record Db : Type := { db_client : nat; db_name : string }.

(** The module's variables [uri], [dbName], [client] and [db]; clients are
    numbered in the order [new MongoClient] made them, [created] being
    their count. *)
Record MongoState : Type := {
  uri : string;
  dbName : string;
  client : option nat;
  db : option Db;
  created : nat
}.

Inductive MongoEvent : Type :=
| NewClient (c : nat) (u : string)
| ClientConnect (c : nat) (ok : bool)
| ClientClose (c : nat) (ok : bool)
| MongoLog (msg : string).

Definition mongo_init (env : MongoEnv) : MongoState :=
  {| uri := Js.opt_or (MONGODB_URI env) "";
     dbName := Js.opt_or (MONGODB_DB_NAME env) "mailtester";
     client := None; db := None; created := 0 |}.

Definition error_of (msg : string) : JsError :=
  {| message := msg; response := None |}.

(** [connectMongo]; [connecting] is what [client.connect()] does if the
    call reaches it. *)
Definition connectMongo (connecting : outcome unit) (s : MongoState)
  : outcome unit * MongoState * list MongoEvent :=
  match db s with
  | Some _ => (Resolved tt, s, [])
  | None =>
      if negb (Js.truthy (uri s)) then
        (Rejected (error_of "MONGODB_URI is not configured"), s, [])
      else
        let c := created s in
        let s1 := {| uri := uri s; dbName := dbName s; client := Some c;
                     db := None; created := Datatypes.S c |} in
        match connecting with
        | Rejected err =>
            (Rejected err, s1, [NewClient c (uri s); ClientConnect c false])
        | Resolved _ =>
            (Resolved tt,
             {| uri := uri s; dbName := dbName s; client := Some c;
                db := Some {| db_client := c; db_name := dbName s |};
                created := Datatypes.S c |},
             [NewClient c (uri s); ClientConnect c true;
              MongoLog "Connected to MongoDB"])
        end
  end.

(** [getDb] *)
Definition getDb (s : MongoState) : outcome Db :=
  match db s with
  | Some d => Resolved d
  | None =>
      Rejected
        (error_of "MongoDB has not been initialised. Call connectMongo() first.")
  end.

(** [getKeysCollection]: the collection [keys] of the handle. *)
Definition getKeysCollection (s : MongoState) : outcome (Db * string) :=
  match getDb s with
  | Resolved d => Resolved (d, "keys")
  | Rejected err => Rejected err
  end.

(** [disconnectMongo]; [closing] is what [client.close()] does if the call
    reaches it. *)
Definition disconnectMongo (closing : outcome unit) (s : MongoState)
  : outcome unit * MongoState * list MongoEvent :=
  match client s with
  | None => (Resolved tt, s, [])
  | Some c =>
      match closing with
      | Rejected err => (Rejected err, s, [ClientClose c false])
      | Resolved _ =>
          (Resolved tt,
           {| uri := uri s; dbName := dbName s; client := None; db := None;
              created := created s |},
           [ClientClose c true; MongoLog "MongoDB connection closed"])
      end
  end.

(** A call of the module from outside, with what the driver does in it. *)
Inductive MongoOp : Type :=
| Connect (connecting : outcome unit)
| Disconnect (closing : outcome unit).

Definition mongo_step (s : MongoState) (op : MongoOp) : MongoState :=
  match op with
  | Connect r => (connectMongo r s).1.2
  | Disconnect r => (disconnectMongo r s).1.2
  end.

Definition mongo_events (s : MongoState) (op : MongoOp) : list MongoEvent :=
  match op with
  | Connect r => (connectMongo r s).2
  | Disconnect r => (disconnectMongo r s).2
  end.

Definition mongo_run (ops : list MongoOp) (s : MongoState) : MongoState :=
  fold_left mongo_step ops s.

(** ** Reading a run

    The vocabulary in which the properties below are stated. *)

(** The probe succeeded: HTTP 200 with a body whose [code] is [ok]. *)
Definition probe_ok (r : outcome AxiosResponse) : bool :=
  match r with
  | Resolved resp =>
      (status resp =? 200) && Json.truthy (data resp)
      && Json.is_string "ok" (Json.prop "code" (data resp))
  | Rejected _ => false
  end.

(** The probe failed with a transient error: the request threw, and not
    with a response of status 401 or 403 (a timeout, a network failure,
    another service error). *)
Definition is_transient (r : outcome AxiosResponse) : bool :=
  match r with
  | Rejected err => negb (is_auth_rejection err)
  | Resolved _ => false
  end.

(** [r] with [evs] placed before its events. *)
Definition after {S A} (evs : list Event) (r : Run S A) : Run S A :=
  {| result := result r; final := final r; events := evs ++ events r |}.

(** The events of one call of [validateKey]. *)
Definition probe_events (w_network : string -> outcome AxiosResponse)
    (id : string) : list Event :=
  HttpGet id ::
  (if is_transient (w_network id)
   then [Log Warn "HealthChecker: API request error" (Some id)] else []).

(** The events of [readEnv]. *)
Definition read_events {S} (w : World S) : list Event :=
  match envFile w with
  | Some _ => []
  | None => [Log Error "HealthChecker: failed to read .env" None]
  end.

(** The keys probed, in order. *)
Definition probes (evs : list Event) : list string :=
  omap (fun e => match e with HttpGet id => Some id | _ => None end) evs.

(** The ids [deleteKey] was called with. *)
Definition delete_calls (evs : list Event) : list string :=
  omap (fun e => match e with Call_deleteKey id _ => Some id | _ => None end) evs.

(** The keys that were evicted: [deleteKey] was called and resolved. *)
Definition deleted (evs : list Event) : list string :=
  omap (fun e => match e with Call_deleteKey id true => Some id | _ => None end) evs.

(** The contents written to the env file. *)
Definition writes (evs : list Event) : list string :=
  omap (fun e => match e with WriteFile text => Some text | _ => None end) evs.

(** The keys for which the warning of a request error was logged. *)
Definition transient_warnings (evs : list Event) : list string :=
  omap (fun e => match e with
                 | Log Warn "HealthChecker: API request error" (Some id) => Some id
                 | _ => None
                 end) evs.

(** The pairs [registerKey] was called with. *)
Definition register_calls (evs : list Event) : list (string * string) :=
  omap (fun e => match e with
                 | Call_registerKey id p _ => Some (id, p)
                 | _ => None
                 end) evs.

(** Every call of [registerKey] and of [deleteKey] in the trace resolved. *)
Definition call_ok (e : Event) : bool :=
  match e with
  | Call_registerKey _ _ ok => ok
  | Call_deleteKey _ ok => ok
  | _ => true
  end.

(** A string of white space only. *)
Fixpoint all_space (s : string) : bool :=
  match s with
  | EmptyString => true
  | String c s' => Js.is_space c && all_space s'
  end.


(** What the loop of [removeSubscriptionFromEnv] finds at a variable: the
    line and the new value when the variable is set, its trimmed value is
    not empty and removing [id] changes it. *)
Definition would_change `{Runtime} (parsed : ParsedEnv) (id envKey : string)
  : option (nat * string) :=
  match JsMap.get envKey (vars parsed) with
  | None => None
  | Some entry =>
      let originalValue := sanitizeValue (value entry) in
      let updatedValue := removeIdFor envKey originalValue id in
      if Js.truthy originalValue && negb (String.eqb updatedValue originalValue)
      then Some (index entry, updatedValue)
      else None
  end.

(** The value of the last pair with key [id]: what a [Map] built from the
    pairs holds at [id]. *)
Fixpoint last_assoc (id : string) (l : list (string * string)) : option string :=
  match l with
  | [] => None
  | (k, v) :: rest =>
      match last_assoc id rest with
      | Some x => Some x
      | None => if String.eqb k id then Some v else None
      end
  end.

(** The plan that a listing of the pool shows for [id]. *)
Definition plan_of (p : Pool) (id : string) : option string :=
  last_assoc id (map (fun r => (rec_id r, rec_plan r)) (records p)).

(** [c] occurs in [s]. *)
Fixpoint has_char (c : ascii) (s : string) : bool :=
  match s with
  | EmptyString => false
  | String c' s' => Ascii.eqb c' c || has_char c s'
  end.

(** A name of the env pattern: name characters only, at least one. *)
Fixpoint all_name (s : string) : bool :=
  match s with
  | EmptyString => true
  | String c s' => Js.is_name_char c && all_name s'
  end.

(** What the health loop does to [envContent] when a key is evicted. *)
Definition remove_step `{Runtime} (envContent id : string) : string :=
  let r := removeSubscriptionFromEnv envContent id in
  if modified r then content r else envContent.

(** The probes and the delays of a trace, in order. *)
Definition paces (evs : list Event) : list (string + Z) :=
  omap (fun e => match e with
                 | HttpGet id => Some (inl id)
                 | Delay ms => Some (inr ms)
                 | _ => None
                 end) evs.

(** The calls that change the pool, in order: [inl] for [registerKey],
    [inr] for [deleteKey]. *)
Definition mutations (evs : list Event) : list (string * string + string) :=
  omap (fun e => match e with
                 | Call_registerKey id p _ => Some (inl (id, p))
                 | Call_deleteKey id _ => Some (inr id)
                 | _ => None
                 end) evs.

(** The messages logged at level [Error]. *)
Definition error_logs (evs : list Event) : list string :=
  omap (fun e => match e with Log Error msg _ => Some msg | _ => None end) evs.

(** The calls of [registerKey] and [deleteKey] that rejected. *)
Definition failed_calls (evs : list Event) : list Event :=
  List.filter (fun e => negb (call_ok e)) evs.

(** The calls made on the key manager, of any kind. *)
Definition manager_calls (evs : list Event) : list Event :=
  List.filter (fun e => match e with
                        | Call_getAllKeysStatus | Call_getAvailableKeysSnapshot
                        | Call_registerKey _ _ _ | Call_deleteKey _ _ => true
                        | _ => false
                        end) evs.

(** The number of [Invoke] steps. *)
Definition invokes (steps : list DebounceStep) : nat :=
  length (List.filter (fun st => match st with Invoke => true | _ => false end) steps).

(** A part as [csvParts] yields them: not empty, trimmed, without a
    comma. *)
Definition clean_part (p : string) : Prop :=
  Js.truthy p = true /\ Js.trim p = p /\ has_char ","%char p = false.

(** The id of a desired entry is not empty and is trimmed. *)
Definition clean_id (k : DesiredKey) : Prop :=
  Js.truthy k.1 = true /\ Js.trim k.1 = k.1.

(** The closure's variable and the runtime's timeouts agree. *)
Definition debouncer_ok (d : Debouncer) : Prop :=
  pending d = match timer d with Some t => [t] | None => [] end.

(** The module's variables agree: a handle belongs to the current client
    and bears the configured name, and exists only with a configured uri. *)
Definition mongo_ok (s : MongoState) : Prop :=
  (forall d, db s = Some d ->
     client s = Some (db_client d) /\ db_name d = dbName s
     /\ Js.truthy (uri s) = true)
  /\ (forall c, client s = Some c -> (c < created s)%nat).

(** The id that the loop over the parsed array reads from an entry;
    [None] when [String] throws. *)
Definition json_id `{Runtime} (entry : JSON) : option string :=
  Js.trim <$> Json.to_String (Json.or_else (Json.prop "id" entry) (JString "")).

(** The plan that the loop gives to an entry: the entry's own, or the
    default plan when it has none or a falsy one; [None] when [String]
    throws. *)
Definition json_plan `{Runtime} (dp : string) (entry : JSON) : option string :=
  normalizePlan (Json.or_else (Json.prop "plan" entry) (JString dp)).

(** [String] converts what the loop reads from the entry: its id, and its
    plan when the id is not blank. *)
Definition convertible `{Runtime} (dp : string) (entry : JSON) : bool :=
  match json_id entry with
  | None => false
  | Some id =>
      if Js.truthy id
      then match json_plan dp entry with Some _ => true | None => false end
      else true
  end.

(** The entries before the first one that [String] cannot convert. *)
Fixpoint convertible_prefix `{Runtime} (dp : string) (parsed : list JSON)
  : list JSON :=
  match parsed with
  | [] => []
  | entry :: rest =>
      if convertible dp entry then entry :: convertible_prefix dp rest else []
  end.

(** The desired entry of an entry of the parsed array: none when its id is
    blank. *)
Definition json_key `{Runtime} (dp : string) (entry : JSON) : option DesiredKey :=
  match json_id entry with
  | Some id =>
      if Js.truthy id
      then match json_plan dp entry with
           | Some p => Some (id, p)
           | None => None
           end
      else None
  | None => None
  end.




(** What [parseEnvFile] and [parseKeysFromEnv] log in a pass. *)
Definition parse_events `{Runtime} (parsed : option EnvVars) (envDir : string)
  : list Event :=
  match parsed with
  | Some _ => []
  | None => [Log Error "Failed to read .env file for watcher" None]
  end ++ (parseKeysFromEnv_run parsed envDir).2.

(** ** Concrete inputs for the examples *)

(** The JSON text of three entries [a], [b] and [c], the second with a
    plan that is an object with a property [toString]. *)
Definition json_with_object_plan : string :=
  "[{" +:+ quoted "id" +:+ ":" +:+ quoted "a" +:+ "},{"
  +:+ quoted "id" +:+ ":" +:+ quoted "b" +:+ ","
  +:+ quoted "plan" +:+ ":{" +:+ quoted "toString" +:+ ":5}},{"
  +:+ quoted "id" +:+ ":" +:+ quoted "c" +:+ "}]".

(** A runtime for the examples.  Its parser knows two texts, the array of
    the keys [k1] (plan [pro]) and [k2] (no plan) and the text
    [json_with_object_plan], and it prints the two numbers that the
    examples hold. *)
Definition demo_runtime : Runtime := {|
  JSON_parse := fun s =>
    if String.eqb s "[k1:pro,k2]" then
      Some (JArray [JObject [("id", JString "k1"); ("plan", JString "pro")];
                    JObject [("id", JString "k2")]])
    else if String.eqb s json_with_object_plan then
      Some (JArray [JObject [("id", JString "a")];
                    JObject [("id", JString "b");
                             ("plan", JObject [("toString", JNumber 5)])];
                    JObject [("id", JString "c")]])
    else None;
  JSON_stringify := fun _ => "[]";
  Number_toString := fun n =>
    if (n =? 5)%float then "5"
    else if (n =? 12345)%float then "12345" else "NaN";
  path_resolve := fun dir file => dir +:+ "/" +:+ file;
  process_cwd := "/app";
  fs_readFileSync := fun _ => None
|}.

Definition demo_record (id pl : string) (next : Z) : KeyRecord :=
  {| rec_id := id; rec_plan := pl; rec_windowCount := 0;
     rec_windowStart := 0; rec_nextAllowedAt := next;
     rec_lastValidatedAt := None; rec_createdAt := 0 |}.

Definition demo_pool : Pool :=
  {| records := [demo_record "k1" "pro" 1500; demo_record "k2" "ultimate" 900];
     clock := 1000 |}.

Definition timeout_error : JsError :=
  {| message := "timeout of 10000ms exceeded"; response := None |}.

Definition ok_response : AxiosResponse :=
  {| status := 200; data := JObject [("code", JString "ok")] |}.

(** The upstream answers every probe, and the env file lists both keys. *)
Definition demo_world : World Pool :=
  {| store := demo_pool;
     network := fun _ => Resolved ok_response;
     envFile := Some "MAILTESTER_KEYS=k1,k2";
     envWritable := true |}.

(** The same world while the upstream cannot be reached: every probe times
    out. *)
Definition offline_world : World Pool :=
  {| store := demo_pool;
     network := fun _ => Rejected timeout_error;
     envFile := Some "MAILTESTER_KEYS=k1,k2";
     envWritable := true |}.

(** A store that lists its keys and refuses every change, as a backing
    store that can be read and not written. *)
Record Frozen : Type := { frozen_keys : list KeyStatus }.

Definition storage_error : JsError :=
  {| message := "StorageError"; response := None |}.

#[export] Instance frozen_manager : KeyManager Frozen := {
  getAllKeysStatus := fun s => (Resolved (frozen_keys s), s);
  getAvailableKeysSnapshot := fun s => (Resolved (frozen_keys s), s);
  registerKey := fun _ _ s => (Rejected storage_error, s);
  deleteKey := fun _ s => (Rejected storage_error, s)
}.

(** Two keys in a frozen store, probed while the upstream times out. *)
Definition frozen_world : World Frozen :=
  {| store := {| frozen_keys := map SpecPool.status_of (records demo_pool) |};
     network := fun _ => Rejected timeout_error;
     envFile := Some "MAILTESTER_KEYS=k1,k2";
     envWritable := true |}.

(** A desired state for [demo_pool]: [k1] stays, [k2] goes, [k3] comes. *)
Definition demo_desired : list DesiredKey :=
  [("k1", "pro"); ("k3", "ultimate")].

(** Parsed env files: one with all three formats set, one whose JSON does
    not parse, one with the bare list and a default plan. *)
Definition env_all_formats : EnvVars :=
  {| MAILTESTER_DEFAULT_PLAN := None;
     MAILTESTER_KEYS_JSON := Some "[k1:pro,k2]";
     MAILTESTER_KEYS_JSON_PATH := None;
     MAILTESTER_KEYS_WITH_PLAN := Some "a:pro";
     MAILTESTER_KEYS := Some "x,y" |}.

Definition env_bad_json : EnvVars :=
  {| MAILTESTER_DEFAULT_PLAN := None;
     MAILTESTER_KEYS_JSON := Some "not json";
     MAILTESTER_KEYS_JSON_PATH := None;
     MAILTESTER_KEYS_WITH_PLAN := Some "a:PRO, b:gold ,c, :pro";
     MAILTESTER_KEYS := Some "x,y" |}.

Definition env_bare_list : EnvVars :=
  {| MAILTESTER_DEFAULT_PLAN := Some "Pro";
     MAILTESTER_KEYS_JSON := None;
     MAILTESTER_KEYS_JSON_PATH := None;
     MAILTESTER_KEYS_WITH_PLAN := Some "  ";
     MAILTESTER_KEYS := Some " x, ,y " |}.


Definition env_object_plan : EnvVars :=
  {| MAILTESTER_DEFAULT_PLAN := None;
     MAILTESTER_KEYS_JSON := Some json_with_object_plan;
     MAILTESTER_KEYS_JSON_PATH := None;
     MAILTESTER_KEYS_WITH_PLAN := None;
     MAILTESTER_KEYS := None |}.

(** An env file in which [k1] stands in two variables. *)
Definition demo_env_file : string :=
  Js.join (String LF EmptyString)
    ["PORT=3000"; "MAILTESTER_KEYS_WITH_PLAN=k1:pro,k2:ultimate";
     "MAILTESTER_KEYS=k1,k2"].

(** The offline world with an env file that cannot be read. *)
Definition unreadable_world : World Pool :=
  {| store := demo_pool;
     network := fun _ => Rejected timeout_error;
     envFile := None;
     envWritable := true |}.

(** A request body whose [subscriptionId] is a number. *)
Definition numeric_id_body : JSON :=
  JObject [("subscriptionId", JNumber 12345); ("plan", JString "pro")].

Definition configured_env : MongoEnv :=
  {| MONGODB_URI := Some "mongodb://db:27017"; MONGODB_DB_NAME := None |}.

Definition unconfigured_env : MongoEnv :=
  {| MONGODB_URI := None; MONGODB_DB_NAME := Some "keys" |}.

(** * Properties *)

Ltac eff_unfold :=
  unfold km_getAllKeysStatus, km_getAvailableKeysSnapshot, km_registerKey,
    km_deleteKey, log in *;
  unfold mbind, eff_mbind, eff_bind, mret, eff_mret, eff_ret, try_catch,
    emit, call in *.

(** Runs of the monad, one step at a time. *)
Section Runs.
Context {S : Type}.

Lemma bind_resolved {A B} (m : Eff S A) (f : A -> Eff S B) (w : World S) a :
  result (m w) = Resolved a ->
  (m ≫= f) w = after (events (m w)) (f a (final (m w))).
Proof.
  intros Hm. unfold mbind, eff_mbind, eff_bind, after. by rewrite Hm.
Qed.

Lemma bind_rejected {A B} (m : Eff S A) (f : A -> Eff S B) (w : World S) err :
  result (m w) = Rejected err ->
  (m ≫= f) w =
    {| result := Rejected err; final := final (m w); events := events (m w) |}.
Proof.
  intros Hm. unfold mbind, eff_mbind, eff_bind. by rewrite Hm.
Qed.

Lemma after_after {A} (e1 e2 : list Event) (r : Run S A) :
  after e1 (after e2 r) = after (e1 ++ e2) r.
Proof. unfold after. simpl. by rewrite app_assoc. Qed.

Lemma after_nil {A} (r : Run S A) : after [] r = r.
Proof. by destruct r. Qed.

Lemma call_run {A} (op : S -> outcome A * S) ev (w : World S) r s' :
  op (store w) = (r, s') ->
  call op ev w =
    {| result := r; final := with_store w s'; events := [ev (is_resolved r)] |}.
Proof. intros Hop. unfold call. by rewrite Hop. Qed.

End Runs.

(** ** Routes *)

Section RoutesFacts.
Context {S : Type} `{KeyManager S}.

Lemma map_key_annotate now (ks : list KeyStatus) :
  map key (map (annotate now) ks) = ks.
Proof. induction ks as [|k ks IH]; simpl; [done | by rewrite IH]. Qed.

Lemma get_key_available_resolved now (w : World S) keys s' :
  getAvailableKeysSnapshot (store w) = (Resolved keys, s') ->
  result (get_key_available now w) =
    Resolved (match keys with
              | [] => json 200 (KeysBody "wait" [])
              | _ => json 200 (KeysBody "ok" (map (annotate now) keys))
              end).
Proof.
  intros Hsnap. unfold get_key_available. eff_unfold. rewrite Hsnap. simpl.
  by destruct keys.
Qed.

Lemma delete_keys_id_outcome (id : string) (w : World S) :
  Js.truthy id = true ->
  result (delete_keys_id id w) =
    Resolved (match (deleteKey id (store w)).1 with
              | Resolved _ => json 200 (MessageBody ("Key " +:+ id +:+ " deleted"))
              | Rejected _ => json 500 (ErrorBody "Internal server error")
              end)
  /\ store (final (delete_keys_id id w)) = (deleteKey id (store w)).2.
Proof.
  intros Hid. unfold delete_keys_id. rewrite Hid. simpl. eff_unfold.
  destruct (deleteKey id (store w)) as [[u|err] s']; simpl; done.
Qed.

End RoutesFacts.

(** C7.  [GET /key/available]: when the snapshot is read, every entry of the
    answer is a key of the snapshot carrying
    [nextRequestInMs = max (nextRequestAllowedAt - now, 0)] (a missing
    [nextRequestAllowedAt] counts as 0); an empty snapshot answers
    [{status: wait, keys: []}], a non-empty one [{status: ok}] with the
    annotated keys, in the order of the snapshot. *)
Theorem get_key_available_payload {S : Type} `{KeyManager S}
    (now : Z) (w : World S) (keys : list KeyStatus) (s' : S) :
  getAvailableKeysSnapshot (store w) = (Resolved keys, s') ->
  exists payload,
    result (get_key_available now w) =
      Resolved (json 200 (KeysBody (if (length keys =? 0)%nat then "wait" else "ok")
                            payload))
    /\ map key payload = keys
    /\ Forall (fun e =>
                 nextRequestInMs e =
                   Z.max (match nextRequestAllowedAt (key e) with
                          | Some t => t
                          | None => 0
                          end - now) 0) payload.
Proof.
  intros Hsnap. exists (map (annotate now) keys).
  rewrite (get_key_available_resolved now w keys s' Hsnap).
  split; [by destruct keys |]. split; [apply map_key_annotate |].
  clear Hsnap. induction keys as [|k ks IH]; simpl; constructor; auto.
Qed.

Lemma get_key_available_payload_witness :
  exists payload,
    result (get_key_available 1000 demo_world) =
      Resolved (json 200 (KeysBody "ok" payload))
    /\ map key payload = map SpecPool.status_of (records demo_pool)
    /\ Forall (fun e =>
                 nextRequestInMs e =
                   Z.max (match nextRequestAllowedAt (key e) with
                          | Some t => t
                          | None => 0
                          end - 1000) 0) payload.
Proof.
  exact (get_key_available_payload 1000 demo_world
           (map SpecPool.status_of (records demo_pool)) demo_pool eq_refl).
Defined.

(** ** Deletion in the pool of the specification *)

Lemma filter_twice {A} (f : A -> bool) (l : list A) :
  List.filter f (List.filter f l) = List.filter f l.
Proof.
  induction l as [|x l IH]; simpl; [done |].
  destruct (f x) eqn:Hx; simpl; [rewrite Hx, IH; done | done].
Qed.

Lemma filter_none_removed {A} (f : A -> bool) (l : list A) :
  existsb f l = false -> List.filter (fun x => negb (f x)) l = l.
Proof.
  induction l as [|x l IH]; simpl; [done |].
  intros Hex. apply orb_false_iff in Hex as [Hx Hl].
  rewrite Hx. simpl. by rewrite IH.
Qed.

Lemma pool_deleteKey_twice (id : string) (p : Pool) :
  (SpecPool.deleteKey id (SpecPool.deleteKey id p).2).2 = (SpecPool.deleteKey id p).2.
Proof. unfold SpecPool.deleteKey. simpl. by rewrite filter_twice. Qed.

Lemma pool_deleteKey_unknown (id : string) (p : Pool) :
  existsb (SpecPool.has_id id) (records p) = false ->
  (SpecPool.deleteKey id p).2 = p.
Proof.
  intros Hex. unfold SpecPool.deleteKey. simpl.
  rewrite (filter_none_removed _ _ Hex). by destruct p.
Qed.

Lemma truthy_non_empty (s : string) : s <> "" -> Js.truthy s = true.
Proof. by destruct s. Qed.

(** C6.  [DELETE /keys/:id] on the pool of the specification: for every id
    of a request (the route parameter is not empty), known to the pool or
    not, the answer is 200 with the message [Key <id> deleted]; [deleteKey]
    itself never rejects; deleting the same id again answers the same and
    leaves the pool as the first call left it; an unknown id leaves the
    pool as it was.  With any key manager, the handler answers 200 with
    that message whenever [deleteKey] resolves. *)
Theorem delete_keys_id_always_succeeds (w : World Pool) (id : string) :
  id <> "" ->
  let r1 := delete_keys_id id w in
  let r2 := delete_keys_id id (final r1) in
  result r1 = Resolved (json 200 (MessageBody ("Key " +:+ id +:+ " deleted")))
  /\ result r2 = Resolved (json 200 (MessageBody ("Key " +:+ id +:+ " deleted")))
  /\ store (final r2) = store (final r1)
  /\ (forall p : Pool, (deleteKey id p).1 = Resolved tt)
  /\ (existsb (SpecPool.has_id id) (records (store w)) = false ->
      store (final r1) = store w)
  /\ (forall (S : Type) (KM : KeyManager S) (ws : World S) (u : unit) (s' : S),
        deleteKey id (store ws) = (Resolved u, s') ->
        result (delete_keys_id id ws) =
          Resolved (json 200 (MessageBody ("Key " +:+ id +:+ " deleted")))).
Proof.
  intros Hid r1 r2. apply truthy_non_empty in Hid.
  destruct (delete_keys_id_outcome id w Hid) as [Hres1 Hst1].
  destruct (delete_keys_id_outcome id (final r1) Hid) as [Hres2 Hst2].
  fold r1 in Hres1, Hst1. fold r2 in Hres2, Hst2.
  repeat split.
  - exact Hres1.
  - exact Hres2.
  - rewrite Hst2, Hst1. apply pool_deleteKey_twice.
  - intros Hex. rewrite Hst1. by apply pool_deleteKey_unknown.
  - intros S KM ws u s' Hdel.
    destruct (delete_keys_id_outcome id ws Hid) as [-> _]. by rewrite Hdel.
Qed.

Lemma delete_keys_id_always_succeeds_witness :
  result (delete_keys_id "k9" demo_world) =
    Resolved (json 200 (MessageBody "Key k9 deleted"))
  /\ store (final (delete_keys_id "k9" demo_world)) = demo_pool.
Proof.
  pose proof (delete_keys_id_always_succeeds demo_world "k9"
                ltac:(discriminate)) as (H1 & _ & _ & _ & H5 & _).
  split; [exact H1 | exact (H5 eq_refl)].
Defined.

(** ** The health checker *)

Section HealthFacts.
Context `{Runtime} {S : Type} `{KeyManager S}.

Lemma validateKey_run (id : string) (w : World S) :
  validateKey id w =
    {| result := Resolved (probe_ok (network w id)); final := w;
       events := probe_events (network w) id |}.
Proof.
  unfold validateKey, axios_get, probe_events, probe_ok, is_transient.
  eff_unfold. simpl.
  destruct (network w id) as [resp|err]; simpl.
  - destruct (status resp =? 200); simpl; [| done].
    destruct (Json.truthy (data resp)); simpl; done.
  - destruct (is_auth_rejection err); simpl; done.
Qed.

(** One turn of the loop on a key whose probe succeeded. *)
Lemma healthLoop_valid key rest env cl (w : World S) :
  probe_ok (network w (subscriptionId key)) = true ->
  healthLoop (key :: rest) env cl w =
    after (probe_events (network w) (subscriptionId key) ++ [Delay DEFAULT_DELAY_MS])
      (healthLoop rest env cl w).
Proof.
  intros Hok. unfold after. cbn [healthLoop].
  unfold mbind at 1, eff_mbind, eff_bind. rewrite validateKey_run. simpl.
  rewrite Hok. simpl. eff_unfold. simpl.
  destruct (result (healthLoop rest env cl w)); simpl;
    rewrite <- ?app_assoc; reflexivity.
Qed.

(** One turn on a key whose probe failed and whose deletion resolved. *)
Lemma healthLoop_deleted key rest env cl (w : World S) u s' :
  probe_ok (network w (subscriptionId key)) = false ->
  deleteKey (subscriptionId key) (store w) = (Resolved u, s') ->
  let id := subscriptionId key in
  let r := removeSubscriptionFromEnv env id in
  healthLoop (key :: rest) env cl w =
    after (probe_events (network w) id ++
           [Call_deleteKey id true;
            Log Warn "HealthChecker: removed inactive key" (Some id);
            Delay DEFAULT_DELAY_MS])
      (healthLoop rest (if modified r then content r else env) (cl ++ [id])
         (with_store w s')).
Proof.
  intros Hok Hdel id r. unfold after. cbn [healthLoop].
  unfold mbind at 1, eff_mbind, eff_bind. rewrite validateKey_run. simpl.
  rewrite Hok. simpl. eff_unfold. simpl. rewrite Hdel. simpl.
  fold id. fold r.
  destruct (result (healthLoop rest _ _ _)); simpl;
    rewrite <- ?app_assoc; reflexivity.
Qed.

(** One turn on a key whose probe failed and whose deletion rejected. *)
Lemma healthLoop_delete_failed key rest env cl (w : World S) err s' :
  probe_ok (network w (subscriptionId key)) = false ->
  deleteKey (subscriptionId key) (store w) = (Rejected err, s') ->
  let id := subscriptionId key in
  healthLoop (key :: rest) env cl w =
    after (probe_events (network w) id ++
           [Call_deleteKey id false;
            Log Error "HealthChecker: failed to delete key" (Some id);
            Delay DEFAULT_DELAY_MS])
      (healthLoop rest env cl (with_store w s')).
Proof.
  intros Hok Hdel id. unfold after. cbn [healthLoop].
  unfold mbind at 1, eff_mbind, eff_bind. rewrite validateKey_run. simpl.
  rewrite Hok. simpl. eff_unfold. simpl. rewrite Hdel. simpl.
  fold id.
  destruct (result (healthLoop rest _ _ _)); simpl;
    rewrite <- ?app_assoc; reflexivity.
Qed.

End HealthFacts.

Section HealthLoop.
Context `{Runtime} {S : Type} `{KeyManager S}.

Lemma probes_probe_events net id : probes (probe_events net id) = [id].
Proof. unfold probe_events. by destruct (is_transient (net id)). Qed.

Lemma delete_calls_probe_events net id : delete_calls (probe_events net id) = [].
Proof. unfold probe_events. by destruct (is_transient (net id)). Qed.

Lemma deleted_probe_events net id : deleted (probe_events net id) = [].
Proof. unfold probe_events. by destruct (is_transient (net id)). Qed.

Lemma writes_probe_events net id : writes (probe_events net id) = [].
Proof. unfold probe_events. by destruct (is_transient (net id)). Qed.

Lemma transient_warnings_probe_events net id :
  transient_warnings (probe_events net id) =
    if is_transient (net id) then [id] else [].
Proof. unfold probe_events. by destruct (is_transient (net id)). Qed.

(** Splits a turn of the loop by the probe and by the outcome of
    [deleteKey], rewriting with the matching equation. *)
Ltac health_turn key rest env cl w :=
  let Hok := fresh "Hok" in
  let Hdel := fresh "Hdel" in
  destruct (probe_ok (network w (subscriptionId key))) eqn:Hok;
  [ rewrite (healthLoop_valid key rest env cl w Hok)
  | let u := fresh "u" in
    let err := fresh "err" in
    let s' := fresh "s'" in
    destruct (deleteKey (subscriptionId key) (store w)) as [[u|err] s'] eqn:Hdel;
    [ rewrite (healthLoop_deleted key rest env cl w u s' Hok Hdel)
    | rewrite (healthLoop_delete_failed key rest env cl w err s' Hok Hdel) ] ];
  unfold after; cbn [result final events].

Lemma healthLoop_resolves keys env cl (w : World S) :
  exists st, result (healthLoop keys env cl w) = Resolved st.
Proof.
  revert env cl w. induction keys as [|key rest IH]; intros env cl w.
  - by eexists.
  - health_turn key rest env cl w; apply IH.
Qed.

Lemma healthLoop_probes keys env cl (w : World S) :
  probes (events (healthLoop keys env cl w)) = map subscriptionId keys.
Proof.
  revert env cl w. induction keys as [|key rest IH]; intros env cl w.
  - reflexivity.
  - health_turn key rest env cl w; unfold probes in *;
      rewrite !omap_app; fold (probes (probe_events (network w) (subscriptionId key)));
      rewrite probes_probe_events; simpl; by rewrite IH.
Qed.

Lemma healthLoop_writes keys env cl (w : World S) :
  writes (events (healthLoop keys env cl w)) = [].
Proof.
  revert env cl w. induction keys as [|key rest IH]; intros env cl w.
  - reflexivity.
  - health_turn key rest env cl w; unfold writes in *;
      rewrite !omap_app; fold (writes (probe_events (network w) (subscriptionId key)));
      rewrite writes_probe_events; simpl; by rewrite IH.
Qed.

Lemma healthLoop_frame keys env cl (w : World S) :
  let w' := final (healthLoop keys env cl w) in
  network w' = network w /\ envFile w' = envFile w
  /\ envWritable w' = envWritable w.
Proof.
  revert env cl w. induction keys as [|key rest IH]; intros env cl w.
  - done.
  - cbv zeta. health_turn key rest env cl w;
      first [ exact (IH env cl w) | exact (IH _ _ (with_store w _)) ].
Qed.

(** [cleanedIds] collects exactly the keys whose deletion resolved. *)
Lemma healthLoop_cleanedIds keys env cl (w : World S) st :
  result (healthLoop keys env cl w) = Resolved st ->
  st.2 = cl ++ deleted (events (healthLoop keys env cl w)).
Proof.
  revert env cl w. induction keys as [|key rest IH]; intros env cl w.
  - simpl. intros [= <-]. simpl. by rewrite app_nil_r.
  - health_turn key rest env cl w; intros Hres; apply IH in Hres;
      rewrite Hres; unfold deleted; rewrite !omap_app;
      fold (deleted (probe_events (network w) (subscriptionId key)));
      rewrite deleted_probe_events; simpl; by rewrite <- ?app_assoc.
Qed.

(** [deleteKey] is called for the keys whose probe did not succeed, and
    for no other. *)
Lemma healthLoop_delete_calls keys env cl (w : World S) :
  delete_calls (events (healthLoop keys env cl w)) =
    List.filter (fun id => negb (probe_ok (network w id)))
      (map subscriptionId keys).
Proof.
  revert env cl w. induction keys as [|key rest IH]; intros env cl w.
  - reflexivity.
  - health_turn key rest env cl w; unfold delete_calls in *;
      rewrite !omap_app;
      fold (delete_calls (probe_events (network w) (subscriptionId key)));
      rewrite delete_calls_probe_events; simpl; rewrite Hok; simpl;
      rewrite IH; reflexivity.
Qed.

(** A warning is logged for the keys whose probe failed with a transient
    error, and for no other. *)
Lemma healthLoop_transient_warnings keys env cl (w : World S) :
  transient_warnings (events (healthLoop keys env cl w)) =
    List.filter (fun id => is_transient (network w id))
      (map subscriptionId keys).
Proof.
  revert env cl w. induction keys as [|key rest IH]; intros env cl w.
  - reflexivity.
  - health_turn key rest env cl w; unfold transient_warnings in *;
      rewrite !omap_app;
      fold (transient_warnings (probe_events (network w) (subscriptionId key)));
      rewrite transient_warnings_probe_events; simpl;
      rewrite IH; simpl;
      destruct (is_transient (network w (subscriptionId key))); reflexivity.
Qed.

End HealthLoop.

Section HealthCheck.
Context `{Runtime} {S : Type} `{KeyManager S}.

Lemma readEnv_run (w : World S) :
  readEnv w =
    {| result := Resolved (envFile w); final := w; events := read_events w |}.
Proof. unfold readEnv, read_events. by destruct (envFile w). Qed.

Lemma performHealthCheck_rejected (w : World S) err s' :
  getAllKeysStatus (store w) = (Rejected err, s') ->
  performHealthCheck w =
    {| result := Rejected err; final := with_store w s';
       events := [Call_getAllKeysStatus] |}.
Proof.
  intros Hget. unfold performHealthCheck.
  erewrite bind_rejected;
    [| unfold km_getAllKeysStatus; rewrite (call_run _ _ _ _ _ Hget); reflexivity ].
  unfold km_getAllKeysStatus. rewrite (call_run _ _ _ _ _ Hget). reflexivity.
Qed.

Lemma performHealthCheck_empty (w : World S) s' :
  getAllKeysStatus (store w) = (Resolved [], s') ->
  performHealthCheck w =
    {| result := Resolved tt; final := with_store w s';
       events := [Call_getAllKeysStatus] |}.
Proof.
  intros Hget. unfold performHealthCheck.
  erewrite bind_resolved;
    [| unfold km_getAllKeysStatus; rewrite (call_run _ _ _ _ _ Hget); reflexivity ].
  unfold km_getAllKeysStatus. rewrite (call_run _ _ _ _ _ Hget). reflexivity.
Qed.

(** A cycle over a pool that is not empty: the loop, then the write when
    [cleanedIds] is not empty. *)
Lemma performHealthCheck_cycle (w : World S) key rest s' :
  getAllKeysStatus (store w) = (Resolved (key :: rest), s') ->
  let envContent := match envFile w with Some text => text | None => "" end in
  let loop := healthLoop (key :: rest) envContent [] (with_store w s') in
  exists st,
    result loop = Resolved st
    /\ performHealthCheck w =
         after (Call_getAllKeysStatus :: read_events w ++ events loop)
           (if negb (length st.2 =? 0)%nat then writeEnv st.1 (final loop)
            else {| result := Resolved tt; final := final loop; events := [] |}).
Proof.
  intros Hget envContent loop.
  destruct (healthLoop_resolves (key :: rest) envContent [] (with_store w s'))
    as [st Hst].
  exists st. split; [exact Hst |].
  unfold performHealthCheck.
  erewrite bind_resolved;
    [| unfold km_getAllKeysStatus; rewrite (call_run _ _ _ _ _ Hget); reflexivity ].
  unfold km_getAllKeysStatus. rewrite (call_run _ _ _ _ _ Hget).
  cbn [result final events length Nat.eqb is_resolved].
  erewrite bind_resolved; [| rewrite readEnv_run; reflexivity ].
  rewrite readEnv_run. cbn [result final events].
  change (envFile (with_store w s')) with (envFile w).
  fold envContent. fold loop.
  erewrite bind_resolved; [| exact Hst ].
  rewrite !after_after.
  change (read_events (with_store w s')) with (read_events w).
  destruct (negb (length st.2 =? 0)%nat); reflexivity.
Qed.

End HealthCheck.

Section Cycle.
Context `{Runtime} {S : Type} `{KeyManager S}.

(** What one cycle does, read off its trace. *)
Lemma cycle_summary (w : World S) keys s' :
  getAllKeysStatus (store w) = (Resolved keys, s') ->
  let r := performHealthCheck w in
  result r = Resolved tt
  /\ probes (events r) = map subscriptionId keys
  /\ delete_calls (events r) =
       List.filter (fun id => negb (probe_ok (network w id)))
         (map subscriptionId keys)
  /\ transient_warnings (events r) =
       List.filter (fun id => is_transient (network w id))
         (map subscriptionId keys)
  /\ match deleted (events r) with
     | [] => writes (events r) = [] /\ envFile (final r) = envFile w
     | _ :: _ => exists text, writes (events r) = [text]
     end.
Proof.
  intros Hget r. subst r. destruct keys as [|key rest].
  - rewrite (performHealthCheck_empty w s' Hget). simpl. done.
  - destruct (performHealthCheck_cycle w key rest s' Hget) as (st & Hst & ->).
    set (envContent := match envFile w with Some text => text | None => "" end) in *.
    set (loop := healthLoop (key :: rest) envContent [] (with_store w s')) in *.
    pose proof (healthLoop_cleanedIds _ _ _ _ _ Hst) as Hcl. fold loop in Hcl.
    simpl in Hcl.
    pose proof (healthLoop_frame (key :: rest) envContent [] (with_store w s'))
      as (_ & Hfile & _). fold loop in Hfile. simpl in Hfile.
    assert (Hread : forall f : Event -> option string,
               (forall msg, f (Log Error msg None) = None) ->
               omap f (read_events w) = []).
    { intros f Hf. unfold read_events. destruct (envFile w); simpl; [done |].
      by rewrite Hf. }
    assert (Htail : forall f : Event -> option string,
               (forall msg, f (Log Error msg None) = None) ->
               omap f (events
                 (if negb (length st.2 =? 0)%nat then writeEnv st.1 (final loop)
                  else {| result := Resolved tt; final := final loop;
                          events := [] |})) =
               if negb (length st.2 =? 0)%nat
               then omap f [WriteFile st.1] else []).
    { intros f Hf. destruct (negb (length st.2 =? 0)%nat); [| done].
      unfold writeEnv. destruct (envWritable (final loop)); simpl; [done |].
      rewrite Hf. by destruct (f (WriteFile st.1)). }
    unfold after. cbn [result final events].
    repeat split.
    + by destruct (negb (length st.2 =? 0)%nat); [unfold writeEnv;
        destruct (envWritable (final loop)) |].
    + unfold probes. simpl. rewrite !omap_app, Hread, Htail by done.
      fold (probes (events loop)). unfold loop at 1.
      rewrite healthLoop_probes.
      destruct (negb (length st.2 =? 0)%nat); simpl; by rewrite app_nil_r.
    + unfold delete_calls. simpl. rewrite !omap_app, Hread, Htail by done.
      fold (delete_calls (events loop)). unfold loop at 1.
      rewrite healthLoop_delete_calls.
      destruct (negb (length st.2 =? 0)%nat); simpl; by rewrite app_nil_r.
    + unfold transient_warnings. simpl.
      rewrite !omap_app, Hread, Htail by done.
      fold (transient_warnings (events loop)). unfold loop at 1.
      rewrite healthLoop_transient_warnings.
      destruct (negb (length st.2 =? 0)%nat); simpl; by rewrite app_nil_r.
    + assert (Hdel : deleted ((Call_getAllKeysStatus ::
                 read_events w ++ events loop) ++
                 events (if negb (length st.2 =? 0)%nat
                         then writeEnv st.1 (final loop)
                         else {| result := Resolved tt; final := final loop;
                                 events := [] |})) = st.2).
      { unfold deleted. simpl. rewrite !omap_app, Hread, Htail by done.
        fold (deleted (events loop)). rewrite <- Hcl.
        destruct (negb (length st.2 =? 0)%nat); simpl; by rewrite app_nil_r. }
      rewrite Hdel.
      assert (Hwr : writes ((Call_getAllKeysStatus ::
                 read_events w ++ events loop) ++
                 events (if negb (length st.2 =? 0)%nat
                         then writeEnv st.1 (final loop)
                         else {| result := Resolved tt; final := final loop;
                                 events := [] |})) =
                 if negb (length st.2 =? 0)%nat then [st.1] else []).
      { unfold writes. simpl. rewrite !omap_app, Hread, Htail by done.
        fold (writes (events loop)). unfold loop at 1.
        rewrite healthLoop_writes.
        by destruct (negb (length st.2 =? 0)%nat). }
      rewrite Hwr. destruct st.2 as [|c cs]; simpl; [done | by eexists].
Qed.

End Cycle.

(** ** One cycle of the health checker *)

Lemma deleted_of_no_delete_call (evs : list Event) :
  delete_calls evs = [] -> deleted evs = [].
Proof.
  induction evs as [|e evs IH]; [done |].
  unfold delete_calls, deleted in *. simpl.
  destruct e as [| | | id [|] | | | |]; simpl; try exact IH; discriminate.
Qed.

Lemma filter_all_false {A} (f : A -> bool) (l : list A) :
  Forall (fun x => f x = false) l -> List.filter f l = [].
Proof.
  induction 1 as [|x l Hx _ IH]; simpl; [done |]. by rewrite Hx.
Qed.

Lemma transient_not_ok (r : outcome AxiosResponse) :
  is_transient r = true -> probe_ok r = false.
Proof. by destruct r. Qed.

(** C5.  A cycle of the health checker runs to its end whatever the
    probes and the calls of [deleteKey] do: once [getAllKeysStatus] has
    listed the keys, [performHealthCheck] resolves (no error of a key
    reaches the caller) and every key of the list was probed, in order. *)
Theorem health_check_never_aborts `{Runtime} {S : Type} `{KeyManager S}
    (w : World S) (keys : list KeyStatus) (s' : S) :
  getAllKeysStatus (store w) = (Resolved keys, s') ->
  result (performHealthCheck w) = Resolved tt
  /\ probes (events (performHealthCheck w)) = map subscriptionId keys.
Proof.
  intros Hget. destruct (cycle_summary w keys s' Hget) as (Hres & Hprobes & _).
  by split.
Qed.

Lemma health_check_never_aborts_witness :
  result (performHealthCheck (H := demo_runtime) frozen_world) = Resolved tt
  /\ probes (events (performHealthCheck (H := demo_runtime) frozen_world))
     = ["k1"; "k2"].
Proof.
  exact (health_check_never_aborts (H := demo_runtime) frozen_world
           (frozen_keys (store frozen_world)) (store frozen_world) eq_refl).
Defined.

(** C10.  The env file is written in a cycle exactly when a key was
    evicted in it (a call of [deleteKey] resolved): with no eviction there
    is no write and the file is as it was, with one there is a single
    write; and when every probed key validates (or no key is probed) no key
    is evicted. *)
Theorem env_written_only_after_eviction `{Runtime} {S : Type} `{KeyManager S}
    (w : World S) :
  let r := performHealthCheck w in
  match deleted (events r) with
  | [] => writes (events r) = [] /\ envFile (final r) = envFile w
  | _ :: _ => exists text, writes (events r) = [text]
  end
  /\ (Forall (fun id => probe_ok (network w id) = true) (probes (events r)) ->
      deleted (events r) = []).
Proof.
  cbv zeta. destruct (getAllKeysStatus (store w)) as [[keys|err] s'] eqn:Hget.
  - destruct (cycle_summary w keys s' Hget) as (_ & Hpr & Hdc & _ & Hwr).
    split; [exact Hwr |].
    intros Hvalid. apply deleted_of_no_delete_call. rewrite Hdc.
    apply filter_all_false. rewrite Hpr in Hvalid.
    eapply Forall_impl; [exact Hvalid |]. simpl. by intros id ->.
  - rewrite (performHealthCheck_rejected w err s' Hget). simpl. done.
Qed.

Lemma env_written_only_after_eviction_witness :
  deleted (events (performHealthCheck (H := demo_runtime) demo_world)) = []
  /\ writes (events (performHealthCheck (H := demo_runtime) demo_world)) = []
  /\ envFile (final (performHealthCheck (H := demo_runtime) demo_world))
     = envFile demo_world.
Proof.
  pose proof (env_written_only_after_eviction (H := demo_runtime) demo_world)
    as [Hwr Hdel].
  cbv zeta in Hwr, Hdel.
  assert (Hnone : deleted (events (performHealthCheck (H := demo_runtime) demo_world)) = []).
  { apply Hdel. vm_compute. repeat constructor. }
  rewrite Hnone in Hwr. split; [exact Hnone | exact Hwr].
Defined.

(** C1, as the code has it.  For every key a cycle probes, [deleteKey] is
    called exactly when the probe did not succeed (anything but HTTP 200
    with a body whose [code] is [ok]).  A transient error (a timeout, a
    network failure, a service error other than 401 and 403) is logged as
    a warning, which a 401 or 403 rejection is not, and it leads to the
    same call of [deleteKey]; a key is kept only when its probe succeeds. *)
Theorem failed_probe_evicts `{Runtime} {S : Type} `{KeyManager S}
    (w : World S) (keys : list KeyStatus) (s' : S) (id : string) :
  getAllKeysStatus (store w) = (Resolved keys, s') ->
  In id (map subscriptionId keys) ->
  let r := performHealthCheck w in
  (In id (delete_calls (events r)) <-> probe_ok (network w id) = false)
  /\ (In id (transient_warnings (events r)) <->
      is_transient (network w id) = true)
  /\ (is_transient (network w id) = true -> In id (delete_calls (events r))).
Proof.
  intros Hget Hin r. subst r.
  destruct (cycle_summary w keys s' Hget) as (_ & _ & Hdc & Htw & _).
  rewrite Hdc, Htw.
  assert (Hd : In id (List.filter (fun id => negb (probe_ok (network w id)))
                        (map subscriptionId keys))
               <-> probe_ok (network w id) = false).
  { rewrite filter_In, negb_true_iff. tauto. }
  split; [exact Hd |]. split.
  - rewrite filter_In. tauto.
  - intros Htr. apply Hd. by apply transient_not_ok.
Qed.

Lemma failed_probe_evicts_witness :
  In "k1" (delete_calls (events (performHealthCheck (H := demo_runtime) offline_world))).
Proof.
  apply (failed_probe_evicts (H := demo_runtime) (H0 := pool_manager) offline_world
           (map SpecPool.status_of (records demo_pool)) demo_pool "k1"
           eq_refl).
  - simpl. auto.
  - reflexivity.
Defined.

(** C1 as stated fails: while the upstream times out, the probe of [k1]
    fails with a transient error, and the cycle calls [deleteKey] for it,
    empties the pool and rewrites the env file without the keys. *)
Lemma transient_error_evicts_key :
  is_transient (network offline_world "k1") = true
  /\ In "k1" (delete_calls (events (performHealthCheck (H := demo_runtime) offline_world)))
  /\ deleted (events (performHealthCheck (H := demo_runtime) offline_world))
     = ["k1"; "k2"]
  /\ records (store (final (performHealthCheck (H := demo_runtime) offline_world)))
     = []
  /\ envFile (final (performHealthCheck (H := demo_runtime) offline_world))
     = Some "MAILTESTER_KEYS=".
Proof. vm_compute. repeat split; auto. Qed.

(** ** The desired state *)

Lemma trimEnd_empty (s : string) : Js.trimEnd s = "" -> all_space s = true.
Proof.
  induction s as [|c s IH]; simpl; [done |].
  destruct (Js.trimEnd s) eqn:Hs; [| discriminate].
  destruct (Js.is_space c); [intros _; by apply IH | discriminate].
Qed.

Lemma trim_empty (s : string) : Js.trim s = "" -> all_space s = true.
Proof.
  unfold Js.trim. induction s as [|c s IH]; simpl; [done |].
  destruct (Js.is_space c) eqn:Hc; [exact IH |].
  intros Hend. apply trimEnd_empty in Hend. simpl in Hend.
  rewrite Hc in Hend. discriminate.
Qed.

Lemma split_all_space (sep : ascii) (s : string) :
  Js.is_space sep = false -> all_space s = true -> Js.split sep s = [s].
Proof.
  intros Hsep. induction s as [|c s IH]; simpl; [done |].
  intros Hs. apply andb_true_iff in Hs as [Hc Hs].
  destruct (Ascii.eqb_spec c sep) as [->|_]; [congruence |].
  by rewrite (IH Hs).
Qed.

(** A blank string has no parts: the guards on [csvRaw.trim()] and
    [listRaw.trim()] skip nothing that the loops would have kept. *)
Lemma csvParts_blank (raw : string) :
  Js.truthy (Js.trim raw) = false -> csvParts raw = [].
Proof.
  intros Hblank. unfold csvParts.
  assert (Htrim : Js.trim raw = "") by (by destruct (Js.trim raw)).
  rewrite (split_all_space ","%char raw eq_refl (trim_empty raw Htrim)). simpl.
  by rewrite Hblank.
Qed.

Lemma first_non_empty_single {A} (l : list A) : first_non_empty [l] = l.
Proof. by destruct l. Qed.

(** The list that [parseKeysFromEnv] returns, without what it logs. *)
Lemma parseKeysFromEnv_Some `{Runtime} (env : EnvVars) (envDir : string) :
  parseKeysFromEnv (Some env) envDir =
    let defaultPlan := defaultPlanOf env in
    let jsonKeys := jsonKeysOf (rawJsonOf env envDir) defaultPlan in
    if negb (length jsonKeys =? 0)%nat then jsonKeys
    else
      let csvRaw := Js.opt_or (MAILTESTER_KEYS_WITH_PLAN env) "" in
      let returned :=
        if Js.truthy (Js.trim csvRaw) then
          let csvKeys := csvKeysOf csvRaw defaultPlan in
          if negb (length csvKeys =? 0)%nat then Some csvKeys else None
        else None in
      match returned with
      | Some csvKeys => csvKeys
      | None =>
          let listRaw := Js.opt_or (MAILTESTER_KEYS env) "" in
          if Js.truthy (Js.trim listRaw) then listKeysOf listRaw defaultPlan
          else []
      end.
Proof.
  unfold parseKeysFromEnv, parseKeysFromEnv_run, jsonKeysOf, rawJsonOf.
  destruct (readRawJson env envDir) as [rawJson read_log]. simpl.
  destruct (readJsonKeys rawJson (defaultPlanOf env)) as [jsonKeys parse_log].
  reflexivity.
Qed.

(** [parseKeysFromEnv] takes the first of the three lists that is not
    empty. *)
Lemma parseKeysFromEnv_first_non_empty `{Runtime} (env : EnvVars) (envDir : string) :
  parseKeysFromEnv (Some env) envDir = desired_state_by_precedence env envDir.
Proof.
  rewrite parseKeysFromEnv_Some. unfold desired_state_by_precedence. cbv zeta.
  set (dp := defaultPlanOf env).
  destruct (jsonKeysOf (rawJsonOf env envDir) dp) as [|j js]; [| reflexivity].
  cbn [length Nat.eqb negb first_non_empty].
  set (csvRaw := Js.opt_or (MAILTESTER_KEYS_WITH_PLAN env) "").
  set (listRaw := Js.opt_or (MAILTESTER_KEYS env) "").
  assert (Hlist :
    (if Js.truthy (Js.trim listRaw) then listKeysOf listRaw dp else [])
    = first_non_empty [listKeysOf listRaw dp]).
  { rewrite first_non_empty_single.
    destruct (Js.truthy (Js.trim listRaw)) eqn:Hl; [done |].
    unfold listKeysOf. by rewrite (csvParts_blank _ Hl). }
  destruct (Js.truthy (Js.trim csvRaw)) eqn:Hc.
  - destruct (csvKeysOf csvRaw dp) as [|c cs]; [exact Hlist | reflexivity].
  - unfold csvKeysOf. rewrite (csvParts_blank _ Hc). exact Hlist.
Qed.





(** On a string the two forms of [normalizePlan] agree. *)
Lemma normalizePlan_string `{Runtime} (plan : string) :
  normalizePlan (JString plan) = Some (normalizePlanStr plan).
Proof. unfold normalizePlan, normalizePlanStr. by destruct plan. Qed.

Section Plans.
Context `{Runtime}.






Lemma omap_cons_eq {A B} (f : A -> option B) (x : A) (l : list A) :
  omap f (x :: l) =
    match f x with Some y => y :: omap f l | None => omap f l end.
Proof. reflexivity. Qed.

(** The loop over the parsed array keeps the entries before the first
    that [String] cannot convert, and of these the ones with an id. *)
Lemma jsonEntries_prefix parsed dp :
  jsonEntries parsed dp =
    (omap (json_key dp) (convertible_prefix dp parsed),
     negb (length (convertible_prefix dp parsed) =? length parsed)%nat).
Proof.
  induction parsed as [|e parsed IH]; [reflexivity |].
  change (convertible_prefix dp (e :: parsed))
    with (if convertible dp e then e :: convertible_prefix dp parsed else []).
  simpl jsonEntries.
  destruct (Json.to_String (Json.or_else (Json.prop "id" e) (JString "")))
    as [text|] eqn:Hid.
  - destruct (Js.truthy (Js.trim text)) eqn:Ht; simpl negb; cbv iota.
    + destruct (normalizePlan
                  (Json.or_else (Json.prop "plan" e) (JString dp)))
        as [pl|] eqn:Hpl.
      * assert (Hc : convertible dp e = true).
        { unfold convertible, json_id, json_plan. rewrite Hid. simpl.
          by rewrite Ht, Hpl. }
        assert (Hk : json_key dp e = Some (Js.trim text, pl)).
        { unfold json_key, json_id, json_plan. rewrite Hid. simpl.
          by rewrite Ht, Hpl. }
        rewrite Hc, IH, omap_cons_eq, Hk. reflexivity.
      * assert (Hc : convertible dp e = false).
        { unfold convertible, json_id, json_plan. rewrite Hid. simpl.
          by rewrite Ht, Hpl. }
        rewrite Hc. reflexivity.
    + assert (Hc : convertible dp e = true).
      { unfold convertible, json_id. rewrite Hid. simpl. by rewrite Ht. }
      assert (Hk : json_key dp e = None).
      { unfold json_key, json_id. rewrite Hid. simpl. by rewrite Ht. }
      rewrite Hc, IH, omap_cons_eq, Hk. reflexivity.
  - assert (Hc : convertible dp e = false).
    { unfold convertible, json_id. by rewrite Hid. }
    rewrite Hc. reflexivity.
Qed.

End Plans.

(** ** Removing a key from the env file *)

Section EnvFrame.
Context `{Runtime}.

Lemma removeLoop_unchanged envKeys parsed id :
  Forall (fun k => would_change parsed id k = None) envKeys ->
  removeLoop envKeys parsed id = (parsed, false).
Proof.
  induction 1 as [|k ks Hk _ IH]; simpl; [done |].
  unfold would_change in Hk.
  destruct (JsMap.get k (vars parsed)) as [entry|]; [| exact IH].
  destruct (Js.truthy (sanitizeValue (value entry))); simpl in *; [| exact IH].
  destruct (negb (String.eqb _ _)); [discriminate | exact IH].
Qed.

Lemma removeLoop_changed pre envKey post parsed id i v :
  Forall (fun k => would_change parsed id k = None) pre ->
  would_change parsed id envKey = Some (i, v) ->
  removeLoop (pre ++ envKey :: post) parsed id =
    (updateEnvVariable parsed envKey v, true)
  /\ lines (updateEnvVariable parsed envKey v) =
       <[i := envKey +:+ "=" +:+ v]> (lines parsed).
Proof.
  intros Hpre Hch. induction Hpre as [|k ks Hk _ IH]; simpl.
  - unfold would_change in Hch. unfold updateEnvVariable.
    destruct (JsMap.get envKey (vars parsed)) as [entry|]; [| discriminate].
    destruct (Js.truthy (sanitizeValue (value entry))); simpl in *;
      [| discriminate].
    destruct (negb (String.eqb _ _)); [| discriminate].
    injection Hch as <- <-. done.
  - unfold would_change in Hk.
    destruct (JsMap.get k (vars parsed)) as [entry|]; [| exact IH].
    destruct (Js.truthy (sanitizeValue (value entry))); simpl in *;
      [| exact IH].
    destruct (negb (String.eqb _ _)); [discriminate | exact IH].
Qed.

(** The first variable of a list that would change, with the variables
    before it, which would not. *)
Lemma first_change parsed id (envKeys : list string) :
  Forall (fun k => would_change parsed id k = None) envKeys
  \/ exists pre envKey post i v,
       envKeys = pre ++ envKey :: post
       /\ Forall (fun k => would_change parsed id k = None) pre
       /\ would_change parsed id envKey = Some (i, v).
Proof.
  induction envKeys as [|k ks IH]; [left; constructor |].
  destruct (would_change parsed id k) as [[i v]|] eqn:Hk.
  - right. exists [], k, ks, i, v. by repeat split.
  - destruct IH as [Hall | (pre & envKey & post & i & v & -> & Hpre & Hch)].
    + left. by constructor.
    + right. exists (k :: pre), envKey, post, i, v.
      repeat split; [by constructor | done].
Qed.

Lemma JsMap_get_set {V} (k k' : string) (v : V) (m : JsMap.t V) :
  JsMap.get k (JsMap.set k' v m) =
    if String.eqb k' k then Some v else JsMap.get k m.
Proof.
  induction m as [|[k0 v0] m IH]; simpl.
  - done.
  - destruct (String.eqb_spec k0 k') as [->|Hne]; simpl.
    + by destruct (String.eqb k' k).
    + rewrite IH. destruct (String.eqb_spec k0 k) as [->|]; [| done].
      destruct (String.eqb_spec k' k); [congruence | done].
Qed.

(** Every index recorded by [parseEnvLines] is the index of a line. *)
Lemma scanLines_index ls idx m bound :
  (idx + length ls <= bound)%nat ->
  (forall k e, JsMap.get k m = Some e -> (index e < bound)%nat) ->
  forall k e, JsMap.get k (scanLines ls idx m) = Some e -> (index e < bound)%nat.
Proof.
  revert idx m. induction ls as [|line ls IH]; intros idx m Hb Hm k e; simpl.
  - apply Hm.
  - apply IH; [simpl in Hb; lia |].
    intros k' e'. destruct (matchEnvLine line) as [[name v]|]; [| apply Hm].
    rewrite JsMap_get_set. destruct (String.eqb name k').
    + intros [= <-]. simpl. simpl in Hb. lia.
    + apply Hm.
Qed.

Lemma would_change_index content id envKey i v :
  would_change (parseEnvLines content) id envKey = Some (i, v) ->
  (i < length (lines (parseEnvLines content)))%nat.
Proof.
  unfold would_change.
  destruct (JsMap.get envKey (vars (parseEnvLines content))) as [entry|] eqn:Hget;
    [| discriminate].
  destruct (_ && _); [| discriminate]. intros [= <- _].
  unfold parseEnvLines in Hget |- *. simpl in *.
  eapply (scanLines_index _ 0%nat []); [| | exact Hget]; [simpl; lia |].
  intros k e. discriminate.
Qed.

End EnvFrame.

(** C9.  [removeSubscriptionFromEnv] changes at most one line.  It takes
    the variables in the order [MAILTESTER_KEYS_JSON],
    [MAILTESTER_KEYS_WITH_PLAN], [MAILTESTER_KEYS] and stops at the first
    one that is set, not empty and changed by the removal of the id: the
    line of that variable becomes [NAME=value] and every other line is
    kept as it is, the lines of the later variables included, whether they
    hold the id or not.  When no variable changes, no line does. *)
Theorem removeSubscriptionFromEnv_frame `{Runtime} (envContent id : string) :
  let parsed := parseEnvLines envContent in
  let r := removeSubscriptionFromEnv envContent id in
  exists lines' : list string,
    content r = Js.join (String LF EmptyString) lines'
    /\ length lines' = length (lines parsed)
    /\ ((modified r = false /\ lines' = lines parsed
         /\ Forall (fun k => would_change parsed id k = None) priorityKeys)
        \/ (modified r = true
            /\ exists pre envKey post i v,
                 priorityKeys = pre ++ envKey :: post
                 /\ Forall (fun k => would_change parsed id k = None) pre
                 /\ would_change parsed id envKey = Some (i, v)
                 /\ (i < length (lines parsed))%nat
                 /\ lines' !! i = Some (envKey +:+ "=" +:+ v)
                 /\ forall j, j <> i -> lines' !! j = lines parsed !! j)).
Proof.
  intros parsed r. subst r. unfold removeSubscriptionFromEnv. fold parsed.
  destruct (first_change parsed id priorityKeys)
    as [Hall | (pre & envKey & post & i & v & Hkeys & Hpre & Hch)].
  - rewrite (removeLoop_unchanged _ _ _ Hall). simpl.
    exists (lines parsed). split; [done |]. split; [done |]. left. done.
  - destruct (removeLoop_changed pre envKey post parsed id i v Hpre Hch)
      as [Hloop Hlines].
    rewrite Hkeys, Hloop. simpl. unfold stringifyEnv. rewrite Hlines.
    pose proof (would_change_index envContent id envKey i v Hch) as Hi.
    fold parsed in Hi.
    exists (<[i := envKey +:+ "=" +:+ v]> (lines parsed)).
    split; [done |]. split; [apply length_insert |]. right.
    split; [done |]. exists pre, envKey, post, i, v.
    repeat split; try done.
    + by apply list_lookup_insert_eq.
    + intros j Hj. by apply list_lookup_insert_ne.
Qed.

(** ** Reconciliation *)

Section SyncLoops.
Context {S : Type} `{KeyManager S}.

Lemma registerLoop_skip E id p rest (w : World S) :
  in_desired_state (JsMap.get id E) p = true ->
  registerLoop E ((id, p) :: rest) w =
    after [Log Debug "Watcher: key already in desired state" (Some id)]
      (registerLoop E rest w).
Proof.
  intros Hin. cbn [registerLoop]. rewrite Hin.
  erewrite bind_resolved; reflexivity.
Qed.

Lemma registerLoop_registered E id p rest (w : World S) u s' :
  in_desired_state (JsMap.get id E) p = false ->
  registerKey id p (store w) = (Resolved u, s') ->
  registerLoop E ((id, p) :: rest) w =
    after [Call_registerKey id p true;
           Log Info "Watcher: applied key from .env" (Some id)]
      (registerLoop E rest (with_store w s')).
Proof.
  intros Hin Hreg. cbn [registerLoop]. rewrite Hin.
  erewrite bind_resolved.
  - unfold try_catch, km_registerKey. erewrite bind_resolved;
      rewrite (call_run _ _ _ _ _ Hreg); reflexivity.
  - unfold try_catch, km_registerKey. erewrite bind_resolved;
      rewrite (call_run _ _ _ _ _ Hreg); reflexivity.
Qed.

Lemma registerLoop_rejected E id p rest (w : World S) err s' :
  in_desired_state (JsMap.get id E) p = false ->
  registerKey id p (store w) = (Rejected err, s') ->
  registerLoop E ((id, p) :: rest) w =
    after [Call_registerKey id p false;
           Log Error "Watcher: failed to register key" (Some id)]
      (registerLoop E rest (with_store w s')).
Proof.
  intros Hin Hreg. cbn [registerLoop]. rewrite Hin.
  erewrite bind_resolved.
  - unfold try_catch, km_registerKey. erewrite bind_rejected;
      rewrite (call_run _ _ _ _ _ Hreg); reflexivity.
  - unfold try_catch, km_registerKey. erewrite bind_rejected;
      rewrite (call_run _ _ _ _ _ Hreg); reflexivity.
Qed.

Lemma deleteLoop_skip D id rest (w : World S) :
  JsMap.has id D = true ->
  deleteLoop D (id :: rest) w = deleteLoop D rest w.
Proof.
  intros Hhas. cbn [deleteLoop]. rewrite Hhas.
  erewrite bind_resolved; [| reflexivity]. simpl. apply after_nil.
Qed.

Lemma deleteLoop_deleted D id rest (w : World S) u s' :
  JsMap.has id D = false ->
  deleteKey id (store w) = (Resolved u, s') ->
  deleteLoop D (id :: rest) w =
    after [Call_deleteKey id true;
           Log Info "Watcher: deleted key no longer in .env" (Some id)]
      (deleteLoop D rest (with_store w s')).
Proof.
  intros Hhas Hdel. cbn [deleteLoop]. rewrite Hhas.
  erewrite bind_resolved.
  - unfold try_catch, km_deleteKey. erewrite bind_resolved;
      rewrite (call_run _ _ _ _ _ Hdel); reflexivity.
  - unfold try_catch, km_deleteKey. erewrite bind_resolved;
      rewrite (call_run _ _ _ _ _ Hdel); reflexivity.
Qed.

Lemma deleteLoop_failed D id rest (w : World S) err s' :
  JsMap.has id D = false ->
  deleteKey id (store w) = (Rejected err, s') ->
  deleteLoop D (id :: rest) w =
    after [Call_deleteKey id false;
           Log Error "Watcher: failed to delete stale key" (Some id)]
      (deleteLoop D rest (with_store w s')).
Proof.
  intros Hhas Hdel. cbn [deleteLoop]. rewrite Hhas.
  erewrite bind_resolved.
  - unfold try_catch, km_deleteKey. erewrite bind_rejected;
      rewrite (call_run _ _ _ _ _ Hdel); reflexivity.
  - unfold try_catch, km_deleteKey. erewrite bind_rejected;
      rewrite (call_run _ _ _ _ _ Hdel); reflexivity.
Qed.

End SyncLoops.

(** One turn of each loop, by the case the turn is in. *)
Ltac register_turn E id p rest w :=
  let Hin := fresh "Hin" in
  let Hreg := fresh "Hreg" in
  destruct (in_desired_state (JsMap.get id E) p) eqn:Hin;
  [ rewrite (registerLoop_skip E id p rest w Hin)
  | let u := fresh "u" in
    let err := fresh "err" in
    let s' := fresh "s'" in
    destruct (registerKey id p (store w)) as [[u|err] s'] eqn:Hreg;
    [ rewrite (registerLoop_registered E id p rest w u s' Hin Hreg)
    | rewrite (registerLoop_rejected E id p rest w err s' Hin Hreg) ] ];
  unfold after; cbn [result final events].

Ltac delete_turn D id rest w :=
  let Hhas := fresh "Hhas" in
  let Hdel := fresh "Hdel" in
  destruct (JsMap.has id D) eqn:Hhas;
  [ rewrite (deleteLoop_skip D id rest w Hhas)
  | let u := fresh "u" in
    let err := fresh "err" in
    let s' := fresh "s'" in
    destruct (deleteKey id (store w)) as [[u|err] s'] eqn:Hdel;
    [ rewrite (deleteLoop_deleted D id rest w u s' Hhas Hdel)
    | rewrite (deleteLoop_failed D id rest w err s' Hhas Hdel) ] ];
  unfold after; cbn [result final events].

Section SyncTrace.
Context {S : Type} `{KeyManager S}.

Lemma registerLoop_resolves E entries (w : World S) :
  result (registerLoop E entries w) = Resolved tt.
Proof.
  revert w. induction entries as [|[id p] rest IH]; intros w; [done |].
  register_turn E id p rest w; apply IH.
Qed.

Lemma deleteLoop_resolves D ids (w : World S) :
  result (deleteLoop D ids w) = Resolved tt.
Proof.
  revert w. induction ids as [|id rest IH]; intros w; [done |].
  delete_turn D id rest w; apply IH.
Qed.

(** [registerKey] is called for the entries that are not in the desired
    state already, in their order, and [deleteKey] is not called. *)
Lemma registerLoop_calls E entries (w : World S) :
  register_calls (events (registerLoop E entries w)) =
    List.filter (fun k => negb (in_desired_state (JsMap.get k.1 E) k.2)) entries
  /\ delete_calls (events (registerLoop E entries w)) = [].
Proof.
  revert w. induction entries as [|[id p] rest IH]; intros w; [done |].
  register_turn E id p rest w; simpl; rewrite Hin; simpl;
    unfold register_calls, delete_calls in *; simpl;
    first [ destruct (IH w) as [-> ->] | destruct (IH (with_store w s')) as [-> ->] ];
    done.
Qed.

(** [deleteKey] is called for the ids that the desired state does not
    have, in their order, and [registerKey] is not called. *)
Lemma deleteLoop_calls D ids (w : World S) :
  delete_calls (events (deleteLoop D ids w)) =
    List.filter (fun id => negb (JsMap.has id D)) ids
  /\ register_calls (events (deleteLoop D ids w)) = [].
Proof.
  revert w. induction ids as [|id rest IH]; intros w; [done |].
  delete_turn D id rest w; simpl; rewrite Hhas; simpl;
    unfold register_calls, delete_calls in *; simpl;
    first [ destruct (IH w) as [-> ->] | destruct (IH (with_store w s')) as [-> ->] ];
    done.
Qed.

(** The trace of a pass once the pool was listed. *)
Lemma applyDesiredKeys_run desiredKeys (w : World S) existing s' :
  getAllKeysStatus (store w) = (Resolved existing, s') ->
  let D := desiredMapOf desiredKeys in
  let E := existingMapOf existing in
  let reg := registerLoop E D (with_store w s') in
  let del := deleteLoop D (JsMap.keys E) (final reg) in
  applyDesiredKeys desiredKeys w =
    {| result := Resolved tt; final := final del;
       events := Call_getAllKeysStatus :: events reg ++ events del |}.
Proof.
  intros Hget D E reg del. unfold applyDesiredKeys.
  erewrite bind_resolved;
    [| unfold km_getAllKeysStatus; rewrite (call_run _ _ _ _ _ Hget); reflexivity ].
  unfold km_getAllKeysStatus. rewrite (call_run _ _ _ _ _ Hget).
  cbn [result final events is_resolved]. fold D E. fold reg.
  erewrite bind_resolved; [| apply registerLoop_resolves ].
  fold reg. fold del. unfold after. cbn [result final events].
  pose proof (deleteLoop_resolves D (JsMap.keys E) (final reg)) as Hdel.
  fold del in Hdel. by rewrite Hdel.
Qed.

Lemma applyDesiredKeys_calls desiredKeys (w : World S) existing s' :
  getAllKeysStatus (store w) = (Resolved existing, s') ->
  let D := desiredMapOf desiredKeys in
  let E := existingMapOf existing in
  let r := applyDesiredKeys desiredKeys w in
  register_calls (events r) =
    List.filter (fun k => negb (in_desired_state (JsMap.get k.1 E) k.2)) D
  /\ delete_calls (events r) =
       List.filter (fun id => negb (JsMap.has id D)) (JsMap.keys E).
Proof.
  intros Hget D E r. subst r.
  rewrite (applyDesiredKeys_run desiredKeys w existing s' Hget).
  cbn [result final events]. fold D E.
  destruct (registerLoop_calls E D (with_store w s')) as [Hr1 Hd1].
  destruct (deleteLoop_calls D (JsMap.keys E)
              (final (registerLoop E D (with_store w s')))) as [Hd2 Hr2].
  unfold register_calls, delete_calls in *. simpl.
  rewrite !omap_app, Hr1, Hd1, Hr2, Hd2. simpl. by rewrite app_nil_r.
Qed.

End SyncTrace.

(** *** Maps *)

Lemma last_assoc_snoc id l k v :
  last_assoc id (l ++ [(k, v)]) =
    if String.eqb k id then Some v else last_assoc id l.
Proof.
  induction l as [|[k0 v0] l IH]; simpl.
  - by destruct (String.eqb k id).
  - rewrite IH. by destruct (String.eqb k id).
Qed.

Lemma get_fold_set id (l : list (string * string)) (m : JsMap.t string) :
  JsMap.get id (fold_left (fun m kv => JsMap.set kv.1 kv.2 m) l m) =
    match last_assoc id l with
    | Some x => Some x
    | None => JsMap.get id m
    end.
Proof.
  revert m. induction l as [|[k v] l IH]; intros m; simpl; [done |].
  rewrite IH. destruct (last_assoc id l); [done |].
  rewrite JsMap_get_set. by destruct (String.eqb k id).
Qed.

Lemma keys_set {V} (k k' : string) (v : V) (m : JsMap.t V) :
  In k' (JsMap.keys (JsMap.set k v m)) <-> k' = k \/ In k' (JsMap.keys m).
Proof.
  unfold JsMap.keys. induction m as [|[k0 v0] m IH]; simpl.
  - intuition.
  - destruct (String.eqb_spec k0 k) as [->|Hne]; simpl; [intuition |].
    rewrite IH. intuition.
Qed.

Lemma NoDup_keys_set {V} (k : string) (v : V) (m : JsMap.t V) :
  NoDup (JsMap.keys m) -> NoDup (JsMap.keys (JsMap.set k v m)).
Proof.
  unfold JsMap.keys. induction m as [|[k0 v0] m IH]; simpl; intros Hnd.
  - constructor; [rewrite list_elem_of_In; simpl; tauto | constructor].
  - apply NoDup_cons in Hnd as [Hk0 Hnd].
    destruct (String.eqb_spec k0 k) as [->|Hne]; simpl.
    + by apply NoDup_cons.
    + apply NoDup_cons. split; [| by apply IH].
      rewrite list_elem_of_In in *. intros Hin.
      apply (keys_set k k0 v m) in Hin as [Heq | Hin]; [congruence | done].
Qed.

Lemma NoDup_keys_fold (l : list (string * string)) (m : JsMap.t string) :
  NoDup (JsMap.keys m) ->
  NoDup (JsMap.keys (fold_left (fun m kv => JsMap.set kv.1 kv.2 m) l m)).
Proof.
  revert m. induction l as [|[k v] l IH]; intros m Hnd; simpl; [done |].
  apply IH. by apply NoDup_keys_set.
Qed.

Lemma NoDup_desiredMapOf desiredKeys : NoDup (JsMap.keys (desiredMapOf desiredKeys)).
Proof. apply NoDup_keys_fold. constructor. Qed.

Lemma get_None_keys {V} (k : string) (m : JsMap.t V) :
  JsMap.get k m = None <-> ~ In k (JsMap.keys m).
Proof.
  unfold JsMap.keys. induction m as [|[k0 v0] m IH]; simpl; [tauto |].
  destruct (String.eqb_spec k0 k) as [->|Hne]; [intuition discriminate |].
  rewrite IH. intuition.
Qed.

Lemma has_keys {V} (k : string) (m : JsMap.t V) :
  JsMap.has k m = true <-> In k (JsMap.keys m).
Proof.
  unfold JsMap.has. pose proof (get_None_keys k m) as Hnone.
  destruct (JsMap.get k m) eqn:Hget.
  - split; [intros _ | done].
    destruct (in_dec String.string_dec k (JsMap.keys m)) as [Hin|Hnin]; [done |].
    apply Hnone in Hnin. discriminate.
  - split; [discriminate |]. intros Hin. by apply Hnone in Hin.
Qed.

Lemma In_get {V} (k : string) (v : V) (m : JsMap.t V) :
  NoDup (JsMap.keys m) -> In (k, v) m -> JsMap.get k m = Some v.
Proof.
  unfold JsMap.keys. induction m as [|[k0 v0] m IH]; simpl; [done |].
  intros Hnd Hin. apply NoDup_cons in Hnd as [Hk0 Hnd].
  destruct Hin as [[= -> ->] | Hin].
  - by rewrite String.eqb_refl.
  - destruct (String.eqb_spec k0 k) as [->|Hne]; [| by apply IH].
    exfalso. apply Hk0. rewrite list_elem_of_In.
    change k with (fst (k, v)). by apply in_map.
Qed.

(** *** The pool of the specification under [registerKey] and [deleteKey] *)

Lemma existingMap_pool (p : Pool) (id : string) :
  JsMap.get id (existingMapOf (map SpecPool.status_of (records p))) = plan_of p id.
Proof.
  unfold existingMapOf, JsMap.of_pairs, plan_of. rewrite get_fold_set.
  rewrite map_map. simpl. by destruct (last_assoc _ _).
Qed.

(** Case analysis on every comparison of strings in the goal. *)
Ltac string_cases :=
  repeat match goal with
    | |- context [String.eqb ?a ?b] =>
        destruct (String.eqb_spec a b); subst; simpl in *
    | H : context [String.eqb ?a ?b] |- _ =>
        destruct (String.eqb_spec a b); subst; simpl in *
    end;
  try congruence.

Lemma plan_of_set_plan id pl (rs : list KeyRecord) id' :
  last_assoc id'
    (map (fun r => (rec_id r, rec_plan r)) (map (SpecPool.set_plan id pl) rs)) =
  if String.eqb id id'
  then if existsb (SpecPool.has_id id) rs then Some pl else None
  else last_assoc id' (map (fun r => (rec_id r, rec_plan r)) rs).
Proof.
  induction rs as [|r rs IH]; simpl.
  - by destruct (String.eqb id id').
  - rewrite IH. unfold SpecPool.set_plan, SpecPool.has_id.
    destruct (existsb _ rs);
      destruct (last_assoc id' (map _ rs)); string_cases.
Qed.

Lemma plan_of_filter id (rs : list KeyRecord) id' :
  last_assoc id'
    (map (fun r => (rec_id r, rec_plan r))
       (List.filter (fun r => negb (SpecPool.has_id id r)) rs)) =
  if String.eqb id id' then None
  else last_assoc id' (map (fun r => (rec_id r, rec_plan r)) rs).
Proof.
  induction rs as [|r rs IH]; simpl.
  - by destruct (String.eqb id id').
  - unfold SpecPool.has_id in *.
    destruct (String.eqb_spec (rec_id r) id) as [Hr|Hr]; simpl; rewrite IH;
      destruct (last_assoc id' (map _ rs)); string_cases.
Qed.

Lemma plan_of_registerKey id pl (p : Pool) u p' id' :
  registerKey id pl p = (Resolved u, p') ->
  plan_of p' id' = if String.eqb id id' then Some pl else plan_of p id'.
Proof.
  simpl. unfold SpecPool.registerKey, plan_of.
  destruct (SpecPool.valid_plan pl); simpl; [| discriminate].
  destruct (existsb (SpecPool.has_id id) (records p)) eqn:Hex;
    intros [= _ <-]; simpl.
  - rewrite plan_of_set_plan, Hex. done.
  - rewrite map_app. simpl. apply last_assoc_snoc.
Qed.

Lemma registerKey_resolved_valid id pl (p : Pool) u p' :
  registerKey id pl p = (Resolved u, p') -> pl <> "".
Proof.
  simpl. unfold SpecPool.registerKey.
  destruct (SpecPool.valid_plan pl) eqn:Hv; simpl; [| discriminate].
  intros _ ->. discriminate.
Qed.

Lemma plan_of_deleteKey id (p : Pool) r p' id' :
  deleteKey id p = (r, p') ->
  plan_of p' id' = if String.eqb id id' then None else plan_of p id'.
Proof.
  simpl. unfold SpecPool.deleteKey, plan_of. intros [= _ <-]. simpl.
  apply plan_of_filter.
Qed.

Lemma in_desired_state_iff (cur : option string) (p : string) :
  p <> "" -> (in_desired_state cur p = true <-> cur = Some p).
Proof.
  intros Hp. unfold in_desired_state. destruct cur as [c|]; [| done].
  destruct (String.eqb_spec c p) as [->|Hne].
  - rewrite (truthy_non_empty p Hp). done.
  - rewrite andb_false_r. split; [done | congruence].
Qed.

Lemma in_desired_state_plan (cur : option string) (p : string) :
  in_desired_state cur p = true -> cur = Some p /\ p <> "".
Proof.
  unfold in_desired_state. destruct cur as [c|]; [| done].
  intros Hin. apply andb_true_iff in Hin as [Ht He].
  apply String.eqb_eq in He as ->. split; [done |]. by destruct p.
Qed.

(** The register loop on the pool of the specification, when every call
    resolved: each entry ends with its plan, and no other key changes. *)
Lemma registerLoop_pool E entries (w : World Pool) :
  NoDup (map fst entries) ->
  forallb call_ok (events (registerLoop E entries w)) = true ->
  (forall id p, In (id, p) entries ->
     in_desired_state (JsMap.get id E) p = true ->
     plan_of (store w) id = Some p) ->
  (forall id p, In (id, p) entries ->
     plan_of (store (final (registerLoop E entries w))) id = Some p /\ p <> "")
  /\ (forall id, ~ In id (map fst entries) ->
        plan_of (store (final (registerLoop E entries w))) id
        = plan_of (store w) id).
Proof.
  revert w. induction entries as [|[id0 p0] rest IH]; intros w Hnd Hok Hpre.
  - split; [intros id p [] | done].
  - simpl in Hnd. apply NoDup_cons in Hnd as [Hid0 Hnd].
    rewrite list_elem_of_In in Hid0.
    revert Hok. register_turn E id0 p0 rest w; intros Hok.
    + simpl in Hok. destruct (IH w Hnd Hok) as [IH1 IH2].
      { intros id p Hmem. apply Hpre. by right. }
      split.
      * intros id p [[= <- <-] | Hmem]; [| by apply IH1].
        rewrite (IH2 id0 Hid0).
        split; [apply Hpre; [by left | done] |].
        by apply in_desired_state_plan in Hin as [_ ?].
      * intros id Hnin. apply IH2. simpl in Hnin. tauto.
    + simpl in Hok.
      assert (Hother : forall id, id <> id0 ->
                plan_of (store (with_store w s')) id = plan_of (store w) id).
      { intros id Hne. simpl. rewrite (plan_of_registerKey _ _ _ _ _ id Hreg).
        destruct (String.eqb_spec id0 id); [congruence | done]. }
      destruct (IH (with_store w s') Hnd Hok) as [IH1 IH2].
      { intros id p Hmem Hds. rewrite Hother; [apply Hpre; [by right | done] |].
        intros ->. apply Hid0. apply (in_map fst) in Hmem. exact Hmem. }
      split.
      * intros id p [[= <- <-] | Hmem]; [| by apply IH1].
        rewrite (IH2 id0 Hid0). simpl.
        rewrite (plan_of_registerKey _ _ _ _ _ id0 Hreg), String.eqb_refl.
        split; [done |]. by eapply registerKey_resolved_valid.
      * intros id Hnin. simpl in Hnin. rewrite IH2 by tauto.
        apply Hother. intros ->. tauto.
    + simpl in Hok. discriminate.
Qed.

(** The delete loop on the pool of the specification: the ids of the list
    that the desired state does not have are gone, the rest is kept. *)
Lemma deleteLoop_pool D ids (w : World Pool) (id : string) :
  plan_of (store (final (deleteLoop D ids w))) id =
    if existsb (String.eqb id) ids && negb (JsMap.has id D) then None
    else plan_of (store w) id.
Proof.
  revert w. induction ids as [|id0 rest IH]; intros w; [done |].
  delete_turn D id0 rest w.
  - rewrite IH. simpl. destruct (String.eqb_spec id id0) as [->|]; [| done].
    rewrite Hhas. simpl. by rewrite andb_false_r.
  - rewrite IH. simpl. rewrite (plan_of_deleteKey _ _ _ _ id Hdel).
    destruct (String.eqb_spec id id0) as [->|Hne]; simpl.
    + rewrite Hhas, String.eqb_refl. simpl. by destruct (existsb _ rest).
    + destruct (String.eqb_spec id0 id); [congruence | done].
  - simpl in Hdel. discriminate.
Qed.

Lemma existsb_eqb_In (id : string) (ids : list string) :
  existsb (String.eqb id) ids = true <-> In id ids.
Proof.
  rewrite existsb_exists. split.
  - intros (x & Hin & Heq). by apply String.eqb_eq in Heq as ->.
  - intros Hin. exists id. by rewrite String.eqb_refl.
Qed.

(** After a pass in which every call resolved, a listing of the pool
    shows the desired state. *)
Lemma applyDesiredKeys_pool desiredKeys (w : World Pool) :
  let D := desiredMapOf desiredKeys in
  let r := applyDesiredKeys desiredKeys w in
  forallb call_ok (events r) = true ->
  (forall id, plan_of (store (final r)) id = JsMap.get id D)
  /\ (forall id p, In (id, p) D -> p <> "").
Proof.
  intros D r Hok. subst r.
  rewrite (applyDesiredKeys_run (H := pool_manager) desiredKeys w
             (map SpecPool.status_of (records (store w))) (store w) eq_refl)
    in Hok |- *.
  cbn [result final events] in Hok |- *. fold D in Hok |- *.
  set (E := existingMapOf (map SpecPool.status_of (records (store w)))) in *.
  set (reg := registerLoop E D (with_store w (store w))) in *.
  simpl in Hok. rewrite forallb_app in Hok.
  apply andb_true_iff in Hok as [Hreg _].
  pose proof (NoDup_desiredMapOf desiredKeys) as Hnd. fold D in Hnd.
  assert (HndL : NoDup (map fst D)).
  { exact Hnd. }
  destruct (registerLoop_pool E D (with_store w (store w)) HndL Hreg) as [H1 H2].
  { intros id p Hin Hds. apply in_desired_state_plan in Hds as [Hget _].
    simpl. rewrite <- Hget. subst E. by rewrite existingMap_pool. }
  fold reg in H1, H2. split; [| intros id p Hin; by apply (H1 id p)].
  intros id. rewrite deleteLoop_pool.
  destruct (JsMap.get id D) as [p|] eqn:HgetD.
  - assert (Hhas : JsMap.has id D = true) by (unfold JsMap.has; by rewrite HgetD).
    rewrite Hhas, andb_false_r.
    apply H1. clear -HgetD. induction D as [|[k v] D IH]; simpl in *; [done |].
    destruct (String.eqb_spec k id) as [->|]; [left; congruence | right; auto].
  - assert (Hhas : JsMap.has id D = false) by (unfold JsMap.has; by rewrite HgetD).
    rewrite Hhas. simpl. rewrite andb_true_r.
    apply get_None_keys in HgetD.
    destruct (existsb (String.eqb id) (JsMap.keys E)) eqn:Hex; [done |].
    rewrite (H2 id HgetD). simpl. rewrite <- existingMap_pool. fold E.
    apply get_None_keys. intros Hin. apply existsb_eqb_In in Hin. congruence.
Qed.

(** C4.  One pass of the reconciler calls [registerKey] exactly for the
    entries of the desired state whose plan the existing state does not
    show (another plan, or no such key) and [deleteKey] exactly for the
    existing ids that the desired state does not have.  On the pool of the
    specification, a second pass with the same desired state after a pass
    in which every call resolved calls neither. *)
Theorem reconciliation_converges :
  (forall (S : Type) (KM : KeyManager S) (w : World S)
          (desiredKeys : list DesiredKey) (existing : list KeyStatus) (s' : S),
     getAllKeysStatus (store w) = (Resolved existing, s') ->
     let D := desiredMapOf desiredKeys in
     let E := existingMapOf existing in
     let r := applyDesiredKeys desiredKeys w in
     register_calls (events r) =
       List.filter (fun k => negb (in_desired_state (JsMap.get k.1 E) k.2)) D
     /\ delete_calls (events r) =
          List.filter (fun id => negb (JsMap.has id D)) (JsMap.keys E))
  /\ (forall (cur : option string) (p : string),
        p <> "" -> (in_desired_state cur p = true <-> cur = Some p))
  /\ (forall (w : World Pool) (desiredKeys : list DesiredKey),
        let r1 := applyDesiredKeys desiredKeys w in
        let r2 := applyDesiredKeys desiredKeys (final r1) in
        forallb call_ok (events r1) = true ->
        register_calls (events r2) = [] /\ delete_calls (events r2) = []).
Proof.
  split; [| split].
  - intros S KM w desiredKeys existing s' Hget.
    exact (applyDesiredKeys_calls desiredKeys w existing s' Hget).
  - exact in_desired_state_iff.
  - intros w desiredKeys r1 r2 Hok.
    destruct (applyDesiredKeys_pool desiredKeys w Hok) as [Hplan Hnonempty].
    fold r1 in Hplan.
    set (D := desiredMapOf desiredKeys) in *.
    destruct (applyDesiredKeys_calls (H := pool_manager) desiredKeys (final r1)
                (map SpecPool.status_of (records (store (final r1))))
                (store (final r1)) eq_refl) as [Hreg Hdel].
    fold r2 in Hreg, Hdel. fold D in Hreg, Hdel.
    rewrite Hreg, Hdel. split.
    + apply filter_all_false. apply Forall_forall. intros [id p] Hmem.
      apply list_elem_of_In in Hmem. simpl.
      rewrite existingMap_pool, Hplan.
      rewrite (In_get id p D (NoDup_desiredMapOf desiredKeys) Hmem).
      apply negb_false_iff. apply in_desired_state_iff; [| done].
      by apply (Hnonempty id p).
    + apply filter_all_false. apply Forall_forall. intros id Hmem.
      apply list_elem_of_In in Hmem. apply negb_false_iff.
      apply has_keys. apply has_keys in Hmem. unfold JsMap.has in Hmem.
      rewrite existingMap_pool, Hplan in Hmem.
      destruct (JsMap.get id D) eqn:Hget; [| discriminate].
      apply has_keys. unfold JsMap.has. by rewrite Hget.
Qed.

Lemma reconciliation_converges_witness :
  register_calls (events (applyDesiredKeys demo_desired demo_world))
  = [("k3", "ultimate")]
  /\ delete_calls (events (applyDesiredKeys demo_desired demo_world)) = ["k2"]
  /\ register_calls
       (events (applyDesiredKeys demo_desired
                  (final (applyDesiredKeys demo_desired demo_world)))) = []
  /\ delete_calls
       (events (applyDesiredKeys demo_desired
                  (final (applyDesiredKeys demo_desired demo_world)))) = [].
Proof.
  destruct reconciliation_converges as (_ & _ & Hconv).
  destruct (Hconv demo_world demo_desired eq_refl) as [Hreg Hdel].
  split; [reflexivity |]. split; [reflexivity |].
  split; [exact Hreg | exact Hdel].
Defined.

Section SyncPlans.
Context `{Runtime} {S : Type} `{KeyManager S}.



Lemma applyDesiredKeys_rejected desiredKeys (w : World S) err s' :
  getAllKeysStatus (store w) = (Rejected err, s') ->
  applyDesiredKeys desiredKeys w =
    {| result := Rejected err; final := with_store w s';
       events := [Call_getAllKeysStatus] |}.
Proof.
  intros Hget. unfold applyDesiredKeys.
  erewrite bind_rejected;
    [| unfold km_getAllKeysStatus; rewrite (call_run _ _ _ _ _ Hget); reflexivity ].
  unfold km_getAllKeysStatus. rewrite (call_run _ _ _ _ _ Hget). reflexivity.
Qed.

(** A pass is the reconciliation of the list that [parseKeysFromEnv]
    returned, after what the parsing logged. *)
Lemma performSync_run parsed envDir (w : World S) :
  performSync parsed envDir w =
    after (parse_events parsed envDir)
      (applyDesiredKeys (parseKeysFromEnv parsed envDir) w).
Proof.
  unfold performSync, parse_events, parseKeysFromEnv, after.
  destruct parsed as [env|]; simpl.
  - unfold mbind, eff_mbind, eff_bind, mret, eff_mret, eff_ret, logged. simpl.
    destruct (applyDesiredKeys _ w) as [r f evs]. reflexivity.
  - unfold mbind, eff_mbind, eff_bind, mret, eff_mret, eff_ret, logged, log, emit.
    simpl. destruct (applyDesiredKeys _ w) as [r f evs]. reflexivity.
Qed.

Lemma readRawJson_log (env : EnvVars) envDir :
  (readRawJson env envDir).2 = [] \/ (readRawJson env envDir).2 = [path_read_error].
Proof.
  unfold readRawJson. destruct (MAILTESTER_KEYS_JSON_PATH env); [| by left].
  destruct (_ && _); [| by left].
  destruct (fs_readFileSync _); [by left | by right].
Qed.

Lemma readJsonKeys_log raw dp :
  (readJsonKeys raw dp).2 = [] \/ (readJsonKeys raw dp).2 = [json_parse_error].
Proof.
  unfold readJsonKeys. destruct (Js.truthy _); [| by left].
  destruct (JSON_parse raw) as [[]|]; try (by left); [| by right].
  destruct (jsonEntries items dp) as [pushed []]; [by right | by left].
Qed.

Lemma parseKeysFromEnv_run_log (env : EnvVars) envDir :
  (parseKeysFromEnv_run (Some env) envDir).2 =
    (readRawJson env envDir).2
    ++ (readJsonKeys (rawJsonOf env envDir) (defaultPlanOf env)).2.
Proof.
  unfold parseKeysFromEnv_run, rawJsonOf.
  destruct (readRawJson env envDir) as [rawJson read_log]. simpl.
  by destruct (readJsonKeys rawJson (defaultPlanOf env)).
Qed.

(** The parsing logs errors and nothing else, two at most. *)
Lemma parse_events_errors parsed envDir :
  Forall (fun e => exists msg, e = Log Error msg None) (parse_events parsed envDir)
  /\ (length (parse_events parsed envDir) <= 2)%nat.
Proof.
  unfold parse_events.
  destruct parsed as [env|]; [| split; [repeat constructor; by eexists | simpl; lia]].
  rewrite parseKeysFromEnv_run_log.
  destruct (readRawJson_log env envDir) as [-> | ->];
    destruct (readJsonKeys_log (rawJsonOf env envDir) (defaultPlanOf env))
      as [-> | ->];
    (split; [repeat constructor; by eexists | simpl; lia]).
Qed.

Lemma omap_error_logs {B} (f : Event -> option B) (evs : list Event) :
  (forall lvl msg id, f (Log lvl msg id) = None) ->
  Forall (fun e => exists msg, e = Log Error msg None) evs ->
  omap f evs = [].
Proof.
  intros Hf. induction 1 as [|e evs [msg ->] _ IH]; [done |].
  rewrite omap_cons_eq, Hf. exact IH.
Qed.

Lemma register_calls_performSync parsed envDir (w : World S) :
  register_calls (events (performSync parsed envDir w)) =
    register_calls (events (applyDesiredKeys (parseKeysFromEnv parsed envDir) w)).
Proof.
  rewrite performSync_run. unfold register_calls, after. simpl.
  rewrite omap_app, omap_error_logs; [done | done |].
  apply parse_events_errors.
Qed.

Lemma delete_calls_performSync parsed envDir (w : World S) :
  delete_calls (events (performSync parsed envDir w)) =
    delete_calls (events (applyDesiredKeys (parseKeysFromEnv parsed envDir) w)).
Proof.
  rewrite performSync_run. unfold delete_calls, after. simpl.
  rewrite omap_app, omap_error_logs; [done | done |].
  apply parse_events_errors.
Qed.


End SyncPlans.

Section Formats.
Context `{Runtime}.




End Formats.



(** ** The functions on the concrete inputs *)

Example normalizePlan_examples :
  normalizePlan (H := demo_runtime) (JString "PRO") = Some "pro"
  /\ normalizePlan (H := demo_runtime) (JString "premium") = Some "ultimate"
  /\ normalizePlan (H := demo_runtime) (JString " pro") = Some "ultimate"
  /\ normalizePlan (H := demo_runtime) (JString "") = Some "ultimate"
  /\ normalizePlan (H := demo_runtime) (JNumber 5) = Some "ultimate"
  /\ normalizePlan (H := demo_runtime) (JArray [JString "Pro"]) = Some "pro"
  /\ normalizePlan (H := demo_runtime) (JObject [("toString", JNumber 5)]) = None
  /\ normalizePlan (H := demo_runtime) (JObject [("plan", JString "pro")])
     = Some "ultimate".
Proof. repeat split. Qed.

(** An entry whose plan [String] cannot convert ends the reading of the
    JSON list: [a] before it is kept, [b] and [c] are dropped, and the
    error is logged. *)
Example parseKeysFromEnv_unconvertible_plan :
  parseKeysFromEnv_run (H := demo_runtime) (Some env_object_plan) "/app"
  = ([("a", "ultimate")], [json_parse_error]).
Proof. reflexivity. Qed.

Example parseKeysFromEnv_json_first :
  parseKeysFromEnv (H := demo_runtime) (Some env_all_formats) "/app"
  = [("k1", "pro"); ("k2", "ultimate")].
Proof. reflexivity. Qed.

Example parseKeysFromEnv_pairs_second :
  parseKeysFromEnv (H := demo_runtime) (Some env_bad_json) "/app"
  = [("a", "pro"); ("b", "ultimate"); ("c", "ultimate")].
Proof. reflexivity. Qed.

Example parseKeysFromEnv_bare_list_last :
  parseKeysFromEnv (H := demo_runtime) (Some env_bare_list) "/app"
  = [("x", "pro"); ("y", "pro")].
Proof. reflexivity. Qed.

Example removeSubscriptionFromEnv_first_variable_only :
  removeSubscriptionFromEnv (H := demo_runtime) demo_env_file "k1"
  = {| content :=
         Js.join (String LF EmptyString)
           ["PORT=3000"; "MAILTESTER_KEYS_WITH_PLAN=k2:ultimate";
            "MAILTESTER_KEYS=k1,k2"];
       modified := true |}.
Proof. reflexivity. Qed.

Example removeSubscriptionFromEnv_unknown_id :
  removeSubscriptionFromEnv (H := demo_runtime) demo_env_file "k7"
  = {| content := demo_env_file; modified := false |}.
Proof. reflexivity. Qed.

Example matchEnvLine_examples :
  matchEnvLine "  MAILTESTER_KEYS =  k1, k2 " = Some ("MAILTESTER_KEYS", "k1, k2 ")
  /\ matchEnvLine "# MAILTESTER_KEYS=k1" = None
  /\ matchEnvLine "=k1" = None.
Proof. repeat split. Qed.

Example health_check_all_valid :
  events (performHealthCheck (H := demo_runtime) demo_world)
  = [Call_getAllKeysStatus; HttpGet "k1"; Delay 200; HttpGet "k2"; Delay 200].
Proof. reflexivity. Qed.

Example health_check_offline :
  events (performHealthCheck (H := demo_runtime) offline_world)
  = [Call_getAllKeysStatus;
     HttpGet "k1"; Log Warn "HealthChecker: API request error" (Some "k1");
     Call_deleteKey "k1" true;
     Log Warn "HealthChecker: removed inactive key" (Some "k1"); Delay 200;
     HttpGet "k2"; Log Warn "HealthChecker: API request error" (Some "k2");
     Call_deleteKey "k2" true;
     Log Warn "HealthChecker: removed inactive key" (Some "k2"); Delay 200;
     WriteFile "MAILTESTER_KEYS="].
Proof. reflexivity. Qed.

(** * More of the code *)

(** ** Strings: splitting, joining and trimming *)

Lemma split_not_nil (sep : ascii) (s : string) : Js.split sep s <> [].
Proof.
  destruct s as [|c s]; simpl; [done |].
  destruct (Ascii.eqb c sep); [done |]. by destruct (Js.split sep s).
Qed.

Lemma join_cons_cons (sep p q : string) (rest : list string) :
  Js.join sep (p :: q :: rest) = p +:+ sep +:+ Js.join sep (q :: rest).
Proof. reflexivity. Qed.

(** Joining the pieces of a split gives the string back. *)
Lemma join_split (sep : ascii) (s : string) :
  Js.join (String sep EmptyString) (Js.split sep s) = s.
Proof.
  induction s as [|c s IH]; [done |]. simpl.
  pose proof (split_not_nil sep s) as Hne.
  destruct (Ascii.eqb_spec c sep) as [->|Hc].
  - destruct (Js.split sep s) as [|h t]; [done |].
    rewrite join_cons_cons, IH. reflexivity.
  - destruct (Js.split sep s) as [|h t]; [done |].
    destruct t as [|q t].
    + simpl in *. by rewrite IH.
    + rewrite join_cons_cons in *. rewrite <- IH. reflexivity.
Qed.

Lemma has_char_app (c : ascii) (a b : string) :
  has_char c (a +:+ b) = has_char c a || has_char c b.
Proof.
  induction a as [|x a IH]; simpl; [done |]. by rewrite IH, orb_assoc.
Qed.

(** The pieces of a split hold only characters of the string, and not the
    separator. *)
Lemma split_pieces (sep c : ascii) (s : string) :
  Forall (fun piece => has_char sep piece = false
                       /\ (has_char c s = false -> has_char c piece = false))
    (Js.split sep s).
Proof.
  induction s as [|x s IH]; simpl.
  - by constructor.
  - destruct (Ascii.eqb_spec x sep) as [->|Hx].
    + constructor; [done |].
      eapply Forall_impl; [exact IH |]. simpl. intros piece [Hsep Hc].
      split; [done |]. intros Hs. apply orb_false_iff in Hs as [_ Hs]. auto.
    + destruct (Js.split sep s) as [|h t] eqn:Hsplit.
      * constructor; [| constructor]. simpl.
        rewrite orb_false_r. split; [by apply Ascii.eqb_neq |].
        intros Hs. apply orb_false_iff in Hs as [Hs _]. by rewrite Hs.
      * apply Forall_cons in IH as [[Hsep Hc] IH].
        constructor.
        -- simpl. split.
           ++ rewrite Hsep, orb_false_r. by apply Ascii.eqb_neq.
           ++ intros Hs. apply orb_false_iff in Hs as [Hx' Hs].
              rewrite Hx'. simpl. auto.
        -- eapply Forall_impl; [exact IH |]. simpl. intros piece [Hsep' Hc'].
           split; [done |]. intros Hs. apply orb_false_iff in Hs as [_ Hs]. auto.
Qed.

Lemma split_no_sep (sep : ascii) (s : string) :
  has_char sep s = false -> Js.split sep s = [s].
Proof.
  induction s as [|c s IH]; simpl; [done |].
  intros Hs. apply orb_false_iff in Hs as [Hc Hs].
  rewrite Hc. by rewrite (IH Hs).
Qed.

Lemma split_app_sep (sep : ascii) (p rest : string) :
  has_char sep p = false ->
  Js.split sep (p +:+ String sep rest) = p :: Js.split sep rest.
Proof.
  induction p as [|c p IH]; simpl.
  - intros _. by rewrite Ascii.eqb_refl.
  - intros Hs. apply orb_false_iff in Hs as [Hc Hs].
    rewrite Hc. by rewrite (IH Hs).
Qed.

(** Splitting a join of separator-free parts gives the parts back. *)
Lemma split_join (sep : ascii) (parts : list string) :
  parts <> [] ->
  Forall (fun p => has_char sep p = false) parts ->
  Js.split sep (Js.join (String sep EmptyString) parts) = parts.
Proof.
  intros Hne Hfree. induction Hfree as [|p rest Hp Hrest IH]; [done |].
  destruct rest as [|q rest].
  - simpl. by apply split_no_sep.
  - rewrite join_cons_cons.
    change (p +:+ String sep EmptyString +:+ Js.join (String sep EmptyString) (q :: rest))
      with (p +:+ String sep (Js.join (String sep EmptyString) (q :: rest))).
    rewrite (split_app_sep sep p _ Hp). by rewrite IH.
Qed.

Lemma trimEnd_twice (s : string) : Js.trimEnd (Js.trimEnd s) = Js.trimEnd s.
Proof.
  induction s as [|c s IH]; [done |]. simpl.
  destruct (Js.trimEnd s) as [|c' r] eqn:Hs.
  - destruct (Js.is_space c) eqn:Hc; [done |]. simpl. by rewrite Hc.
  - simpl in *. by rewrite IH.
Qed.

(** [trimEnd] keeps a first character that is not white space. *)
Lemma trimEnd_head (c : ascii) (s : string) :
  Js.is_space c = false -> exists r, Js.trimEnd (String c s) = String c r.
Proof.
  intros Hc. simpl. destruct (Js.trimEnd s); [rewrite Hc |]; by eexists.
Qed.

Lemma trimStart_head (s : string) :
  Js.trimStart s = "" \/ exists c r, Js.trimStart s = String c r /\ Js.is_space c = false.
Proof.
  induction s as [|c s IH]; simpl; [by left |].
  destruct (Js.is_space c) eqn:Hc; [exact IH |]. right. by exists c, s.
Qed.

(** The result of [trim] has no white space at either end. *)
Lemma trim_trimStart (s : string) : Js.trimStart (Js.trim s) = Js.trim s.
Proof.
  unfold Js.trim. destruct (trimStart_head s) as [-> | (c & r & -> & Hc)]; [done |].
  destruct (trimEnd_head c r Hc) as [r' ->]. simpl. by rewrite Hc.
Qed.

Lemma trim_twice (s : string) : Js.trim (Js.trim s) = Js.trim s.
Proof.
  unfold Js.trim at 1. rewrite trim_trimStart. unfold Js.trim.
  apply trimEnd_twice.
Qed.

Lemma trimStart_chars (c : ascii) (s : string) :
  has_char c s = false -> has_char c (Js.trimStart s) = false.
Proof.
  induction s as [|x s IH]; simpl; [done |].
  intros Hs. destruct (Js.is_space x); [| exact Hs].
  apply orb_false_iff in Hs as [_ Hs]. auto.
Qed.

Lemma trimEnd_chars (c : ascii) (s : string) :
  has_char c s = false -> has_char c (Js.trimEnd s) = false.
Proof.
  induction s as [|x s IH]; simpl; [done |].
  intros Hs. apply orb_false_iff in Hs as [Hx Hs]. specialize (IH Hs).
  destruct (Js.trimEnd s) as [|y r].
  - destruct (Js.is_space x); simpl; [done | by rewrite Hx].
  - simpl in *. by rewrite Hx, IH.
Qed.

Lemma trim_chars (c : ascii) (s : string) :
  has_char c s = false -> has_char c (Js.trim s) = false.
Proof. intros Hs. unfold Js.trim. by apply trimEnd_chars, trimStart_chars. Qed.

(** ** The env file as lines *)

Lemma strip_cr_id (s : string) : has_char CR s = false -> strip_cr s = s.
Proof.
  induction s as [|c s IH]; [done |]. intros Hs. simpl in Hs.
  apply orb_false_iff in Hs as [Hc Hs]. simpl.
  destruct s as [|c' s']; [by rewrite Hc |]. by rewrite (IH Hs).
Qed.

Lemma map_init_id {A} (f : A -> A) (l : list A) :
  Forall (fun x => f x = x) l -> map_init f l = l.
Proof.
  induction 1 as [|x l Hx Hl IH]; [done |].
  simpl. destruct l as [|y l]; [done |]. by rewrite Hx, IH.
Qed.

(** X1.  Parsing an env file that holds no carriage return and writing it
    back gives the same text: the lines are the pieces between the line
    feeds, and joining them with line feeds restores the file. *)
Theorem stringifyEnv_parseEnvLines (envContent : string) :
  has_char CR envContent = false ->
  lines (parseEnvLines envContent) = Js.split LF envContent
  /\ stringifyEnv (parseEnvLines envContent) = envContent.
Proof.
  intros Hcr.
  assert (Hlines : splitLines envContent = Js.split LF envContent).
  { unfold splitLines. apply map_init_id.
    eapply Forall_impl; [apply (split_pieces LF CR envContent) |].
    simpl. intros piece [_ Hpiece]. apply strip_cr_id. auto. }
  unfold stringifyEnv, parseEnvLines. simpl. rewrite Hlines.
  split; [done | apply join_split].
Qed.

Lemma stringifyEnv_parseEnvLines_witness :
  has_char CR demo_env_file = false
  /\ stringifyEnv (parseEnvLines demo_env_file) = demo_env_file.
Proof.
  split; [reflexivity |].
  exact (proj2 (stringifyEnv_parseEnvLines demo_env_file eq_refl)).
Defined.

Lemma name_char_not_space (c : ascii) :
  Js.is_name_char c = true -> Js.is_space c = false.
Proof.
  destruct c as [[] [] [] [] [] [] [] []]; vm_compute; congruence.
Qed.

Lemma name_char_not_equals (c : ascii) :
  Js.is_name_char c = true -> c <> "="%char.
Proof. intros Hc ->. vm_compute in Hc. discriminate. Qed.

Lemma span_name_spec (s : string) :
  let '(n, r) := span_name s in
  s = n +:+ r /\ all_name n = true
  /\ match r with
     | EmptyString => True
     | String c _ => Js.is_name_char c = false
     end.
Proof.
  induction s as [|c s IH]; simpl; [done |].
  destruct (Js.is_name_char c) eqn:Hc.
  - destruct (span_name s) as [n r]. destruct IH as (-> & Hn & Hr).
    simpl. by rewrite Hc.
  - simpl. by rewrite Hc.
Qed.

Lemma span_name_app (name rest : string) :
  all_name name = true ->
  match rest with
  | EmptyString => True
  | String c _ => Js.is_name_char c = false
  end ->
  span_name (name +:+ rest) = (name, rest).
Proof.
  intros Hname Hrest. induction name as [|c name IH]; simpl.
  - destruct rest as [|c r]; [done |]. simpl. by rewrite Hrest.
  - simpl in Hname. apply andb_true_iff in Hname as [Hc Hname].
    rewrite Hc. by rewrite (IH Hname).
Qed.

Lemma trimStart_twice (s : string) :
  Js.trimStart (Js.trimStart s) = Js.trimStart s.
Proof.
  induction s as [|c s IH]; simpl; [done |].
  destruct (Js.is_space c) eqn:Hc; [exact IH |]. simpl. by rewrite Hc.
Qed.

(** X2.  The pattern of [parseEnvLines]: a line that matches gives a name
    made of one or more name characters and a value that has no white
    space in front and no line terminator; and the line [NAME=value] that
    [updateEnvVariable] writes matches again as that name with that value
    whenever the value has no white space in front and no line
    terminator. *)
Theorem matchEnvLine_round_trip (name v : string) :
  name <> "" -> all_name name = true ->
  Js.trimStart v = v -> has_line_terminator v = false ->
  matchEnvLine (name +:+ "=" +:+ v) = Some (name, v)
  /\ (forall line n v',
        matchEnvLine line = Some (n, v') ->
        n <> "" /\ all_name n = true /\ Js.trimStart v' = v'
        /\ has_line_terminator v' = false).
Proof.
  intros Hne Hname Hv Hterm. split.
  - unfold matchEnvLine.
    assert (Hstart : Js.trimStart (name +:+ "=" +:+ v) = name +:+ "=" +:+ v).
    { destruct name as [|c name]; [done |]. simpl in *.
      apply andb_true_iff in Hname as [Hc _].
      by rewrite (name_char_not_space c Hc). }
    rewrite Hstart.
    rewrite (span_name_app name ("=" +:+ v) Hname) by (by vm_compute).
    rewrite (truthy_non_empty name Hne).
    change (Js.trimStart ("=" +:+ v)) with (String "="%char v).
    cbv iota beta. by rewrite Hv, Hterm.
  - intros line n v'. unfold matchEnvLine.
    pose proof (span_name_spec (Js.trimStart line)) as Hspan.
    destruct (span_name (Js.trimStart line)) as [n0 r].
    destruct Hspan as (_ & Hn0 & _).
    destruct (Js.truthy n0) eqn:Ht; [| discriminate].
    destruct (Js.trimStart r) as [|c r']; [discriminate |].
    destruct (Ascii.eqb_spec c "="%char) as [->|Hc].
    + destruct (has_line_terminator (Js.trimStart r')) eqn:Hlt; [discriminate |].
      intros [= <- <-]. repeat split; try done.
      * intros ->. discriminate.
      * apply trimStart_twice.
    + destruct c as [[] [] [] [] [] [] [] []]; try discriminate. by destruct Hc.
Qed.

Lemma matchEnvLine_round_trip_witness :
  matchEnvLine ("MAILTESTER_KEYS" +:+ "=" +:+ "k2,k3") = Some ("MAILTESTER_KEYS", "k2,k3").
Proof.
  exact (proj1 (matchEnvLine_round_trip "MAILTESTER_KEYS" "k2,k3"
                  ltac:(discriminate) eq_refl eq_refl eq_refl)).
Defined.

(** ** Removing an id from the value of a variable *)

Lemma Forall_filter_keep {A} (P : A -> Prop) (f : A -> bool) (l : list A) :
  Forall P l -> Forall P (List.filter f l).
Proof.
  induction 1 as [|x l Hx Hl IH]; simpl; [constructor |].
  destruct (f x); [by constructor | done].
Qed.

Lemma csvParts_clean (v : string) : Forall clean_part (csvParts v).
Proof.
  unfold csvParts.
  pose proof (split_pieces ","%char ","%char v) as Hpieces.
  induction Hpieces as [|piece pieces [Hsep _] _ IH]; simpl; [constructor |].
  destruct (Js.truthy (Js.trim piece)) eqn:Ht; [| exact IH].
  constructor; [| exact IH].
  split; [done |]. split; [apply trim_twice | by apply trim_chars].
Qed.

(** Joining clean parts with commas and taking the parts again gives the
    same parts. *)
Lemma csvParts_join (parts : list string) :
  Forall clean_part parts -> csvParts (Js.join "," parts) = parts.
Proof.
  intros Hclean. destruct parts as [|p rest]; [reflexivity |].
  unfold csvParts.
  rewrite (split_join ","%char (p :: rest)); [| done |].
  - induction Hclean as [|x l (Ht & Htrim & _) _ IH]; [done |].
    simpl. rewrite Htrim, Ht. by rewrite IH.
  - eapply Forall_impl; [exact Hclean |]. by intros x (_ & _ & Hx).
Qed.

(** X3.  [removeIdFromList] removes the id and nothing else: the parts of
    its result are the parts of the value without the ones equal to the
    id, in their order; the id is no part of the result; and removing it
    again changes nothing. *)
Theorem removeIdFromList_parts (v id : string) :
  csvParts (removeIdFromList v id) =
    List.filter (fun entry => negb (String.eqb entry id)) (csvParts v)
  /\ (forall entry, In entry (csvParts (removeIdFromList v id)) -> entry <> id)
  /\ removeIdFromList (removeIdFromList v id) id = removeIdFromList v id.
Proof.
  assert (Hparts : csvParts (removeIdFromList v id) =
            List.filter (fun entry => negb (String.eqb entry id)) (csvParts v)).
  { unfold removeIdFromList. apply csvParts_join.
    apply Forall_filter_keep, csvParts_clean. }
  split; [exact Hparts |]. split.
  - intros entry Hin. rewrite Hparts in Hin. apply filter_In in Hin as [_ Hne].
    apply negb_true_iff in Hne. by apply String.eqb_neq.
  - unfold removeIdFromList at 1. rewrite Hparts, filter_twice. reflexivity.
Qed.

(** X4.  [removeIdFromCsv] removes the pairs of the id and nothing else:
    the parts of its result are the parts of the value without the ones
    whose text before the first colon, trimmed, is the id, in their order;
    and removing the id again changes nothing. *)
Theorem removeIdFromCsv_parts (v id : string) :
  let keeps entry :=
    negb (String.eqb (Js.trim (first_part (Js.split ":"%char entry))) id) in
  csvParts (removeIdFromCsv v id) = List.filter keeps (csvParts v)
  /\ Forall (fun entry => keeps entry = true) (csvParts (removeIdFromCsv v id))
  /\ removeIdFromCsv (removeIdFromCsv v id) id = removeIdFromCsv v id.
Proof.
  intros keeps.
  assert (Hparts : csvParts (removeIdFromCsv v id) = List.filter keeps (csvParts v)).
  { unfold removeIdFromCsv. apply csvParts_join.
    apply Forall_filter_keep, csvParts_clean. }
  split; [exact Hparts |]. split.
  - rewrite Hparts. apply Forall_forall. intros entry Hin.
    apply list_elem_of_In in Hin. by apply filter_In in Hin as [_ ?].
  - unfold removeIdFromCsv at 1. fold keeps. rewrite Hparts, filter_twice.
    reflexivity.
Qed.

Lemma filter_length_forallb {A} (f : A -> bool) (l : list A) :
  (length (List.filter f l) =? length l)%nat = forallb f l.
Proof.
  induction l as [|x l IH]; [done |]. simpl.
  destruct (f x); simpl; [exact IH |].
  apply Nat.eqb_neq. pose proof (filter_length_le f l). lia.
Qed.

(** X5.  [removeIdFromJson] never throws and gives the value back as it is
    unless the value parses as an array that holds an item whose [id] is
    the string [id]; then it gives the text of the array without those
    items.  An item without an [id], or with an [id] that is not a string,
    is never removed. *)
Theorem removeIdFromJson_cases `{Runtime} (v id : string) :
  removeIdFromJson v id =
    match JSON_parse v with
    | Some (JArray arr) =>
        if forallb (keeps_item id) arr then v
        else JSON_stringify (JArray (List.filter (keeps_item id) arr))
    | _ => v
    end
  /\ (forall item,
        (forall s, Json.prop "id" item <> Some (JString s)) ->
        keeps_item id item = true)
  /\ (forall arr, Forall (fun item => Json.prop "id" item <> Some (JString id))
                    (List.filter (keeps_item id) arr)).
Proof.
  split; [| split].
  - unfold removeIdFromJson. destruct (JSON_parse v) as [[]|]; try done.
    by rewrite filter_length_forallb; destruct (forallb _ _).
  - intros item Hitem. unfold keeps_item, Json.is_string.
    destruct (Json.prop "id" item) as [[]|]; try done. by destruct (Hitem s).
  - intros arr. apply Forall_forall. intros item Hin.
    apply list_elem_of_In in Hin. apply filter_In in Hin as [_ Hk].
    unfold keeps_item, Json.is_string in Hk. intros Heq. rewrite Heq in Hk.
    by rewrite String.eqb_refl in Hk.
Qed.

(** ** More on the health checker *)

(** X6.  [validateKey] never throws and changes nothing: whatever the
    request does, it resolves to a boolean, [true] exactly for HTTP 200
    with a body whose [code] is [ok]; it sends one request, calls the key
    manager not at all, and logs the warning of a request error exactly
    when the request threw without a 401 or 403 response. *)
Theorem validateKey_never_rejects `{Runtime} {S : Type} `{KeyManager S}
    (id : string) (w : World S) :
  result (validateKey id w) = Resolved (probe_ok (network w id))
  /\ final (validateKey id w) = w
  /\ probes (events (validateKey id w)) = [id]
  /\ manager_calls (events (validateKey id w)) = []
  /\ transient_warnings (events (validateKey id w)) =
       if is_transient (network w id) then [id] else [].
Proof.
  rewrite validateKey_run. cbn [result final events]. unfold probe_events.
  destruct (is_transient (network w id)); done.
Qed.

Ltac loop_turn key rest env cl w :=
  let Hok := fresh "Hok" in
  let Hdel := fresh "Hdel" in
  destruct (probe_ok (network w (subscriptionId key))) eqn:Hok;
  [ rewrite (healthLoop_valid key rest env cl w Hok)
  | let u := fresh "u" in
    let err := fresh "err" in
    let s' := fresh "s'" in
    destruct (deleteKey (subscriptionId key) (store w)) as [[u|err] s'] eqn:Hdel;
    [ rewrite (healthLoop_deleted key rest env cl w u s' Hok Hdel)
    | rewrite (healthLoop_delete_failed key rest env cl w err s' Hok Hdel) ] ];
  unfold after; cbn [result final events].

Section HealthMore.
Context `{Runtime} {S : Type} `{KeyManager S}.

Lemma runCheck_resolved (w : World S) u :
  result (performHealthCheck w) = Resolved u -> runCheck w = performHealthCheck w.
Proof. intros Hres. unfold runCheck, try_catch. by rewrite Hres. Qed.

(** The content that the loop hands on: the evicted ids removed from it,
    one after the other. *)
Lemma healthLoop_content keys env cl (w : World S) st :
  result (healthLoop keys env cl w) = Resolved st ->
  st.1 = fold_left remove_step (deleted (events (healthLoop keys env cl w))) env.
Proof.
  revert env cl w. induction keys as [|key rest IH]; intros env cl w.
  - simpl. by intros [= <-].
  - loop_turn key rest env cl w; intros Hres; apply IH in Hres;
      rewrite Hres; unfold deleted; rewrite !omap_app;
      fold (deleted (probe_events (network w) (subscriptionId key)));
      rewrite deleted_probe_events; reflexivity.
Qed.

Lemma healthLoop_paces keys env cl (w : World S) :
  paces (events (healthLoop keys env cl w)) =
    flat_map (fun key => [inl (subscriptionId key); inr DEFAULT_DELAY_MS]) keys.
Proof.
  assert (Hprobe : forall net id, paces (probe_events net id) = [inl id]).
  { intros net id. unfold probe_events. by destruct (is_transient (net id)). }
  revert env cl w. induction keys as [|key rest IH]; intros env cl w.
  - reflexivity.
  - loop_turn key rest env cl w; unfold paces in *; rewrite !omap_app;
      fold (paces (probe_events (network w) (subscriptionId key)));
      rewrite Hprobe; simpl; by rewrite IH.
Qed.

(** The trace of a cycle over a pool that is not empty, in its parts. *)
Lemma cycle_events (w : World S) key rest s' :
  getAllKeysStatus (store w) = (Resolved (key :: rest), s') ->
  let envContent := match envFile w with Some text => text | None => "" end in
  let loop := healthLoop (key :: rest) envContent [] (with_store w s') in
  exists st tail,
    result loop = Resolved st
    /\ events (performHealthCheck w) =
         Call_getAllKeysStatus :: read_events w ++ events loop ++ tail
    /\ match st.2 with
       | [] => tail = []
       | _ :: _ =>
           tail = [WriteFile st.1]
           \/ tail = [WriteFile st.1;
                      Log Error "HealthChecker: failed to write .env" None]
       end.
Proof.
  intros Hget envContent loop.
  destruct (performHealthCheck_cycle w key rest s' Hget) as (st & Hst & Hrun).
  fold envContent in Hrun. fold loop in Hrun, Hst.
  exists st.
  exists (events (if negb (length st.2 =? 0)%nat then writeEnv st.1 (final loop)
                  else {| result := Resolved tt; final := final loop;
                          events := [] |})).
  split; [exact Hst |]. split.
  - rewrite Hrun. unfold after. cbn [events]. simpl. by rewrite <- app_assoc.
  - destruct st.2 as [|c cs]; simpl; [done |].
    unfold writeEnv. destruct (envWritable (final loop)); simpl; auto.
Qed.

(** What a cycle writes. *)
Lemma cycle_written (w : World S) keys s' :
  getAllKeysStatus (store w) = (Resolved keys, s') ->
  writes (events (performHealthCheck w)) =
    match deleted (events (performHealthCheck w)) with
    | [] => []
    | ids =>
        [fold_left remove_step ids
           match envFile w with Some text => text | None => "" end]
    end
  /\ paces (events (performHealthCheck w)) =
       flat_map (fun key => [inl (subscriptionId key); inr DEFAULT_DELAY_MS]) keys.
Proof.
  intros Hget. destruct keys as [|key rest].
  - rewrite (performHealthCheck_empty w s' Hget). done.
  - destruct (cycle_events w key rest s' Hget) as (st & tail & Hst & -> & Htail).
    set (envContent := match envFile w with Some text => text | None => "" end) in *.
    set (loop := healthLoop (key :: rest) envContent [] (with_store w s')) in *.
    pose proof (healthLoop_cleanedIds _ _ _ _ _ Hst) as Hcl. fold loop in Hcl.
    pose proof (healthLoop_content _ _ _ _ _ Hst) as Hcontent. fold loop in Hcontent.
    simpl in Hcl.
    assert (Hread : forall {A} (f : Event -> option A),
               (forall msg, f (Log Error msg None) = None) ->
               omap f (read_events w) = []).
    { intros A f Hf. unfold read_events. destruct (envFile w); simpl; [done |].
      by rewrite Hf. }
    split.
    + unfold writes, deleted. simpl. rewrite !omap_app, !Hread by done.
      fold (writes (events loop)) (deleted (events loop)).
      unfold loop at 1. rewrite healthLoop_writes. fold loop.
      rewrite <- Hcl. simpl.
      destruct st.2 as [|c cs] eqn:Hst2.
      * subst tail. simpl. done.
      * assert (Htd : omap (fun e => match e with
                                     | Call_deleteKey id true => Some id
                                     | _ => None
                                     end) tail = []).
        { destruct Htail as [-> | ->]; done. }
        rewrite Htd, app_nil_r. rewrite <- Hcl in Hcontent. simpl in Hcontent.
        destruct Htail as [-> | ->]; simpl; by rewrite Hcontent.
    + unfold paces. simpl. rewrite !omap_app, Hread by done.
      fold (paces (events loop)). unfold loop at 1. rewrite healthLoop_paces.
      assert (Htp : omap (fun e => match e with
                                   | HttpGet id => Some (inl id)
                                   | Delay ms => Some (inr ms)
                                   | _ => None
                                   end) tail = ([] : list (string + Z))).
      { destruct st.2; [by subst tail | destruct Htail as [-> | ->]; done]. }
      rewrite Htp. simpl. by rewrite app_nil_r.
Qed.

Lemma remove_step_empty (id : string) : remove_step "" id = "".
Proof. reflexivity. Qed.

Lemma fold_remove_step_empty (ids : list string) :
  fold_left remove_step ids "" = "".
Proof. induction ids as [|id ids IH]; simpl; [done |]. by rewrite remove_step_empty. Qed.

End HealthMore.

(** X7.  [runCheck], which the scheduler runs at start and at every
    firing, never rejects.  When the listing of the keys rejects, nothing
    else is done: the error is logged as unexpected and the env file is
    neither read nor written; when the listing is empty the cycle ends at
    once, without reading the env file; otherwise it is the cycle of
    [performHealthCheck]. *)
Theorem runCheck_never_rejects `{Runtime} {S : Type} `{KeyManager S}
    (w : World S) :
  result (runCheck w) = Resolved tt
  /\ match (getAllKeysStatus (store w)).1 with
     | Rejected _ =>
         events (runCheck w) =
           [Call_getAllKeysStatus;
            Log Error "HealthChecker: unexpected error" None]
         /\ envFile (final (runCheck w)) = envFile w
     | Resolved [] =>
         events (runCheck w) = [Call_getAllKeysStatus]
         /\ envFile (final (runCheck w)) = envFile w
     | Resolved (_ :: _) => runCheck w = performHealthCheck w
     end.
Proof.
  destruct (getAllKeysStatus (store w)) as [[keys|err] s'] eqn:Hget; simpl.
  - destruct (cycle_summary w keys s' Hget) as (Hres & _).
    rewrite (runCheck_resolved w tt Hres). split; [exact Hres |].
    destruct keys as [|key rest]; [| done].
    by rewrite (performHealthCheck_empty w s' Hget).
  - unfold runCheck, try_catch.
    rewrite (performHealthCheck_rejected w err s' Hget). done.
Qed.

(** X8.  What a cycle writes to the env file is the content it read (the
    empty string when the file could not be read) with the evicted ids
    removed by [removeSubscriptionFromEnv] one after the other, in the
    order of their eviction; a key whose [deleteKey] rejected is not
    removed from the file. *)
Theorem health_check_written_content `{Runtime} {S : Type} `{KeyManager S}
    (w : World S) (keys : list KeyStatus) (s' : S) :
  getAllKeysStatus (store w) = (Resolved keys, s') ->
  writes (events (performHealthCheck w)) =
    match deleted (events (performHealthCheck w)) with
    | [] => []
    | ids =>
        [fold_left remove_step ids
           match envFile w with Some text => text | None => "" end]
    end.
Proof. intros Hget. exact (proj1 (cycle_written w keys s' Hget)). Qed.

Lemma health_check_written_content_witness :
  writes (events (performHealthCheck (H := demo_runtime) offline_world))
  = [remove_step (H := demo_runtime)
       (remove_step (H := demo_runtime) "MAILTESTER_KEYS=k1,k2" "k1") "k2"].
Proof.
  exact (health_check_written_content (H := demo_runtime) (H0 := pool_manager)
           offline_world (map SpecPool.status_of (records demo_pool)) demo_pool
           eq_refl).
Defined.

(** X9.  When the env file cannot be read, a cycle that evicts a key
    writes the empty string to it: the file is replaced by an empty one. *)
Theorem health_check_unreadable_env `{Runtime} {S : Type} `{KeyManager S}
    (w : World S) :
  envFile w = None ->
  Forall (fun text => text = "") (writes (events (performHealthCheck w)))
  /\ match deleted (events (performHealthCheck w)) with
     | [] => writes (events (performHealthCheck w)) = []
     | _ :: _ => writes (events (performHealthCheck w)) = [""]
     end.
Proof.
  intros Hfile.
  destruct (getAllKeysStatus (store w)) as [[keys|err] s'] eqn:Hget.
  - destruct (cycle_written w keys s' Hget) as [Hwr _]. rewrite Hwr, Hfile.
    destruct (deleted _) as [|c cs]; [by split |].
    change (fold_left remove_step (c :: cs) "")
      with (fold_left remove_step cs (remove_step "" c)).
    rewrite remove_step_empty, fold_remove_step_empty.
    split; [by repeat constructor | done].
  - rewrite (performHealthCheck_rejected w err s' Hget). simpl. by split.
Qed.

Lemma health_check_unreadable_env_witness :
  writes (events (performHealthCheck (H := demo_runtime) unreadable_world)) = [""].
Proof.
  exact (proj2 (health_check_unreadable_env (H := demo_runtime)
                  (H0 := pool_manager) unreadable_world eq_refl)).
Defined.

(** X10.  A cycle probes one key at a time and waits 200 ms after every
    probe, the last one included: its probes and delays are, in order,
    one probe and one delay for each listed key. *)
Theorem health_check_pacing `{Runtime} {S : Type} `{KeyManager S}
    (w : World S) (keys : list KeyStatus) (s' : S) :
  getAllKeysStatus (store w) = (Resolved keys, s') ->
  paces (events (performHealthCheck w)) =
    flat_map (fun key => [inl (subscriptionId key); inr 200]) keys.
Proof. intros Hget. exact (proj2 (cycle_written w keys s' Hget)). Qed.

Lemma health_check_pacing_witness :
  paces (events (performHealthCheck (H := demo_runtime) demo_world))
  = [inl "k1"; inr 200; inl "k2"; inr 200].
Proof.
  exact (health_check_pacing (H := demo_runtime) (H0 := pool_manager)
           demo_world (map SpecPool.status_of (records demo_pool)) demo_pool
           eq_refl).
Defined.

Lemma deleted_in_delete_calls (evs : list Event) (id : string) :
  In id (deleted evs) -> In id (delete_calls evs).
Proof.
  unfold deleted, delete_calls. induction evs as [|e evs IH]; [done |].
  simpl. destruct e as [| | | id' [|] | | | |]; simpl; auto.
  intros [-> | Hin]; auto.
Qed.

(** X11.  In a cycle [deleteKey] is called once for each listed key whose
    probe did not succeed, in the order of the listing, and the warning of
    a request error is logged once for each listed key whose probe failed
    with a transient error; every evicted key is one [deleteKey] was
    called for. *)
Theorem health_check_calls_in_order `{Runtime} {S : Type} `{KeyManager S}
    (w : World S) (keys : list KeyStatus) (s' : S) :
  getAllKeysStatus (store w) = (Resolved keys, s') ->
  delete_calls (events (performHealthCheck w)) =
    List.filter (fun id => negb (probe_ok (network w id)))
      (map subscriptionId keys)
  /\ transient_warnings (events (performHealthCheck w)) =
       List.filter (fun id => is_transient (network w id))
         (map subscriptionId keys)
  /\ (forall id, In id (deleted (events (performHealthCheck w))) ->
        In id (delete_calls (events (performHealthCheck w)))).
Proof.
  intros Hget. destruct (cycle_summary w keys s' Hget) as (_ & _ & Hdc & Htw & _).
  split; [exact Hdc |]. split; [exact Htw |].
  intros id. apply deleted_in_delete_calls.
Qed.

Lemma health_check_calls_in_order_witness :
  delete_calls (events (performHealthCheck (H := demo_runtime) frozen_world))
  = ["k1"; "k2"]
  /\ deleted (events (performHealthCheck (H := demo_runtime) frozen_world)) = [].
Proof.
  split; [| reflexivity].
  exact (proj1 (health_check_calls_in_order (H := demo_runtime)
                  (H0 := frozen_manager) frozen_world
                  (frozen_keys (store frozen_world)) (store frozen_world)
                  eq_refl)).
Defined.

(** ** More on the desired state *)

Section DesiredMore.
Context `{Runtime}.

Lemma jsonEntries_clean parsed dp : Forall clean_id (jsonEntries parsed dp).1.
Proof.
  induction parsed as [|e parsed IH]; simpl; [constructor |].
  destruct (Json.to_String _) as [text|]; [| constructor].
  destruct (Js.truthy _) eqn:Ht; simpl; [| exact IH].
  destruct (normalizePlan _) as [pl|]; [| constructor].
  destruct (jsonEntries parsed dp) as [pushed thrown]. simpl.
  constructor; [| exact IH]. split; [exact Ht | apply trim_twice].
Qed.

Lemma csvEntries_clean entries dp : Forall clean_id (csvEntries entries dp).
Proof.
  induction entries as [|e entries IH]; simpl; [constructor |].
  destruct (Js.truthy _) eqn:Ht; simpl; [| exact IH].
  constructor; [| exact IH]. split; [exact Ht | apply trim_twice].
Qed.

Lemma listKeysOf_clean raw dp : Forall clean_id (listKeysOf raw dp).
Proof.
  unfold listKeysOf. pose proof (csvParts_clean raw) as Hparts.
  induction Hparts as [|p parts (Ht & Htrim & _) _ IH]; simpl; constructor;
    [by split | exact IH].
Qed.

Lemma parseKeysFromEnv_clean envVars envDir :
  Forall clean_id (parseKeysFromEnv envVars envDir).
Proof.
  destruct envVars as [env|]; [| constructor].
  rewrite (parseKeysFromEnv_first_non_empty env envDir).
  unfold desired_state_by_precedence.
  assert (Hj : forall raw dp, Forall clean_id (jsonKeysOf raw dp)).
  { intros raw dp. unfold jsonKeysOf, readJsonKeys.
    destruct (Js.truthy _); [| constructor].
    destruct (JSON_parse raw) as [[]|]; try constructor.
    pose proof (jsonEntries_clean items dp) as Hc.
    by destruct (jsonEntries items dp). }
  specialize (Hj (rawJsonOf env envDir) (defaultPlanOf env)).
  destruct (jsonKeysOf _ _); simpl; [| exact Hj].
  pose proof (csvEntries_clean
    (csvParts (Js.opt_or (MAILTESTER_KEYS_WITH_PLAN env) "")) (defaultPlanOf env))
    as Hc.
  unfold csvKeysOf. destruct (csvEntries _ _); simpl; [| exact Hc].
  pose proof (listKeysOf_clean (Js.opt_or (MAILTESTER_KEYS env) "")
                (defaultPlanOf env)) as Hl.
  destruct (listKeysOf _ _); [constructor | exact Hl].
Qed.

End DesiredMore.

(** X12.  Every id of the desired state is a usable id: not empty, and
    without white space at either end, in each of the three formats (an
    entry whose id is missing or blank is skipped). *)
Theorem desired_ids_trimmed `{Runtime} (envVars : option EnvVars) (envDir : string) :
  Forall (fun k : DesiredKey => k.1 <> "" /\ Js.trim k.1 = k.1)
    (parseKeysFromEnv envVars envDir).
Proof.
  eapply Forall_impl; [apply parseKeysFromEnv_clean |].
  intros [id p] [Ht Htrim]. simpl in *. split; [| done]. by intros ->.
Qed.

(** X13.  A JSON text that does not parse, or that is not an array, is
    ignored without an error reaching the caller: the desired state is then
    decided by the other two formats, pairs first, the bare list last. *)
Theorem parseKeysFromEnv_bad_json `{Runtime} (env : EnvVars) (envDir : string) :
  (forall arr, JSON_parse (rawJsonOf env envDir) <> Some (JArray arr)) ->
  parseKeysFromEnv (Some env) envDir =
    first_non_empty
      [ csvKeysOf (Js.opt_or (MAILTESTER_KEYS_WITH_PLAN env) "") (defaultPlanOf env);
        listKeysOf (Js.opt_or (MAILTESTER_KEYS env) "") (defaultPlanOf env) ].
Proof.
  intros Hbad. rewrite (parseKeysFromEnv_first_non_empty env envDir).
  unfold desired_state_by_precedence, jsonKeysOf, readJsonKeys.
  destruct (Js.truthy _); [| reflexivity].
  destruct (JSON_parse (rawJsonOf env envDir)) as [[]|] eqn:Hparse; try reflexivity.
  by destruct (Hbad items).
Qed.

Lemma parseKeysFromEnv_bad_json_witness :
  parseKeysFromEnv (H := demo_runtime) (Some env_bad_json) "/app" =
    first_non_empty
      [ csvKeysOf "a:PRO, b:gold ,c, :pro" "ultimate";
        listKeysOf "x,y" "ultimate" ].
Proof.
  apply (parseKeysFromEnv_bad_json (H := demo_runtime) env_bad_json "/app").
  intros arr. discriminate.
Defined.

(** ** More on reconciliation *)

Lemma keys_fold_set (l : list (string * string)) (m : JsMap.t string) (k : string) :
  In k (JsMap.keys (fold_left (fun m kv => JsMap.set kv.1 kv.2 m) l m))
  <-> In k (map fst l) \/ In k (JsMap.keys m).
Proof.
  revert m. induction l as [|[k0 v0] l IH]; intros m; simpl; [tauto |].
  rewrite IH, keys_set. simpl. intuition (subst; auto).
Qed.

Lemma NoDup_existingMapOf existing : NoDup (JsMap.keys (existingMapOf existing)).
Proof. apply NoDup_keys_fold. constructor. Qed.

Lemma NoDup_fst_filter (f : string * string -> bool) (l : list (string * string)) :
  NoDup (map fst l) -> NoDup (map fst (List.filter f l)).
Proof.
  induction l as [|x l IH]; simpl; [done |].
  intros Hnd. apply NoDup_cons in Hnd as [Hx Hnd].
  destruct (f x); simpl; [| by apply IH].
  apply NoDup_cons. split; [| by apply IH].
  rewrite list_elem_of_In in *. intros Hin. apply Hx.
  apply in_map_iff in Hin as (y & Hy & Hin). apply filter_In in Hin as [Hin _].
  rewrite <- Hy. by apply in_map.
Qed.

Lemma NoDup_filter_ids (f : string -> bool) (l : list string) :
  NoDup l -> NoDup (List.filter f l).
Proof.
  induction l as [|x l IH]; simpl; [done |].
  intros Hnd. apply NoDup_cons in Hnd as [Hx Hnd].
  destruct (f x); [| by apply IH].
  apply NoDup_cons. split; [| by apply IH].
  rewrite list_elem_of_In in *. intros Hin. apply Hx.
  by apply filter_In in Hin as [? _].
Qed.

(** X14.  When the desired state lists an id more than once, the plan of
    its last entry counts; and a pass calls [registerKey] at most once for
    an id, with that plan, and [deleteKey] at most once for an id. *)
Theorem sync_once_per_id {S : Type} `{KeyManager S}
    (w : World S) (desiredKeys : list DesiredKey)
    (existing : list KeyStatus) (s' : S) :
  getAllKeysStatus (store w) = (Resolved existing, s') ->
  let r := applyDesiredKeys desiredKeys w in
  (forall id, JsMap.get id (desiredMapOf desiredKeys) = last_assoc id desiredKeys)
  /\ NoDup (map fst (register_calls (events r)))
  /\ NoDup (delete_calls (events r))
  /\ (forall id p, In (id, p) (register_calls (events r)) ->
        last_assoc id desiredKeys = Some p).
Proof.
  intros Hget r. subst r.
  destruct (applyDesiredKeys_calls desiredKeys w existing s' Hget) as [Hreg Hdel].
  assert (Hlast : forall id,
            JsMap.get id (desiredMapOf desiredKeys) = last_assoc id desiredKeys).
  { intros id. unfold desiredMapOf. rewrite get_fold_set.
    by destruct (last_assoc id desiredKeys). }
  split; [exact Hlast |]. rewrite Hreg, Hdel. split; [| split].
  - apply NoDup_fst_filter. exact (NoDup_desiredMapOf desiredKeys).
  - apply NoDup_filter_ids, NoDup_existingMapOf.
  - intros id p Hin. apply filter_In in Hin as [Hin _].
    rewrite <- Hlast. apply In_get; [apply NoDup_desiredMapOf | exact Hin].
Qed.

Lemma sync_once_per_id_witness :
  NoDup (map fst
           (register_calls
              (events (applyDesiredKeys
                         [("k3", "pro"); ("k1", "pro"); ("k3", "ultimate")]
                         demo_world)))).
Proof.
  exact (proj1 (proj2 (sync_once_per_id (H := pool_manager) demo_world
                         [("k3", "pro"); ("k1", "pro"); ("k3", "ultimate")]
                         (map SpecPool.status_of (records demo_pool)) demo_pool
                         eq_refl))).
Defined.

Lemma keys_existingMapOf (existing : list KeyStatus) (id : string) :
  In id (JsMap.keys (existingMapOf existing)) <-> In id (map subscriptionId existing).
Proof.
  unfold existingMapOf, JsMap.of_pairs. rewrite keys_fold_set, map_map. simpl.
  tauto.
Qed.

Lemma filter_all_true {A} (f : A -> bool) (l : list A) :
  (forall x, f x = true) -> List.filter f l = l.
Proof.
  intros Hf. induction l as [|x l IH]; simpl; [done |]. by rewrite Hf, IH.
Qed.

(** X15.  When the desired state is empty (the env file cannot be read, or
    it sets none of the three variables to a usable list), a pass registers
    nothing and calls [deleteKey] for every key of the pool. *)
Theorem sync_with_empty_desired_state `{Runtime} {S : Type} `{KeyManager S}
    (w : World S) (envVars : option EnvVars) (envDir : string)
    (existing : list KeyStatus) (s' : S) :
  getAllKeysStatus (store w) = (Resolved existing, s') ->
  parseKeysFromEnv envVars envDir = [] ->
  let r := performSync envVars envDir w in
  register_calls (events r) = []
  /\ delete_calls (events r) = JsMap.keys (existingMapOf existing)
  /\ (forall id, In id (delete_calls (events r))
                 <-> In id (map subscriptionId existing)).
Proof.
  intros Hget Hempty r. subst r.
  rewrite register_calls_performSync, delete_calls_performSync, Hempty.
  destruct (applyDesiredKeys_calls [] w existing s' Hget) as [Hreg Hdel].
  rewrite (filter_all_true _ (JsMap.keys (existingMapOf existing))) in Hdel
    by reflexivity. split; [exact Hreg |]. split; [exact Hdel |].
  intros id. rewrite Hdel. apply keys_existingMapOf.
Qed.

Lemma sync_with_empty_desired_state_witness :
  delete_calls (events (performSync (H := demo_runtime) None "/app" demo_world))
  = ["k1"; "k2"].
Proof.
  exact (proj1 (proj2 (sync_with_empty_desired_state (H := demo_runtime)
                         (H0 := pool_manager) demo_world None "/app"
                         (map SpecPool.status_of (records demo_pool)) demo_pool
                         eq_refl eq_refl))).
Defined.

Section SyncMore.
Context {S : Type} `{KeyManager S}.

(** In the loops every call that rejects is logged as an error, and
    nothing else is. *)
Lemma registerLoop_errors E entries (w : World S) :
  length (error_logs (events (registerLoop E entries w)))
  = length (failed_calls (events (registerLoop E entries w))).
Proof.
  revert w. induction entries as [|[id p] rest IH]; intros w; [done |].
  register_turn E id p rest w; unfold error_logs, failed_calls in *; simpl;
    by rewrite IH.
Qed.

Lemma deleteLoop_errors D ids (w : World S) :
  length (error_logs (events (deleteLoop D ids w)))
  = length (failed_calls (events (deleteLoop D ids w))).
Proof.
  revert w. induction ids as [|id rest IH]; intros w; [done |].
  delete_turn D id rest w; unfold error_logs, failed_calls in *; simpl;
    by rewrite IH.
Qed.

Lemma mutations_registers (evs : list Event) :
  delete_calls evs = [] -> mutations evs = map inl (register_calls evs).
Proof.
  unfold delete_calls, mutations, register_calls.
  induction evs as [|e evs IH]; [done |]. simpl.
  destruct e; simpl; try exact IH; [| discriminate].
  intros Hd. f_equal. exact (IH Hd).
Qed.

Lemma mutations_deletes (evs : list Event) :
  register_calls evs = [] -> mutations evs = map inr (delete_calls evs).
Proof.
  unfold delete_calls, mutations, register_calls.
  induction evs as [|e evs IH]; [done |]. simpl.
  destruct e; simpl; try exact IH; [discriminate |].
  intros Hr. f_equal. exact (IH Hr).
Qed.

End SyncMore.

Section SyncErrors.
Context `{Runtime} {S : Type} `{KeyManager S}.

Lemma applyDesiredKeys_errors desiredKeys (w : World S) existing s' :
  getAllKeysStatus (store w) = (Resolved existing, s') ->
  length (error_logs (events (applyDesiredKeys desiredKeys w)))
  = length (failed_calls (events (applyDesiredKeys desiredKeys w))).
Proof.
  intros Hget. rewrite (applyDesiredKeys_run _ w existing s' Hget).
  cbn [result final events].
  unfold error_logs, failed_calls. simpl. rewrite !omap_app, !List.filter_app.
  rewrite !length_app.
  fold (error_logs (events (registerLoop (existingMapOf existing)
          (desiredMapOf desiredKeys) (with_store w s')))).
  fold (failed_calls (events (registerLoop (existingMapOf existing)
          (desiredMapOf desiredKeys) (with_store w s')))).
  rewrite registerLoop_errors. f_equal. apply deleteLoop_errors.
Qed.

Lemma error_logs_parse_events parsed envDir :
  length (error_logs (parse_events parsed envDir))
  = length (parse_events parsed envDir)
  /\ failed_calls (parse_events parsed envDir) = [].
Proof.
  destruct (parse_events_errors parsed envDir) as [Hlogs _].
  induction Hlogs as [|e evs [msg ->] _ [IHl IHf]]; [done |]. split.
  - unfold error_logs in *. rewrite omap_cons_eq. simpl. by rewrite IHl.
  - unfold failed_calls in *. simpl. exact IHf.
Qed.

Lemma readJsonKeys_thrown raw dp :
  (readJsonKeys raw dp).2 =
    if Js.truthy (Js.trim raw) then
      match JSON_parse raw with
      | Some (JArray parsed) =>
          if forallb (convertible dp) parsed then [] else [json_parse_error]
      | Some _ => []
      | None => [json_parse_error]
      end
    else [].
Proof.
  unfold readJsonKeys. destruct (Js.truthy _); [| done].
  destruct (JSON_parse raw) as [[]|]; try done.
  rewrite jsonEntries_prefix. simpl.
  replace (forallb (convertible dp) items)
    with (length (convertible_prefix dp items) =? length items)%nat;
    [by destruct (_ =? _)%nat |].
  induction items as [|e items IH]; [done |]. simpl.
  destruct (convertible dp e); simpl; [exact IH | done].
Qed.

End SyncErrors.

(** X16.  [runSync], which the watcher runs at start and after every
    debounced change, never rejects.  The pass first logs what the parsing
    of the env file met: that the file cannot be read, that the file named
    by [MAILTESTER_KEYS_JSON_PATH] cannot be read, that the JSON text does
    not parse or holds an entry that [String] cannot convert.  When the
    listing of the keys then rejects, no key is registered or deleted and
    the error is logged; otherwise the pass runs to its end whatever
    [registerKey] and [deleteKey] do, and besides the errors of the
    parsing it logs one error for each of their calls that rejected. *)
Theorem runSync_never_rejects `{Runtime} {S : Type} `{KeyManager S}
    (w : World S) (envVars : option EnvVars) (envDir : string) :
  result (runSync envVars envDir w) = Resolved tt
  /\ match (getAllKeysStatus (store w)).1 with
     | Rejected _ =>
         events (runSync envVars envDir w) =
           parse_events envVars envDir
           ++ [Call_getAllKeysStatus; Log Error "Watcher sync error" None]
     | Resolved _ =>
         runSync envVars envDir w = performSync envVars envDir w
         /\ events (performSync envVars envDir w) =
              parse_events envVars envDir
              ++ events (applyDesiredKeys (parseKeysFromEnv envVars envDir) w)
         /\ length (error_logs (events (performSync envVars envDir w)))
            = (length (parse_events envVars envDir)
               + length (failed_calls (events (performSync envVars envDir w))))%nat
     end
  /\ match envVars with
     | None =>
         parse_events envVars envDir =
           [Log Error "Failed to read .env file for watcher" None]
     | Some env =>
         let rawJson := Js.opt_or (MAILTESTER_KEYS_JSON env) "" in
         parse_events envVars envDir =
           (match MAILTESTER_KEYS_JSON_PATH env with
            | Some jsonPath =>
                if negb (Js.truthy rawJson) && Js.truthy jsonPath then
                  match fs_readFileSync
                          (path_resolve (Js.or_else envDir process_cwd) jsonPath)
                  with
                  | Some _ => []
                  | None => [path_read_error]
                  end
                else []
            | None => []
            end)
           ++ (if Js.truthy (Js.trim (rawJsonOf env envDir)) then
                 match JSON_parse (rawJsonOf env envDir) with
                 | Some (JArray parsed) =>
                     if forallb (convertible (defaultPlanOf env)) parsed
                     then [] else [json_parse_error]
                 | Some _ => []
                 | None => [json_parse_error]
                 end
               else [])
     end.
Proof.
  split; [| split].
  - unfold runSync, try_catch. rewrite performSync_run. simpl.
    destruct (getAllKeysStatus (store w)) as [[existing|err] s'] eqn:Hget.
    + by rewrite (applyDesiredKeys_run _ w existing s' Hget).
    + by rewrite (applyDesiredKeys_rejected _ w err s' Hget).
  - destruct (getAllKeysStatus (store w)) as [[existing|err] s'] eqn:Hget; simpl.
    + split; [| split].
      * unfold runSync, try_catch. rewrite performSync_run. simpl.
        by rewrite (applyDesiredKeys_run _ w existing s' Hget).
      * by rewrite performSync_run.
      * rewrite performSync_run. simpl. unfold error_logs, failed_calls.
        rewrite omap_app, List.filter_app, !length_app.
        destruct (error_logs_parse_events envVars envDir) as [Hl Hf].
        unfold error_logs, failed_calls in Hl, Hf. rewrite Hl, Hf. simpl.
        f_equal. exact (applyDesiredKeys_errors _ w existing s' Hget).
    + unfold runSync, try_catch. rewrite performSync_run. simpl.
      rewrite (applyDesiredKeys_rejected _ w err s' Hget). simpl.
      by rewrite <- app_assoc.
  - destruct envVars as [env|]; [| reflexivity].
    cbv zeta. unfold parse_events. rewrite parseKeysFromEnv_run_log.
    rewrite readJsonKeys_thrown. simpl. f_equal.
    unfold readRawJson. destruct (MAILTESTER_KEYS_JSON_PATH env); [| done].
    destruct (_ && _); [| done]. by destruct (fs_readFileSync _).
Qed.

(** X17.  A pass makes all its calls of [registerKey] before its first
    call of [deleteKey]. *)
Theorem sync_registers_before_deletes {S : Type} `{KeyManager S}
    (w : World S) (desiredKeys : list DesiredKey)
    (existing : list KeyStatus) (s' : S) :
  getAllKeysStatus (store w) = (Resolved existing, s') ->
  let r := applyDesiredKeys desiredKeys w in
  mutations (events r) =
    map inl (register_calls (events r)) ++ map inr (delete_calls (events r)).
Proof.
  intros Hget r. subst r.
  rewrite (applyDesiredKeys_run desiredKeys w existing s' Hget).
  cbn [result final events].
  set (D := desiredMapOf desiredKeys). set (E := existingMapOf existing).
  set (reg := registerLoop E D (with_store w s')).
  destruct (registerLoop_calls E D (with_store w s')) as [_ Hd1]. fold reg in Hd1.
  destruct (deleteLoop_calls D (JsMap.keys E) (final reg)) as [_ Hr2].
  unfold mutations, register_calls, delete_calls in *. simpl.
  rewrite !omap_app. fold (mutations (events reg)).
  fold (mutations (events (deleteLoop D (JsMap.keys E) (final reg)))).
  rewrite (mutations_registers _ Hd1), (mutations_deletes _ Hr2).
  unfold register_calls, delete_calls. rewrite Hd1, Hr2.
  by rewrite app_nil_r.
Qed.

Lemma sync_registers_before_deletes_witness :
  mutations (events (applyDesiredKeys demo_desired demo_world))
  = [inl ("k3", "ultimate"); inr "k2"].
Proof.
  exact (sync_registers_before_deletes (H := pool_manager) demo_world
           demo_desired (map SpecPool.status_of (records demo_pool)) demo_pool
           eq_refl).
Defined.

(** ** The debounce helper *)

Lemma clearTimeout_single (t : nat) : clearTimeout t [t] = [].
Proof. unfold clearTimeout. simpl. by rewrite Nat.eqb_refl. Qed.

Lemma debounced_ok (d : Debouncer) :
  debouncer_ok d ->
  debouncer_ok (debounced d) /\ pending (debounced d) = [next_timer d].
Proof.
  unfold debouncer_ok, debounced. intros Hok. simpl.
  rewrite Hok. destruct (timer d) as [t|]; [rewrite clearTimeout_single |]; done.
Qed.

Lemma fire_ok (t : nat) (d : Debouncer) : debouncer_ok d -> debouncer_ok (fire t d).
Proof.
  unfold debouncer_ok, fire. intros Hok.
  destruct (existsb (Nat.eqb t) (pending d)) eqn:Hex; [| exact Hok].
  simpl. rewrite Hok in *. destruct (timer d) as [t'|]; [| done].
  simpl in Hex. rewrite orb_false_r in Hex. apply Nat.eqb_eq in Hex as ->.
  apply clearTimeout_single.
Qed.

Lemma debounce_run_ok (steps : list DebounceStep) (d : Debouncer) :
  debouncer_ok d -> debouncer_ok (debounce_run steps d).
Proof.
  revert d. induction steps as [|st steps IH]; intros d Hok; [done |].
  simpl. apply IH. destruct st; [by apply debounced_ok | by apply fire_ok].
Qed.

Lemma debounce_run_runs (steps : list DebounceStep) (d : Debouncer) (n : nat) :
  debouncer_ok d ->
  (runs d + length (pending d) <= n)%nat ->
  (runs (debounce_run steps d) + length (pending (debounce_run steps d))
   <= n + invokes steps)%nat.
Proof.
  revert d n. induction steps as [|st steps IH]; intros d n Hok Hn.
  - unfold invokes. simpl. lia.
  - simpl. destruct st as [|t].
    + destruct (debounced_ok d Hok) as [Hok' Hp].
      specialize (IH (debounced d) (Datatypes.S n) Hok').
      unfold invokes in *. simpl. rewrite Hp in IH. simpl in IH.
      assert (runs d <= n)%nat by lia. specialize (IH ltac:(lia)). lia.
    + specialize (IH (fire t d) n (fire_ok t d Hok)).
      unfold invokes in *. simpl. apply IH.
      unfold fire. unfold debouncer_ok in Hok.
      destruct (existsb (Nat.eqb t) (pending d)) eqn:Hex; [| exact Hn].
      simpl. rewrite Hok in *. destruct (timer d) as [t'|]; [| discriminate].
      simpl in Hex. rewrite orb_false_r in Hex. apply Nat.eqb_eq in Hex as ->.
      rewrite clearTimeout_single. simpl in *. lia.
Qed.

Lemma burst_pending (n : nat) (d : Debouncer) :
  debouncer_ok d ->
  let d' := debounce_run (repeat Invoke (Datatypes.S n)) d in
  pending d' = [(next_timer d + n)%nat] /\ runs d' = runs d.
Proof.
  revert d. induction n as [|n IH]; intros d Hok.
  - change (debounce_run (repeat Invoke 1) d) with (debounced d).
    cbv zeta. destruct (debounced_ok d Hok) as [_ ->]. by rewrite Nat.add_0_r.
  - destruct (debounced_ok d Hok) as [Hok' _].
    destruct (IH (debounced d) Hok') as [Hp Hr].
    change (debounce_run (repeat Invoke (Datatypes.S (Datatypes.S n))) d)
      with (debounce_run (repeat Invoke (Datatypes.S n)) (debounced d)).
    cbv zeta in *. rewrite Hp, Hr. simpl. split; [f_equal; lia | done].
Qed.

(** X18.  The debounced function, under any order of invocations and of
    timeouts firing: at most one timeout is pending, the one held in
    [timer]; [fn] has run at most as often as the function was invoked;
    and a burst of invocations leaves one pending timeout, the last one
    set, whose firing runs [fn] once and leaves none pending. *)
Theorem debounce_coalesces (steps : list DebounceStep) (n : nat) :
  let d := debounce_run steps debouncer_init in
  let burst := debounce_run (repeat Invoke (Datatypes.S n)) d in
  let t := (next_timer d + n)%nat in
  pending d = match timer d with Some t' => [t'] | None => [] end
  /\ (runs d + length (pending d) <= invokes steps)%nat
  /\ pending burst = [t]
  /\ runs burst = runs d
  /\ runs (fire t burst) = Datatypes.S (runs d)
  /\ pending (fire t burst) = [].
Proof.
  intros d burst t.
  assert (Hok : debouncer_ok d) by (by apply debounce_run_ok).
  destruct (burst_pending n d Hok) as [Hp Hr]. fold burst in Hp, Hr. fold t in Hp.
  split; [exact Hok |]. split.
  - exact (debounce_run_runs steps debouncer_init 0 eq_refl (Nat.le_refl 0)).
  - split; [exact Hp |]. split; [exact Hr |].
    unfold fire. rewrite Hp. simpl. rewrite Nat.eqb_refl. simpl.
    by rewrite Hr.
Qed.

(** ** The other routes *)

Section RoutesMore.
Context `{Runtime} {S : Type} `{KeyManager S}.

Lemma post_keys_registers (body : option JSON) (w : World S) subId p :
  trim_method (subIdValue (Json.or_else body (JObject []))) = Resolved subId ->
  Js.truthy subId = true ->
  normalizedPlanOf (Json.or_else body (JObject [])) = Some p ->
  plan_accepted p = true ->
  let ok := is_resolved (registerKey subId p (store w)).1 in
  result (post_keys body w) =
    Resolved (if ok then json 201 (MessageBody ("Key " +:+ subId +:+ " registered"))
              else json 500 (ErrorBody "Internal server error"))
  /\ events (post_keys body w) =
       Call_registerKey subId p ok ::
       (if ok then [] else [Log Error "Error in POST /keys" None]).
Proof.
  intros Htrim Ht Hp Hplan ok. unfold post_keys. rewrite Htrim, Ht, Hp. simpl.
  rewrite Hplan. simpl. subst ok. eff_unfold.
  destruct (registerKey subId p (store w)) as [[u|err] s']; simpl; done.
Qed.

Lemma trim_method_resolved (v : JSON) (subId : string) :
  trim_method v = Resolved subId -> Js.trim subId = subId.
Proof.
  destruct v; simpl; try discriminate. intros [= <-]. apply trim_twice.
Qed.

Lemma plan_accepted_valid (p : string) :
  plan_accepted p = true -> p = "pro" \/ p = "ultimate".
Proof.
  unfold plan_accepted. intros Hp. apply orb_true_iff in Hp as [Hp | Hp];
    apply String.eqb_eq in Hp; auto.
Qed.

End RoutesMore.

(** X19.  [POST /keys] lets only checked input through: whenever it calls
    [registerKey], the id is not empty and is trimmed, the plan is [pro]
    or [ultimate], and the answer is 201 with [Key <id> registered] when
    the call resolved and 500 when it rejected; an answer 400 is given
    without any call or log; and no other status is answered. *)
Theorem post_keys_boundary `{Runtime} {S : Type} `{KeyManager S}
    (body : option JSON) (w : World S) :
  let r := post_keys body w in
  (forall id p ok, In (Call_registerKey id p ok) (events r) ->
     id <> "" /\ Js.trim id = id /\ (p = "pro" \/ p = "ultimate")
     /\ result r =
          Resolved (if ok
                    then json 201 (MessageBody ("Key " +:+ id +:+ " registered"))
                    else json 500 (ErrorBody "Internal server error")))
  /\ (forall resp, result r = Resolved resp ->
        (statusCode resp = 400 /\ events r = [])
        \/ statusCode resp = 201 \/ statusCode resp = 500).
Proof.
  intros r. subst r.
  destruct (trim_method (subIdValue (Json.or_else body (JObject []))))
    as [subId|err] eqn:Htrim.
  - destruct (Js.truthy subId) eqn:Ht.
    + destruct (normalizedPlanOf (Json.or_else body (JObject [])))
        as [np|] eqn:Hnp.
      * destruct (plan_accepted np) eqn:Hplan.
        -- destruct (post_keys_registers body w subId np Htrim Ht Hnp Hplan)
             as [Hres Hev].
           rewrite Hres, Hev. split.
           ++ intros id p ok [Heq | Hin].
              ** injection Heq as <- <- <-.
                 split; [by intros -> |].
                 split; [by eapply trim_method_resolved |].
                 split; [by apply plan_accepted_valid | done].
              ** destruct (is_resolved _); [done |].
                 by destruct Hin as [Heq | []].
           ++ intros resp [= <-]. destruct (is_resolved _); simpl; auto.
        -- unfold post_keys. rewrite Htrim, Ht, Hnp. simpl. rewrite Hplan. simpl.
           split; [by intros id p ok [] |]. intros resp [= <-]. by left.
      * unfold post_keys. rewrite Htrim, Ht, Hnp. simpl.
        split; [by intros id p ok [] | discriminate].
    + unfold post_keys. rewrite Htrim, Ht. simpl.
      split; [by intros id p ok [] |]. intros resp [= <-]. by left.
  - unfold post_keys. rewrite Htrim. simpl.
    split; [by intros id p ok [] | discriminate].
Qed.

(** X20.  [POST /keys] with an id that is not a string (a number, [true],
    an array, an object in [subscriptionId], or in [id] when
    [subscriptionId] is missing or falsy) throws at [trim], before any
    check: the handler rejects, sends no answer and calls nothing. *)
Theorem post_keys_non_string_id `{Runtime} {S : Type} `{KeyManager S}
    (body : option JSON) (w : World S) :
  (forall s, subIdValue (Json.or_else body (JObject [])) <> JString s) ->
  result (post_keys body w) = Rejected type_error
  /\ events (post_keys body w) = []
  /\ final (post_keys body w) = w.
Proof.
  intros Hid. unfold post_keys.
  destruct (subIdValue (Json.or_else body (JObject []))) eqn:Hv; simpl; try done.
  by destruct (Hid s).
Qed.

Lemma post_keys_non_string_id_witness :
  result (post_keys (H := demo_runtime) (Some numeric_id_body) demo_world)
  = Rejected type_error.
Proof.
  apply (post_keys_non_string_id (H := demo_runtime) (H0 := pool_manager)
           (Some numeric_id_body) demo_world).
  intros s. discriminate.
Defined.

(** X21.  [GET /key/available], [GET /status] and [DELETE /keys/:id] never
    reject: when the key manager rejects they answer 500 with
    [Internal server error] and log one error, and [GET /status] answers
    200 with the listing as the key manager gave it. *)
Theorem routes_answer_500 {S : Type} `{KeyManager S}
    (now : Z) (id : string) (w : World S) :
  match (getAvailableKeysSnapshot (store w)).1 with
  | Resolved _ => is_resolved (result (get_key_available now w)) = true
  | Rejected _ =>
      result (get_key_available now w) =
        Resolved (json 500 (ErrorBody "Internal server error"))
      /\ error_logs (events (get_key_available now w)) = ["Error in /key/available"]
  end
  /\ match (getAllKeysStatus (store w)).1 with
     | Resolved st => result (get_status w) = Resolved (200, StatusList st)
     | Rejected _ =>
         result (get_status w) = Resolved (500, StatusError "Internal server error")
         /\ error_logs (events (get_status w)) = ["Error in /status"]
     end
  /\ match (deleteKey id (store w)).1 with
     | Resolved _ => is_resolved (result (delete_keys_id id w)) = true
     | Rejected _ =>
         is_resolved (result (delete_keys_id id w)) = true
         /\ (id <> "" ->
             result (delete_keys_id id w) =
               Resolved (json 500 (ErrorBody "Internal server error"))
             /\ error_logs (events (delete_keys_id id w))
                = ["Error in DELETE /keys/:id"])
     end.
Proof.
  split; [| split].
  - unfold get_key_available. eff_unfold.
    destruct (getAvailableKeysSnapshot (store w)) as [[keys|err] s']; simpl.
    + by destruct (length (map (annotate now) keys) =? 0)%nat.
    + done.
  - unfold get_status. eff_unfold.
    destruct (getAllKeysStatus (store w)) as [[st|err] s']; simpl; done.
  - unfold delete_keys_id. destruct (Js.truthy id) eqn:Ht; simpl.
    + eff_unfold. destruct (deleteKey id (store w)) as [[u|err] s']; simpl; done.
    + destruct id; [| discriminate].
      destruct (deleteKey "" (store w)) as [[u|err] s']; simpl; [done |].
      split; [done |]. by intros [].
Qed.

(** ** The MongoDB connection module *)

Lemma connectMongo_ok (r : outcome unit) (s : MongoState) :
  mongo_ok s -> mongo_ok (connectMongo r s).1.2.
Proof.
  intros Hok. unfold connectMongo.
  destruct (db s) as [d|] eqn:Hd; [exact Hok |].
  destruct (Js.truthy (uri s)) eqn:Hu; simpl; [| exact Hok].
  destruct r as [u|err]; simpl; split; simpl.
  - intros d [= <-]. done.
  - intros c [= <-]. lia.
  - discriminate.
  - intros c [= <-]. lia.
Qed.

Lemma disconnectMongo_ok (r : outcome unit) (s : MongoState) :
  mongo_ok s -> mongo_ok (disconnectMongo r s).1.2.
Proof.
  intros Hok. unfold disconnectMongo.
  destruct (client s) as [c|] eqn:Hc; [| exact Hok].
  destruct r as [u|err]; simpl; [| exact Hok]. split; simpl; discriminate.
Qed.

Lemma mongo_run_ok (ops : list MongoOp) (s : MongoState) :
  mongo_ok s -> mongo_ok (mongo_run ops s).
Proof.
  revert s. induction ops as [|op ops IH]; intros s Hok; [done |].
  simpl. apply IH. destruct op; [by apply connectMongo_ok | by apply disconnectMongo_ok].
Qed.

Lemma mongo_init_ok (env : MongoEnv) : mongo_ok (mongo_init env).
Proof. split; simpl; done. Qed.

Lemma mongo_run_config (ops : list MongoOp) (s : MongoState) :
  uri (mongo_run ops s) = uri s /\ dbName (mongo_run ops s) = dbName s.
Proof.
  revert s. induction ops as [|op ops IH]; intros s; [done |].
  simpl. destruct (IH (mongo_step s op)) as [-> ->].
  destruct op as [r|r]; simpl.
  - unfold connectMongo. destruct (db s); [done |].
    destruct (negb _); [done |]. by destruct r.
  - unfold disconnectMongo. destruct (client s); [| done]. by destruct r.
Qed.

(** X22.  Whatever calls of [connectMongo] and [disconnectMongo] were
    made, and whatever the driver did in them: a handle [db] exists only
    together with the client it was taken from, that client is the current
    one, the handle bears the configured name, and the configuration read
    at load time is never changed. *)
Theorem mongo_handle_has_client (env : MongoEnv) (ops : list MongoOp) :
  let s := mongo_run ops (mongo_init env) in
  (forall d, db s = Some d ->
     client s = Some (db_client d)
     /\ db_name d = Js.opt_or (MONGODB_DB_NAME env) "mailtester"
     /\ Js.opt_or (MONGODB_URI env) "" <> "")
  /\ (forall c, client s = Some c -> (c < created s)%nat)
  /\ uri s = Js.opt_or (MONGODB_URI env) ""
  /\ dbName s = Js.opt_or (MONGODB_DB_NAME env) "mailtester".
Proof.
  intros s. destruct (mongo_run_ok ops (mongo_init env) (mongo_init_ok env))
    as [Hdb Hcl].
  destruct (mongo_run_config ops (mongo_init env)) as [Huri Hname].
  fold s in Hdb, Hcl, Huri, Hname. simpl in Huri, Hname.
  split; [| by repeat split].
  intros d Hd. destruct (Hdb d Hd) as (Hc & Hn & Hu).
  split; [done |]. split; [by rewrite Hn |].
  rewrite Huri in Hu. intros Heq. by rewrite Heq in Hu.
Qed.

Lemma mongo_run_unconfigured (ops : list MongoOp) (s : MongoState) :
  uri s = "" -> db s = None -> client s = None -> mongo_run ops s = s.
Proof.
  intros Hu Hd Hc. induction ops as [|op ops IH]; [done |].
  simpl. assert (Hstep : mongo_step s op = s).
  { destruct op as [r|r]; simpl.
    - unfold connectMongo. by rewrite Hd, Hu.
    - unfold disconnectMongo. by rewrite Hc. }
  by rewrite Hstep.
Qed.

(** X23.  With [MONGODB_URI] unset or empty the module never connects:
    every [connectMongo] throws [MONGODB_URI is not configured] without
    making a client, [disconnectMongo] does nothing, and [getDb] and
    [getKeysCollection] throw, whatever calls came before. *)
Theorem mongo_unconfigured (env : MongoEnv) (ops : list MongoOp)
    (r : outcome unit) :
  Js.opt_or (MONGODB_URI env) "" = "" ->
  let s := mongo_run ops (mongo_init env) in
  s = mongo_init env
  /\ connectMongo r s =
       (Rejected (error_of "MONGODB_URI is not configured"), s, [])
  /\ disconnectMongo r s = (Resolved tt, s, [])
  /\ is_resolved (getDb s) = false
  /\ is_resolved (getKeysCollection s) = false.
Proof.
  intros Hu s.
  assert (Hs : s = mongo_init env).
  { subst s. apply mongo_run_unconfigured; simpl; done. }
  rewrite Hs. unfold connectMongo, disconnectMongo, getKeysCollection, getDb.
  simpl. rewrite Hu. done.
Qed.

Lemma mongo_unconfigured_witness :
  connectMongo (Resolved tt)
    (mongo_run [Connect (Resolved tt); Disconnect (Resolved tt)]
       (mongo_init unconfigured_env))
  = (Rejected (error_of "MONGODB_URI is not configured"),
     mongo_run [Connect (Resolved tt); Disconnect (Resolved tt)]
       (mongo_init unconfigured_env), []).
Proof.
  exact (proj1 (proj2 (mongo_unconfigured unconfigured_env
                         [Connect (Resolved tt); Disconnect (Resolved tt)]
                         (Resolved tt) eq_refl))).
Defined.

(** X24.  With a configured uri, from any state the module can be in: a
    [connectMongo] in which the driver connects makes [getDb] answer a
    handle of the configured name, and a further [connectMongo] is then a
    no-op that makes no client; a [disconnectMongo] in which the driver
    closes leaves no client and no handle, so [getDb] throws again; and a
    [disconnectMongo] in which the driver fails to close changes
    nothing. *)
Theorem mongo_lifecycle (env : MongoEnv) (ops : list MongoOp)
    (r : outcome unit) (err : JsError) :
  Js.opt_or (MONGODB_URI env) "" <> "" ->
  let s := mongo_run ops (mongo_init env) in
  let connected := mongo_step s (Connect (Resolved tt)) in
  let closed := mongo_step s (Disconnect (Resolved tt)) in
  (exists d, getDb connected = Resolved d
             /\ db_name d = Js.opt_or (MONGODB_DB_NAME env) "mailtester"
             /\ getKeysCollection connected = Resolved (d, "keys"))
  /\ connectMongo r connected = (Resolved tt, connected, [])
  /\ client closed = None /\ is_resolved (getDb closed) = false
  /\ disconnectMongo r closed = (Resolved tt, closed, [])
  /\ mongo_step s (Disconnect (Rejected err)) = s.
Proof.
  intros Hu s connected closed.
  destruct (mongo_run_ok ops (mongo_init env) (mongo_init_ok env)) as [Hdb Hcl].
  destruct (mongo_run_config ops (mongo_init env)) as [Huri Hname].
  fold s in Hdb, Hcl, Huri, Hname. simpl in Huri, Hname.
  assert (Ht : Js.truthy (uri s) = true).
  { rewrite Huri. by apply truthy_non_empty. }
  assert (Hconn : exists d, db connected = Some d /\ db_name d = dbName s).
  { subst connected. simpl. unfold connectMongo.
    destruct (db s) as [d|] eqn:Hd; simpl.
    - exists d. split; [done |]. by destruct (Hdb d eq_refl) as (_ & ? & _).
    - rewrite Ht. simpl. by eexists. }
  destruct Hconn as (d & Hd & Hn).
  split; [| split; [| split; [| split; [| split]]]].
  - exists d. unfold getKeysCollection, getDb. rewrite Hd.
    split; [done |]. split; [by rewrite Hn, Hname | done].
  - unfold connectMongo. by rewrite Hd.
  - subst closed. simpl. unfold disconnectMongo.
    destruct (client s) as [c|] eqn:Hc; simpl; done.
  - subst closed. simpl. unfold disconnectMongo, getDb.
    destruct (client s) as [c|] eqn:Hc; simpl; [done |].
    destruct (db s) as [d'|] eqn:Hd'; [| done].
    destruct (Hdb d' eq_refl) as (Hc' & _). congruence.
  - assert (Hnone : client closed = None).
    { subst closed. simpl. unfold disconnectMongo.
      destruct (client s) as [c|] eqn:Hc; simpl; done. }
    unfold disconnectMongo. by rewrite Hnone.
  - simpl. unfold disconnectMongo. by destruct (client s).
Qed.

Lemma mongo_lifecycle_witness :
  is_resolved
    (getDb (mongo_step
              (mongo_run [Connect (Rejected timeout_error)]
                 (mongo_init configured_env))
              (Disconnect (Resolved tt)))) = false.
Proof.
  exact (proj1 (proj2 (proj2 (proj2 (mongo_lifecycle configured_env
           [Connect (Rejected timeout_error)] (Resolved tt) timeout_error
           ltac:(discriminate)))))).
Defined.
